(** * Monomers: the import-resolution engine of [lib/monomers.js]

    A shallow embedding of the engine: the dom5 nodes and parser results it
    reads, the JavaScript objects it allocates and mutates, the promises it
    composes and the job queue that runs their reactions.  The parsers
    ([importParse], [jsParse]), [url.resolve] and the loader are the
    collaborators of the file; they are parameters of the development. *)

From stdpp Require Import gmap strings list.

Open Scope string_scope.
Open Scope list_scope.
Open Scope nat_scope.

(** ** dom5 nodes and parser results *)

Record Attr := { attr_name : string; attr_value : string }.

(** A parse5 element: its attribute list and, for a script, the text values
    of its child nodes. *)
Record Node := { attrs : list Attr; childNodes : list string }.

#[global] Instance Attr_eq_dec : EqDecision Attr.
Proof. solve_decision. Defined.
#[global] Instance Node_eq_dec : EqDecision Node.
Proof. solve_decision. Defined.

(** [String.prototype.toLowerCase] on the ASCII letters, which is all that
    attribute names written in markup consist of. *)
Definition lower_ascii (c : Ascii.ascii) : Ascii.ascii :=
  let n := Ascii.nat_of_ascii c in
  if (65 <=? n) && (n <=? 90) then Ascii.ascii_of_nat (n + 32) else c.

Fixpoint toLowerCase (s : string) : string :=
  match s with
  | EmptyString => EmptyString
  | String c rest => String (lower_ascii c) (toLowerCase rest)
  end.

(** [dom5.getAttribute]: the value of the first attribute whose name equals
    [name]; dom5 compares the two names in lower case. *)
Fixpoint getAttribute_attrs (l : list Attr) (name : string) : option string :=
  match l with
  | [] => None
  | a :: l' => if decide (toLowerCase (attr_name a) = toLowerCase name)
               then Some (attr_value a)
               else getAttribute_attrs l' name
  end.

Definition getAttribute (n : Node) (name : string) : option string :=
  getAttribute_attrs (attrs n) name.

(** [dom5.removeAttribute]: splices the first attribute of that name (found
    as [getAttribute] finds it) out. *)
Fixpoint removeAttribute_attrs (l : list Attr) (name : string) : list Attr :=
  match l with
  | [] => []
  | a :: l' => if decide (toLowerCase (attr_name a) = toLowerCase name) then l'
               else a :: removeAttribute_attrs l' name
  end.

(** JavaScript truthiness of an attribute value: absent and the empty string
    are falsy. *)
Definition truthy_str (o : option string) : bool :=
  match o with
  | Some s => negb (bool_decide (s = ""))
  | None => false
  end.

(** The registry returned by [importParse]: the fields the engine reads.
    [p_script] is [None] when the property is falsy. *)
Record Parsed := {
  p_script : option (list Node);
  p_import : list Node;
  p_dom_module : list Node
}.

(** JavaScript exceptions. [Opaque] stands for whatever a collaborator (a
    parser, the loader) throws or rejects with. *)
Inductive exn :=
| JsError (message : string)
| JsTypeError (message : string)
| Opaque (tag : string).

#[global] Instance exn_eq_dec : EqDecision exn.
Proof. solve_decision. Defined.

(** ** Plain objects used as dictionaries

    [this.elements], [this.modules], [this.html] and [loadedHrefs] are
    created as [{}], so the [in] operator and a property read also see what
    [Object.prototype] provides. *)

Definition Object_prototype_keys : list string :=
  [ "constructor"; "__proto__"; "hasOwnProperty"; "isPrototypeOf";
    "propertyIsEnumerable"; "toLocaleString"; "toString"; "valueOf";
    "__defineGetter__"; "__defineSetter__"; "__lookupGetter__";
    "__lookupSetter__" ].

Definition inherited (k : string) : bool :=
  bool_decide (k ∈ Object_prototype_keys).

Definition js_in {V} (k : string) (o : gmap string V) : bool :=
  bool_decide (is_Some (o !! k)) || inherited k.

(** What a property read [o[k]] yields. *)
Inductive prop (V : Type) :=
| Own (v : V)
| Builtin
| Undefined.
Arguments Own {V} v.
Arguments Builtin {V}.
Arguments Undefined {V}.

Definition js_get {V} (o : gmap string V) (k : string) : prop V :=
  match o !! k with
  | Some v => Own v
  | None => if inherited k then Builtin else Undefined
  end.

(** ** Values and heap objects *)

Inductive value :=
| VUndefined
| VBool (b : bool)
| VString (s : string)
| VStrings (l : list string)          (* an array of addresses *)
| VArray (l : list value)             (* the array Promise.all resolves to *)
| VParsed (p : Parsed)
| VObj (r : nat)                      (* a metadata-shaped object, by reference *)
| VElement (r : nat)                  (* an element monomer, by reference *)
| VModule (name : string)             (* a module monomer *)
| VPromise (p : nat)
| VBuiltin.

(** An element monomer: its name and the dom-module bound to it, if any. *)
Record Element := { e_is : string; domModule : option Node }.

(** Every object the engine reads or writes metadata fields on has this
    shape: the result of [jsParse] ([elements], [modules], each optional),
    [EMPTY_METADATA], the objects built by [reduceMetadata], and [{}]. *)
Record Obj := {
  o_elements : option (list value);
  o_modules : option (list value);
  o_imports : option (list value);
  o_href : option string;
  o_html : option Parsed
}.

Definition empty_object : Obj :=
  {| o_elements := None; o_modules := None; o_imports := None;
     o_href := None; o_html := None |}.

Definition metadata_object (es ms : list value) : Obj :=
  {| o_elements := Some es; o_modules := Some ms; o_imports := None;
     o_href := None; o_html := None |}.

(** [EMPTY_METADATA] is allocated once, when the module is loaded: it is
    the object at reference 0 of every heap. *)
Definition EMPTY_METADATA : nat := 0.

(** What [jsParse] returns, before its objects are allocated. *)
Record ParsedJs := {
  js_elements : option (list string);   (* the [is] of each element *)
  js_modules : option (list string)     (* the [is] of each module *)
}.

(** [Array.prototype.concat] with one argument: an array is spread, anything
    else is appended as one entry. *)
Definition js_concat (a : list value) (arg : option (list value)) : list value :=
  match arg with
  | Some b => a ++ b
  | None => a ++ [VUndefined]
  end.

(** [reduceMetadata(m1, m2)], lines 20-25, on the two objects read from the
    heap: the object it returns, or the TypeError of [undefined.concat]. *)
Definition reduceMetadata (m1 m2 : Obj) : exn + Obj :=
  match o_elements m1, o_modules m1 with
  | Some e1, Some md1 =>
      inr (metadata_object (js_concat e1 (o_elements m2))
                           (js_concat md1 (o_modules m2)))
  | _, _ => inl (JsTypeError "Cannot read property 'concat' of undefined")
  end.

(** [attachDomModule(parsedImport, element)], lines 244-253, as the loop
    over [domModules]: the element after the call. *)
Fixpoint attachDomModule_loop (domModules : list Node) (element : Element) : Element :=
  match domModules with
  | [] => element
  | domModule :: rest =>
      if decide (getAttribute domModule "id" = Some (e_is element))
      then {| e_is := e_is element; domModule := Some domModule |}
      else attachDomModule_loop rest element
  end.

Definition attachDomModule (parsedImport : Parsed) (element : Element) : Element :=
  attachDomModule_loop (p_dom_module parsedImport) element.

(** ** Promises, reactions and the engine state *)

(** A document's entry in [this.html] (an HTMLMonomer): its address and its
    three promises, by reference. *)
Record HTMLMonomer := {
  href : string;
  htmlLoaded : nat;
  metadataLoaded : nat;
  depsLoaded : nat
}.

(** The function expressions of the file that are handed to [then] or
    [catch], each with the variables it closes over. *)
Inductive Callback :=
| cb_import (resolvedUrl : string)                                (* lines 132-134 *)
| cb_depHrefs (depHrefs : list string)                            (* line 140 *)
| cb_reduce                                                       (* lines 156-158 *)
| cb_script (script : Node) (href : string)                       (* lines 187-193 *)
| cb_tree_metadata (htmlMonomer : HTMLMonomer) (loadedHrefs : nat) (* lines 209-241 *)
| cb_tree_deps (htmlMonomer : HTMLMonomer) (loadedHrefs : nat) (metadata : value)
                                                                  (* lines 210-240 *)
| cb_tree_next (href : string) (loadedHrefs : nat)                (* lines 219-221 *)
| cb_tree_imports (htmlMonomer : HTMLMonomer) (metadata : value)  (* lines 227-239 *)
| cb_tree_html (metadata : value).                                (* lines 230-238 *)

(** The one function expression handed to [catch]:
    [function(err) {throw err;}], lines 141 and 193. *)
Inductive Catcher :=
| cb_rethrow.

Inductive outcome :=
| Fulfilled (v : value)
| Rejected (e : exn).

(** What is registered on a promise: a [then]/[catch] of the program with
    the promise it derives, the resolving functions of a promise that
    follows this one, or the per-element functions of a [Promise.all]. *)
Inductive reaction :=
| RThen (onFulfilled : option Callback) (onRejected : option Catcher) (target : nat)
| RAdopt (target : nat)
| RAll (a : nat) (index : nat).

Inductive pstate :=
| Pending (reactions : list reaction)
| Settled (o : outcome).

(** The jobs of the promise job queue. *)
Inductive job :=
| JReact (r : reaction) (o : outcome)
| JThenable (target thenable : nat).

(** The bookkeeping of one [Promise.all] call: one slot per entry, filled
    when that entry's promise is fulfilled, the result promise, and (kept
    for the invariants) the promise of each entry. *)
Record AllRec := {
  a_values : list (option value);
  a_target : nat;
  a_inputs : list nat
}.

(** How a promise came to be; kept beside the promises for the invariants,
    never read by the program. *)
Inductive origin :=
| OValue                         (* Promise.resolve(v) *)
| ORequest                       (* loader.request(url) *)
| OThen (src : nat) (onFulfilled : option Callback) (onRejected : option Catcher)
| OAll (a : nat).                (* the result of the [a]-th Promise.all *)

(** [h_parent]: the promise whose handler was running when this one was
    created ([None] in the constructor and in [metadataTree]);
    [h_follows]: the promise that the handler of this one returned. *)
Record History := {
  h_origin : origin;
  h_parent : option nat;
  h_follows : option nat
}.

(** The fields of a [Monomers] instance. [loader] records whether a loader
    was configured. *)
Record Monomers := {
  loader : bool;
  attachAST : bool;
  elements : gmap string nat;
  modules : gmap string value;
  html : gmap string HTMLMonomer;
  root : prop HTMLMonomer
}.

(** The whole state: the instance, the heaps of objects, of element
    monomers and of [loadedHrefs] dictionaries, the promises, the job
    queue, and what is kept for the statements below: every
    [loader.request] call ([requests], with the promise it returned), every
    [importParse] call ([parses], by address), the history of each promise
    and the promise whose handler is running ([cur]). *)
Record State := {
  this : Monomers;
  objs : list Obj;
  elems : list Element;
  visited : list (gmap string bool);
  promises : list pstate;
  alls : list AllRec;
  jobs : list job;
  requests : list (nat * string);
  parses : list string;
  history : list History;
  cur : option nat
}.

Definition set_this (f : Monomers → Monomers) (s : State) : State :=
  {| this := f (this s); objs := objs s; elems := elems s; visited := visited s;
     promises := promises s; alls := alls s; jobs := jobs s; requests := requests s;
     parses := parses s; history := history s; cur := cur s |}.
Definition set_objs (f : list Obj → list Obj) (s : State) : State :=
  {| this := this s; objs := f (objs s); elems := elems s; visited := visited s;
     promises := promises s; alls := alls s; jobs := jobs s; requests := requests s;
     parses := parses s; history := history s; cur := cur s |}.
Definition set_elems (f : list Element → list Element) (s : State) : State :=
  {| this := this s; objs := objs s; elems := f (elems s); visited := visited s;
     promises := promises s; alls := alls s; jobs := jobs s; requests := requests s;
     parses := parses s; history := history s; cur := cur s |}.
Definition set_visited (f : list (gmap string bool) → list (gmap string bool)) (s : State) : State :=
  {| this := this s; objs := objs s; elems := elems s; visited := f (visited s);
     promises := promises s; alls := alls s; jobs := jobs s; requests := requests s;
     parses := parses s; history := history s; cur := cur s |}.
Definition set_promises (f : list pstate → list pstate) (s : State) : State :=
  {| this := this s; objs := objs s; elems := elems s; visited := visited s;
     promises := f (promises s); alls := alls s; jobs := jobs s;
     requests := requests s; parses := parses s; history := history s; cur := cur s |}.
Definition set_alls (f : list AllRec → list AllRec) (s : State) : State :=
  {| this := this s; objs := objs s; elems := elems s; visited := visited s;
     promises := promises s; alls := f (alls s); jobs := jobs s;
     requests := requests s; parses := parses s; history := history s; cur := cur s |}.
Definition set_jobs (f : list job → list job) (s : State) : State :=
  {| this := this s; objs := objs s; elems := elems s; visited := visited s;
     promises := promises s; alls := alls s; jobs := f (jobs s);
     requests := requests s; parses := parses s; history := history s; cur := cur s |}.
Definition set_requests (f : list (nat * string) → list (nat * string)) (s : State) : State :=
  {| this := this s; objs := objs s; elems := elems s; visited := visited s;
     promises := promises s; alls := alls s; jobs := jobs s;
     requests := f (requests s); parses := parses s; history := history s;
     cur := cur s |}.
Definition set_parses (f : list string → list string) (s : State) : State :=
  {| this := this s; objs := objs s; elems := elems s; visited := visited s;
     promises := promises s; alls := alls s; jobs := jobs s; requests := requests s;
     parses := f (parses s); history := history s; cur := cur s |}.
Definition set_history (f : list History → list History) (s : State) : State :=
  {| this := this s; objs := objs s; elems := elems s; visited := visited s;
     promises := promises s; alls := alls s; jobs := jobs s; requests := requests s;
     parses := parses s; history := f (history s); cur := cur s |}.
Definition set_cur (f : option nat → option nat) (s : State) : State :=
  {| this := this s; objs := objs s; elems := elems s; visited := visited s;
     promises := promises s; alls := alls s; jobs := jobs s; requests := requests s;
     parses := parses s; history := history s; cur := f (cur s) |}.

Definition set_elements (f : gmap string nat → gmap string nat) (m : Monomers) : Monomers :=
  {| loader := loader m; attachAST := attachAST m; elements := f (elements m);
     modules := modules m; html := html m; root := root m |}.
Definition set_modules (f : gmap string value → gmap string value) (m : Monomers) : Monomers :=
  {| loader := loader m; attachAST := attachAST m; elements := elements m;
     modules := f (modules m); html := html m; root := root m |}.
Definition set_html (f : gmap string HTMLMonomer → gmap string HTMLMonomer)
    (m : Monomers) : Monomers :=
  {| loader := loader m; attachAST := attachAST m; elements := elements m;
     modules := modules m; html := f (html m); root := root m |}.
Definition set_root (r : prop HTMLMonomer) (m : Monomers) : Monomers :=
  {| loader := loader m; attachAST := attachAST m; elements := elements m;
     modules := modules m; html := html m; root := r |}.

(** ** Computations: state passing with exceptions

    A [throw] keeps the state reached so far, as a JavaScript exception
    keeps the writes made before it. *)

Inductive result (A : Type) :=
| Ok (a : A)
| Throw (e : exn).
Arguments Ok {A} a.
Arguments Throw {A} e.

Definition M (A : Type) : Type := State → result A * State.

Definition ret {A} (a : A) : M A := λ s, (Ok a, s).
Definition throw {A} (e : exn) : M A := λ s, (Throw e, s).
Definition bind {A B} (m : M A) (k : A → M B) : M B :=
  λ s, match m s with
       | (Ok a, s') => k a s'
       | (Throw e, s') => (Throw e, s')
       end.
Definition get : M State := λ s, (Ok s, s).
Definition modify (f : State → State) : M unit := λ s, (Ok tt, f s).

Declare Scope js_scope.
Delimit Scope js_scope with js.
Notation "x <- m ;; k" := (bind m (λ x, k))
  (at level 100, m at next level, right associativity) : js_scope.
Notation "m ;;; k" := (bind m (λ _, k))
  (at level 100, right associativity) : js_scope.
Open Scope js_scope.

(** [Array.prototype.forEach] with a callback that may throw. *)
Fixpoint forEach {A} (l : list A) (f : A → M unit) : M unit :=
  match l with
  | [] => ret tt
  | x :: l' => f x ;;; forEach l' f
  end.

(** A [forEach] whose callback pushes onto arrays of the enclosing
    function: the arrays are threaded as [acc]. *)
Fixpoint forEach_acc {A B} (l : list A) (f : B → A → M B) (acc : B) : M B :=
  match l with
  | [] => ret acc
  | x :: l' => acc' <- f acc x ;; forEach_acc l' f acc'
  end.

Fixpoint forEach_index {A} (l : list A) (i : nat) (f : nat → A → M unit) : M unit :=
  match l with
  | [] => ret tt
  | x :: l' => f i x ;;; forEach_index l' (S i) f
  end.

(** *** Promise operations (ECMAScript promise jobs) *)

Definition alloc_promise (st : pstate) (o : origin) : M nat :=
  λ s, (Ok (length (promises s)),
        set_history (λ h, h ++ [{| h_origin := o; h_parent := cur s;
                                   h_follows := None |}])
          (set_promises (λ ps, ps ++ [st]) s)).

Definition enqueue (j : job) : M unit :=
  modify (set_jobs (λ q, q ++ [j])).

(** Settling a pending promise queues one job per registered reaction, in
    registration order; a settled promise stays as it is. *)
Definition settle (p : nat) (o : outcome) : M unit :=
  s <- get ;;
  match promises s !! p with
  | Some (Pending rs) =>
      modify (set_promises (λ ps, <[p := Settled o]> ps)) ;;;
      forEach rs (λ r, enqueue (JReact r o))
  | _ => ret tt
  end.

(** PerformPromiseThen. *)
Definition perform_then (p : nat) (r : reaction) : M unit :=
  s <- get ;;
  match promises s !! p with
  | Some (Pending rs) => modify (set_promises (λ ps, <[p := Pending (rs ++ [r])]> ps))
  | Some (Settled o) => enqueue (JReact r o)
  | None => ret tt
  end.

(** [p.then(onFulfilled, onRejected)]; [catch] is [then] with no
    [onFulfilled]. *)
Definition then_ (p : nat) (onFulfilled : option Callback)
    (onRejected : option Catcher) : M nat :=
  t <- alloc_promise (Pending []) (OThen p onFulfilled onRejected) ;;
  perform_then p (RThen onFulfilled onRejected t) ;;;
  ret t.

(** [Promise.resolve(x)]. *)
Definition Promise_resolve (x : value) : M nat :=
  match x with
  | VPromise p => ret p
  | _ => alloc_promise (Settled (Fulfilled x)) OValue
  end.

(** The resolve function of a promise: a promise given as the value is
    followed through a job of its own. *)
Definition resolve (t : nat) (x : value) : M unit :=
  match x with
  | VPromise q =>
      if decide (q = t)
      then settle t (Rejected (JsTypeError "Chaining cycle detected for promise"))
      else enqueue (JThenable t q)
  | _ => settle t (Fulfilled x)
  end.

Definition alloc_all (a : AllRec) : M nat :=
  λ s, (Ok (length (alls s)), set_alls (λ l, l ++ [a]) s).

Definition is_Some_b {A} (o : option A) : bool :=
  match o with Some _ => true | None => false end.

Definition all_values (a : AllRec) : value :=
  VArray (map (default VUndefined) (a_values a)).

(** When every slot of a [Promise.all] is filled (its count of remaining
    elements is zero) the result promise is fulfilled with the array. *)
Definition all_check (a : nat) : M unit :=
  s <- get ;;
  match alls s !! a with
  | Some rec =>
      if forallb is_Some_b (a_values rec)
      then settle (a_target rec) (Fulfilled (all_values rec))
      else ret tt
  | None => ret tt
  end.

Definition all_store (a i : nat) (v : value) : M unit :=
  modify (set_alls (λ l,
    match l !! a with
    | Some rec => <[a := {| a_values := <[i := Some v]> (a_values rec);
                            a_target := a_target rec;
                            a_inputs := a_inputs rec |}]> l
    | None => l
    end)).

Definition all_input (a : nat) (p : nat) : M unit :=
  modify (set_alls (λ l,
    match l !! a with
    | Some rec => <[a := {| a_values := a_values rec;
                            a_target := a_target rec;
                            a_inputs := a_inputs rec ++ [p] |}]> l
    | None => l
    end)).

(** [Promise.all(l)]: the result promise, with one reaction per entry. *)
Definition Promise_all (l : list value) : M nat :=
  s <- get ;;
  c <- alloc_promise (Pending []) (OAll (length (alls s))) ;;
  a <- alloc_all {| a_values := replicate (length l) None; a_target := c;
                    a_inputs := [] |} ;;
  forEach_index l 0 (λ i x,
    nextPromise <- Promise_resolve x ;;
    all_input a nextPromise ;;;
    perform_then nextPromise (RAll a i)) ;;;
  all_check a ;;;
  ret c.

(** *** Heap operations *)

Definition alloc_obj (o : Obj) : M nat :=
  λ s, (Ok (length (objs s)), set_objs (λ l, l ++ [o]) s).

Definition alloc_element (e : Element) : M nat :=
  λ s, (Ok (length (elems s)), set_elems (λ l, l ++ [e]) s).

Definition alloc_visited : M nat :=
  λ s, (Ok (length (visited s)), set_visited (λ l, l ++ [∅]) s).

(** Reading the fields of [v]: a TypeError when [v] is not an object. *)
Definition read_obj (v : value) : M Obj :=
  s <- get ;;
  match v with
  | VObj r =>
      match objs s !! r with
      | Some o => ret o
      | None => throw (JsTypeError "dangling reference")
      end
  | _ => throw (JsTypeError "Cannot read property of undefined")
  end.

(** An assignment [v.field = ...], given as the update of the object. *)
Definition write_obj (v : value) (f : Obj → Obj) : M unit :=
  o <- read_obj v ;;
  match v with
  | VObj r => modify (set_objs (λ l, <[r := f o]> l))
  | _ => ret tt
  end.

Definition with_imports (l : list value) (o : Obj) : Obj :=
  {| o_elements := o_elements o; o_modules := o_modules o; o_imports := Some l;
     o_href := o_href o; o_html := o_html o |}.
Definition with_href (h : string) (o : Obj) : Obj :=
  {| o_elements := o_elements o; o_modules := o_modules o; o_imports := o_imports o;
     o_href := Some h; o_html := o_html o |}.
Definition with_html (p : Parsed) (o : Obj) : Obj :=
  {| o_elements := o_elements o; o_modules := o_modules o; o_imports := o_imports o;
     o_href := o_href o; o_html := Some p |}.

(** [element.is] and [module.is]. *)
Definition element_is (element : value) : M string :=
  s <- get ;;
  match element with
  | VElement r =>
      match elems s !! r with
      | Some e => ret (e_is e)
      | None => throw (JsTypeError "dangling reference")
      end
  | _ => throw (JsTypeError "Cannot read property 'is' of undefined")
  end.

Definition module_is (module : value) : M string :=
  match module with
  | VModule name => ret name
  | _ => throw (JsTypeError "Cannot read property 'is' of undefined")
  end.

(** [this] inside a function expression. The file is in strict mode: in a
    callback that [forEach] calls and that was not given [.bind(this)],
    [this] is [undefined] and reading a field of it throws. *)
Definition this_ (bound : bool) (field : string) : M Monomers :=
  if bound then s <- get ;; ret (this s)
  else throw (JsTypeError ("Cannot read property '" +:+ field +:+ "' of undefined")).

(** [loadedHrefs[href]] as a condition, and [loadedHrefs[href] = true]. *)
Definition loadedHrefs_get (loadedHrefs : nat) (href : string) : M bool :=
  s <- get ;;
  match visited s !! loadedHrefs with
  | Some d =>
      ret match js_get d href with
          | Own b => b
          | Builtin => true
          | Undefined => false
          end
  | None => throw (JsTypeError "dangling reference")
  end.

Definition loadedHrefs_set (loadedHrefs : nat) (href : string) : M unit :=
  modify (set_visited (λ l,
    match l !! loadedHrefs with
    | Some d => <[loadedHrefs := <[href := true]> d]> l
    | None => l
    end)).

(** [this.loader.request(url)]: a pending promise that the loader settles
    later; the call is logged. *)
Definition loader_request (url : string) : M nat :=
  p <- alloc_promise (Pending []) ORequest ;;
  modify (set_requests (λ l, l ++ [(p, url)])) ;;;
  ret p.

(** ** The engine *)

Section Engine.

(** The collaborators: [importParse] and [jsParse] return their result or
    throw, [url.resolve] is a function of the base and the link. *)
Variable importParse : string → exn + Parsed.
Variable jsParse : string → bool → exn + ParsedJs.
Variable url_resolve : string → string → string.

(** The objects a [jsParse] result consists of are fresh: one element
    monomer per entry, then the result object itself. *)
Definition alloc_ParsedJs (r : ParsedJs) : M value :=
  es <- match js_elements r with
        | Some names =>
            l <- forEach_acc names (λ acc name,
                   e <- alloc_element {| e_is := name; domModule := None |} ;;
                   ret (acc ++ [VElement e])) [] ;;
            ret (Some l)
        | None => ret None
        end ;;
  o <- alloc_obj {| o_elements := es; o_modules := map VModule <$> js_modules r;
                    o_imports := None; o_href := None; o_html := None |} ;;
  ret (VObj o).

(** Lines 167-173: the callback over [parsedJs.elements], bound to the
    instance. *)
Definition register_element (element : value) : M unit :=
  is_ <- element_is element ;;
  t <- this_ true "elements" ;;
  if js_in is_ (elements t)
  then throw (JsError ("Duplicate element definition: " +:+ is_))
  else match element with
       | VElement r => modify (set_this (set_elements (λ m, <[is_ := r]> m)))
       | _ => ret tt
       end.

(** Lines 176-181: the callback over [parsedJs.modules]; it is passed to
    [forEach] as it is, without [.bind(this)]. *)
Definition register_module (module : value) : M unit :=
  is_ <- module_is module ;;
  t <- this_ false "modules" ;;
  (if js_in is_ (modules t)
   then throw (JsError ("Duplicate module definition: " +:+ is_))
   else ret tt) ;;;
  modify (set_this (set_modules (λ m, <[is_ := module]> m))).

(** [_processScript(script, href)], lines 161-197. It returns the parsed
    result itself for an inline script and a promise otherwise. *)
Definition _processScript (script : Node) (href : string) : M value :=
  let src := getAttribute script "src" in
  if negb (truthy_str src) then
    body <- match childNodes script with
            | v :: _ => ret v
            | [] => throw (JsTypeError "Cannot read property 'value' of undefined")
            end ;;
    s <- get ;;
    r <- match jsParse body (attachAST (this s)) with
         | inr r => ret r
         | inl e => throw e
         end ;;
    parsedJs <- alloc_ParsedJs r ;;
    o <- read_obj parsedJs ;;
    match o_elements o with
    | Some es => forEach es register_element
    | None => ret tt
    end ;;;
    match o_modules o with
    | Some ms => forEach ms register_module
    | None => ret tt
    end ;;;
    ret parsedJs
  else
    s <- get ;;
    if loader (this s) then
      let resolvedSrc := url_resolve href (default "" src) in
      p <- loader_request resolvedSrc ;;
      t <- then_ p (Some (cb_script script href)) None ;;
      c <- then_ t None (Some cb_rethrow) ;;
      ret (VPromise c)
    else
      p <- Promise_resolve (VObj EMPTY_METADATA) ;;
      ret (VPromise p).

(** [_processScripts(scripts, href)], lines 151-159. *)
Definition _processScripts (scripts : list Node) (href : string) : M nat :=
  scriptPromises <- forEach_acc scripts (λ scriptPromises script,
      x <- _processScript script href ;;
      ret (scriptPromises ++ [x])) [] ;;
  all <- Promise_all scriptPromises ;;
  then_ all (Some cb_reduce) None.

(** The callback of [parsed.import.forEach], lines 127-137, on the two
    arrays it pushes onto. *)
Definition import_link (href : string) (acc : list string * list value) (link : Node)
    : M (list string * list value) :=
  let '(depHrefs, depsLoaded) := acc in
  let linkurl := getAttribute link "href" in
  if truthy_str linkurl then
    let resolvedUrl := url_resolve href (default "" linkurl) in
    p <- loader_request resolvedUrl ;;
    dep <- then_ p (Some (cb_import resolvedUrl)) None ;;
    ret (depHrefs ++ [resolvedUrl], depsLoaded ++ [VPromise dep])
  else ret acc.

(** [_parseHTML(htmlImport, href)], lines 104-149. The result is what
    [this.html[href]] reads as. *)
Definition _parseHTML (htmlImport href : string) : M (prop HTMLMonomer) :=
  s <- get ;;
  if js_in href (html (this s)) then ret (js_get (html (this s)) href)
  else
    metadataLoaded0 <- Promise_resolve (VObj EMPTY_METADATA) ;;
    modify (set_parses (λ l, l ++ [href])) ;;;
    parsed <- match importParse htmlImport with
              | inr p => ret p
              | inl err => throw err
              end ;;
    htmlLoaded <- Promise_resolve (VParsed parsed) ;;
    md <- match p_script parsed with
          | Some scripts =>
              m <- _processScripts scripts href ;;
              ret (m, [VPromise m])
          | None => ret (metadataLoaded0, [])
          end ;;
    s1 <- get ;;
    deps <- (if loader (this s1)
             then forEach_acc (p_import parsed) (import_link href) ([], snd md)
             else ret ([], snd md)) ;;
    all <- Promise_all (snd deps) ;;
    t <- then_ all (Some (cb_depHrefs (fst deps))) None ;;
    c <- then_ t None (Some cb_rethrow) ;;
    let m := {| href := href; htmlLoaded := htmlLoaded;
                metadataLoaded := fst md; depsLoaded := c |} in
    modify (set_this (set_html (λ h, <[href := m]> h))) ;;;
    ret (Own m).

(** [_metadataTree(htmlMonomer, loadedHrefs)], lines 207-209: the [then]
    on [htmlMonomer.metadataLoaded]; the rest is in the callbacks. *)
Definition _metadataTree (htmlMonomer : prop HTMLMonomer) (loadedHrefs : nat) : M nat :=
  match htmlMonomer with
  | Own m => then_ (metadataLoaded m) (Some (cb_tree_metadata m loadedHrefs)) None
  | Builtin => throw (JsTypeError "Cannot read property 'then' of undefined")
  | Undefined => throw (JsTypeError "Cannot read property 'metadataLoaded' of undefined")
  end.

(** The callback of [hrefs.forEach], lines 212-226, on [depMetadata]. *)
Definition tree_child (loadedHrefs : nat) (depMetadata : list nat) (href : string)
    : M (list nat) :=
  seen <- loadedHrefs_get loadedHrefs href ;;
  if negb seen then
    loadedHrefs_set loadedHrefs href ;;;
    p0 <- Promise_resolve (VBool true) ;;
    let metadataPromise := default p0 (last depMetadata) in
    q <- then_ metadataPromise (Some (cb_tree_next href loadedHrefs)) None ;;
    ret (depMetadata ++ [q])
  else
    o <- alloc_obj empty_object ;;
    p <- Promise_resolve (VObj o) ;;
    ret (depMetadata ++ [p]).

(** [attachDomModule(parsedHtml, element)] on the heap. With no dom-module
    in the document the loop body, and so [element.is], is never evaluated. *)
Definition attachDomModule_heap (parsedHtml : Parsed) (element : value) : M unit :=
  match p_dom_module parsedHtml with
  | [] => ret tt
  | _ :: _ =>
      element_is element ;;;
      match element with
      | VElement r =>
          modify (set_elems (λ l,
            match l !! r with
            | Some e => <[r := attachDomModule parsedHtml e]> l
            | None => l
            end))
      | _ => ret tt
      end
  end.

(** The body of each function expression, applied to the value its promise
    was fulfilled with. Argument shapes the program never produces end in
    the TypeError of the first member access. *)
Definition call (cb : Callback) (arg : value) : M value :=
  match cb with
  | cb_import resolvedUrl =>
      match arg with
      | VString content =>
          n <- _parseHTML content resolvedUrl ;;
          ret match n with
              | Own m => VPromise (depsLoaded m)
              | _ => VUndefined
              end
      | _ => throw (JsTypeError "content is not text")
      end
  | cb_depHrefs depHrefs => ret (VStrings depHrefs)
  | cb_reduce =>
      match arg with
      | VArray metadataList =>
          forEach_acc metadataList (λ m1 m2,
            o1 <- read_obj m1 ;;
            o2 <- read_obj m2 ;;
            match reduceMetadata o1 o2 with
            | inr o => r <- alloc_obj o ;; ret (VObj r)
            | inl e => throw e
            end) (VObj EMPTY_METADATA)
      | _ => throw (JsTypeError "metadataList.reduce is not a function")
      end
  | cb_script script href =>
      match arg with
      | VString content =>
          let resolvedScript :=
            {| attrs := removeAttribute_attrs (attrs script) "src";
               childNodes := [content] |} in
          _processScript resolvedScript href
      | _ => throw (JsTypeError "content is not text")
      end
  | cb_tree_metadata htmlMonomer loadedHrefs =>
      p <- then_ (depsLoaded htmlMonomer)
                 (Some (cb_tree_deps htmlMonomer loadedHrefs arg)) None ;;
      ret (VPromise p)
  | cb_tree_deps htmlMonomer loadedHrefs metadata =>
      match arg with
      | VStrings hrefs =>
          depMetadata <- forEach_acc hrefs (tree_child loadedHrefs) [] ;;
          all <- Promise_all (map VPromise depMetadata) ;;
          p <- then_ all (Some (cb_tree_imports htmlMonomer metadata)) None ;;
          ret (VPromise p)
      | _ => throw (JsTypeError "hrefs.forEach is not a function")
      end
  | cb_tree_next href loadedHrefs =>
      s <- get ;;
      p <- _metadataTree (js_get (html (this s)) href) loadedHrefs ;;
      ret (VPromise p)
  | cb_tree_imports htmlMonomer metadata =>
      match arg with
      | VArray importMetadata =>
          write_obj metadata (with_imports importMetadata) ;;;
          write_obj metadata (with_href (href htmlMonomer)) ;;;
          p <- then_ (htmlLoaded htmlMonomer) (Some (cb_tree_html metadata)) None ;;
          ret (VPromise p)
      | _ => throw (JsTypeError "importMetadata is not an array")
      end
  | cb_tree_html metadata =>
      match arg with
      | VParsed parsedHtml =>
          write_obj metadata (with_html parsedHtml) ;;;
          o <- read_obj metadata ;;
          match o_elements o with
          | Some es => forEach es (attachDomModule_heap parsedHtml)
          | None => ret tt
          end ;;;
          ret metadata
      | _ => throw (JsTypeError "parsedHtml is not a parsed import")
      end
  end.

Definition call_catch (cb : Catcher) (err : exn) : M value :=
  match cb with
  | cb_rethrow => throw err
  end.

(** *** Running the job queue *)

(** Runs [m] where no exception can escape: a reaction job. *)
Definition exec (m : M unit) (s : State) : State := snd (m s).

Definition set_follows (q : nat) (h : History) : History :=
  {| h_origin := h_origin h; h_parent := h_parent h;
     h_follows := match h_follows h with Some q0 => Some q0 | None => Some q end |}.

(** Bookkeeping: the handler of [target] returned [x]. *)
Definition note_returned (target : nat) (x : value) : M unit :=
  match x with
  | VPromise q => modify (set_history (λ h, alter (set_follows q) target h))
  | _ => ret tt
  end.

(** A handler's completion settles the derived promise: its result
    resolves it, its exception rejects it. *)
Definition complete (target : nat) (m : M value) : M unit :=
  λ s, match m (set_cur (λ _, Some target) s) with
       | (Ok x, s') => (note_returned target x ;;; resolve target x) s'
       | (Throw e, s') => settle target (Rejected e) s'
       end.

Definition run_job (j : job) : M unit :=
  match j with
  | JReact (RThen onFulfilled onRejected target) (Fulfilled v) =>
      match onFulfilled with
      | Some cb => complete target (call cb v)
      | None => settle target (Fulfilled v)
      end
  | JReact (RThen onFulfilled onRejected target) (Rejected e) =>
      match onRejected with
      | Some cb => complete target (call_catch cb e)
      | None => settle target (Rejected e)
      end
  | JReact (RAdopt target) (Fulfilled v) => resolve target v
  | JReact (RAdopt target) (Rejected e) => settle target (Rejected e)
  | JReact (RAll a i) (Fulfilled v) => all_store a i v ;;; all_check a
  | JReact (RAll a i) (Rejected e) =>
      s <- get ;;
      match alls s !! a with
      | Some rec => settle (a_target rec) (Rejected e)
      | None => ret tt
      end
  | JThenable target thenable => perform_then thenable (RAdopt target)
  end.

(** One turn of the job queue. *)
Definition step (s : State) : option State :=
  match jobs s with
  | [] => None
  | j :: rest => Some (set_cur (λ _, None) (exec (run_job j) (set_jobs (λ _, rest) s)))
  end.

(** The loader settles the promise of one of its outstanding requests. *)
Definition deliver (p : nat) (o : string + exn) (s : State) : option State :=
  match promises s !! p with
  | Some (Pending _) =>
      if bool_decide (p ∈ (requests s).*1)
      then Some (exec (settle p match o with
                                | inl content => Fulfilled (VString content)
                                | inr e => Rejected e
                                end) s)
      else None
  | _ => None
  end.

(** The module before any instance exists: [EMPTY_METADATA] is on the heap. *)
Definition initial (loader attachAST : bool) : State :=
  {| this := {| loader := loader; attachAST := attachAST; elements := ∅;
                modules := ∅; html := ∅; root := Undefined |};
     objs := [metadata_object [] []]; elems := []; visited := [];
     promises := []; alls := []; jobs := []; requests := []; parses := [];
     history := []; cur := None |}.

(** [new Monomers(htmlImport, attachAST, href, loader)], lines 78-96: the
    state after the constructor, or the exception it throws. *)
Definition Monomers_new (htmlImport : string) (attachAST : bool) (href : string)
    (loader : bool) : result unit * State :=
  (r <- _parseHTML htmlImport href ;;
   modify (set_this (set_root r))) (initial loader attachAST).

(** [metadataTree()], lines 203-205. *)
Definition metadataTree : M nat :=
  s <- get ;;
  loadedHrefs <- alloc_visited ;;
  _metadataTree (root (this s)) loadedHrefs.

End Engine.

(** ** Runs *)

Section Runs.

Variable importParse : string → exn + Parsed.
Variable jsParse : string → bool → exn + ParsedJs.
Variable url_resolve : string → string → string.

(** One transition of a running instance: the job queue takes a turn, or
    the loader settles one of its outstanding requests, with any text or
    any failure. *)
Inductive transition (s s' : State) : Prop :=
| t_job : step importParse jsParse url_resolve s = Some s' → transition s s'
| t_loader p o : deliver p o s = Some s' → transition s s'.

Definition reaches : State → State → Prop := rtc transition.

(** Runs the job queue until it is empty, for at most [fuel] jobs. *)
Fixpoint drain (fuel : nat) (s : State) : State :=
  match fuel with
  | 0 => s
  | S n => match step importParse jsParse url_resolve s with
           | Some s' => drain n s'
           | None => s
           end
  end.

(** The loader answers its [k]-th request (in call order) with [o]; the
    queue then runs dry. *)
Definition answer (fuel k : nat) (o : string + exn) (s : State) : State :=
  match requests s !! k with
  | Some (p, _) =>
      match deliver p o s with
      | Some s' => drain fuel s'
      | None => s
      end
  | None => s
  end.

End Runs.

(** Nothing is left to happen: no job is queued and the loader has settled
    every request. *)
Definition is_pending (s : State) (p : nat) : bool :=
  match promises s !! p with
  | Some (Pending _) => true
  | _ => false
  end.

Definition quiescent (s : State) : Prop :=
  jobs s = [] ∧ Forall (λ r, is_pending s r.1 = false) (requests s).

(** ** What persists along a run *)

Definition fulfilled (s : State) (p : nat) : Prop :=
  ∃ v, promises s !! p = Some (Settled (Fulfilled v)).

Definition rejected (s : State) (p : nat) : Prop :=
  ∃ e, promises s !! p = Some (Settled (Rejected e)).

Definition seen (d : gmap string bool) (href : string) : bool :=
  match js_get d href with
  | Own b => b
  | Builtin => true
  | Undefined => false
  end.

(** How often [k] occurs in a log. *)
Definition occurrences (k : string) (l : list string) : nat :=
  length (filter (λ x, x = k) l).

(** [ext s s']: [s'] is a later state than [s]. Settled promises, the
    origin of promises, registered documents and elements, the lists of an
    object, marks in a [loadedHrefs] dictionary and logged requests all
    stay; a registered address is not parsed again. *)
Record ext (s s' : State) : Prop := {
  ext_settled : ∀ p o, promises s !! p = Some (Settled o) →
                       promises s' !! p = Some (Settled o);
  ext_promises : (length (promises s) ≤ length (promises s'))%nat;
  ext_history : ∀ p h, history s !! p = Some h →
                  ∃ h', history s' !! p = Some h' ∧ h_origin h' = h_origin h ∧
                        h_parent h' = h_parent h ∧
                        (∀ q, h_follows h = Some q → h_follows h' = Some q);
  ext_html : ∀ k m, html (this s) !! k = Some m → html (this s') !! k = Some m;
  ext_parses : ∀ k, js_in k (html (this s)) = true →
                 occurrences k (parses s') = occurrences k (parses s);
  ext_loader : loader (this s') = loader (this s);
  ext_attachAST : attachAST (this s') = attachAST (this s);
  ext_elements : ∀ k, js_in k (elements (this s)) = true →
                      js_in k (elements (this s')) = true;
  ext_modules : modules (this s') = modules (this s);
  ext_objs : ∀ r o, objs s !! r = Some o →
               ∃ o', objs s' !! r = Some o' ∧ o_elements o' = o_elements o ∧
                     o_modules o' = o_modules o;
  ext_elems : ∀ r e, elems s !! r = Some e →
               ∃ e', elems s' !! r = Some e' ∧ e_is e' = e_is e;
  ext_visited : ∀ l d, visited s !! l = Some d →
               ∃ d', visited s' !! l = Some d' ∧
                     ∀ k, seen d k = true → seen d' k = true;
  ext_requests : requests s `prefix_of` requests s';
  ext_alls : ∀ a rec, alls s !! a = Some rec →
               ∃ rec', alls s' !! a = Some rec' ∧ a_target rec' = a_target rec ∧
                       a_inputs rec `prefix_of` a_inputs rec'
}.

(** Hoare triples over [M]. *)
Definition hoare {A} (P : State → Prop) (m : M A) (Q : result A → State → Prop) : Prop :=
  ∀ s, P s → Q (m s).1 (m s).2.

(** [m] relates every state to the state it leaves. *)
Definition keeps (R : relation State) {A} (m : M A) : Prop := ∀ s, R s (m s).2.

Definition preserves {A} (m : M A) : Prop := keeps ext m.

(** The table of documents and the parse log are as they were. *)
Definition same_docs (s s' : State) : Prop :=
  html (this s') = html (this s) ∧ parses s' = parses s.

(** ** Example sites

    A site is a table from a document's text to what [importParse] makes
    of it, with a table from a script's text to what [jsParse] makes of
    it; in the examples the text of a document is its address, and links
    are absolute. *)

Fixpoint assoc {A} (table : list (string * A)) (key : string) : option A :=
  match table with
  | [] => None
  | (k, x) :: rest => if decide (k = key) then Some x else assoc rest key
  end.

Definition parser_of {A} (table : list (string * A)) (text : string) : exn + A :=
  match assoc table text with
  | Some x => inr x
  | None => inl (Opaque "syntax error")
  end.

Definition absolute (base link : string) : string := link.

Definition link_to (address : string) : Node :=
  {| attrs := [{| attr_name := "rel"; attr_value := "import" |};
               {| attr_name := "href"; attr_value := address |}];
     childNodes := [] |}.

Definition inline_script (body : string) : Node :=
  {| attrs := []; childNodes := [body] |}.

Definition page (scripts imports : list string) : Parsed :=
  {| p_script := Some (inline_script <$> scripts); p_import := link_to <$> imports;
     p_dom_module := [] |}.

(** A script that defines the element [x-<body>] and no module. *)
Definition one_element (body : string) : string * ParsedJs :=
  (body, {| js_elements := Some ["x-" +:+ body]; js_modules := Some [] |}).

(** With this site the loader answers every request with the address
    itself. *)
Definition echo (s : State) (k : nat) : string + exn :=
  match requests s !! k with
  | Some (_, url) => inl url
  | None => inr (Opaque "no such request")
  end.

Section Examples.

Variable docs : list (string * Parsed).
Variable scripts : list (string * ParsedJs).

(** The constructor on the document at [address], with a loader, then the
    job queue until it is empty. *)
Definition open_site (address : string) : State :=
  drain (parser_of docs) (λ t _, parser_of scripts t) absolute 1000
    (Monomers_new (parser_of docs) (λ t _, parser_of scripts t) absolute
       address false address true).2.

(** The loader answers the requests [ks], in this order. *)
Fixpoint answers (ks : list nat) (s : State) : State :=
  match ks with
  | [] => s
  | k :: rest =>
      answers rest
        (answer (parser_of docs) (λ t _, parser_of scripts t) absolute 1000 k (echo s k) s)
  end.

(** [metadataTree()], then the job queue until it is empty: the promise
    returned and the state. *)
Definition build_tree (s : State) : option nat * State :=
  match metadataTree s with
  | (Ok t, s') =>
      (Some t, drain (parser_of docs) (λ t _, parser_of scripts t) absolute 1000 s')
  | (Throw _, s') => (None, s')
  end.

End Examples.

(** Two documents that import each other. *)
Definition cycle_site : list (string * Parsed) :=
  [("A", page [] ["B"]); ("B", page [] ["A"])].

(** A document that names the same address in two links. *)
Definition twice_site : list (string * Parsed) :=
  [("A", page ["a"] ["B"; "B"]); ("B", page ["b"] [])].

(** [A] imports [B], [B] again and [C]; [B] imports [E], which imports [D];
    [C] imports [D] too. *)
Definition overlap_site : list (string * Parsed) :=
  [("A", page ["a"] ["B"; "B"; "C"]); ("B", page ["b"] ["E"]);
   ("C", page ["c"] ["D"]); ("E", page ["e"] ["D"]); ("D", page ["d"] [])].

(** As [overlap_site], without the second link to [B]. *)
Definition serial_site : list (string * Parsed) :=
  [("A", page ["a"] ["B"; "C"]); ("B", page ["b"] ["E"]);
   ("C", page ["c"] ["D"]); ("E", page ["e"] ["D"]); ("D", page ["d"] [])].

(** [A] imports [B] and [C]; [B] imports [C] twice. *)
Definition visited_site : list (string * Parsed) :=
  [("A", page ["a"] ["B"; "C"]); ("B", page ["b"] ["C"; "C"]); ("C", page ["c"] [])].

Definition element_scripts : list (string * ParsedJs) :=
  one_element <$> ["a"; "b"; "c"; "d"; "e"].

(** One inline script whose parse result carries modules only. *)
Definition modules_only_site : list (string * Parsed) := [("A", page ["m"] [])].
Definition modules_only_scripts : list (string * ParsedJs) :=
  [("m", {| js_elements := None; js_modules := Some [] |})].

(** [A] names [B] in two links; the one script of [B] is rejected by
    [jsParse] (no script is known to [parser_of []]). *)
Definition failing_site : list (string * Parsed) :=
  [("A", page [] ["B"; "B"]); ("B", page ["bad"] [])].

(** Two documents without scripts: [A] imports [B]. *)
Definition scriptless_site : list (string * Parsed) :=
  [("A", page [] ["B"]); ("B", page [] [])].

(** Promise [p] has its history at index [p]. *)
Definition aligned (s : State) : Prop := length (history s) = length (promises s).

Definition stays_aligned (s s' : State) : Prop := aligned s → aligned s'.

(** Nothing is taken from the heap of objects or from the job queue, and
    no object is written. *)
Definition grows (s s' : State) : Prop :=
  objs s `prefix_of` objs s' ∧ jobs s `prefix_of` jobs s'.

(** [m] never throws. *)
Definition total {A} (m : M A) : Prop := ∀ s, ∃ a, (m s).1 = Ok a.

(** ** The imports of a tree node, as the loop of lines 212-226 decides
    them: for each address of [hrefs], in order, whether its subtree is
    built ([true]) or the empty placeholder stands for it, with [d] the
    [loadedHrefs] dictionary when the loop starts. *)
Fixpoint children_kinds (d : gmap string bool) (hrefs : list string) : list bool :=
  match hrefs with
  | [] => []
  | h :: rest =>
      if seen d h then false :: children_kinds d rest
      else true :: children_kinds (<[h := true]> d) rest
  end.

Fixpoint mark_all (d : gmap string bool) (hrefs : list string) : gmap string bool :=
  match hrefs with
  | [] => d
  | h :: rest => mark_all (if seen d h then d else <[h := true]> d) rest
  end.

(** Promise [p] stands for the subtree of [href]: it was made by
    [.then(function() { return this._metadataTree(this.html[href], ...) })]. *)
Definition is_build (s : State) (loadedHrefs : nat) (href : string) (p : nat) : Prop :=
  ∃ h src, history s !! p = Some h ∧
           h_origin h = OThen src (Some (cb_tree_next href loadedHrefs)) None.

(** Promise [p] is [Promise.resolve({})]: fulfilled with an object that has
    no field. *)
Definition is_placeholder (s : State) (p : nat) : Prop :=
  ∃ o, promises s !! p = Some (Settled (Fulfilled (VObj o))) ∧
       objs s !! o = Some empty_object.

Definition is_child (s : State) (loadedHrefs : nat) (href : string) (build : bool)
    (p : nat) : Prop :=
  if build then is_build s loadedHrefs href p else is_placeholder s p.

(** The addresses [import_link] pushes for a list of links. *)
Definition link_target (url_resolve : string → string → string) (href : string)
    (link : Node) : option string :=
  if truthy_str (getAttribute link "href")
  then Some (url_resolve href (default "" (getAttribute link "href")))
  else None.


(** A dom-module node with the given [id] and further attributes. *)
Definition dom_module (id : string) (more : list Attr) : Node :=
  {| attrs := {| attr_name := "id"; attr_value := id |} :: more; childNodes := [] |}.


(** On an instance without loader the log of requests stays as it is. *)
Definition quiet (s s' : State) : Prop :=
  loader (this s) = false → loader (this s') = false ∧ requests s' = requests s.

(** The element monomer [jsParse] reports under the name [name]. *)
Definition parsed_element (name : string) : Element :=
  {| e_is := name; domModule := None |}.


(** ** More example inputs *)

(** A parser that rejects every text. *)
Definition no_document : string → exn + Parsed := parser_of [].
Definition no_script : string → bool → exn + ParsedJs := λ t _, parser_of [] t.

(** [<script src="a.js"></script>]. *)
Definition external_script : Node :=
  {| attrs := [{| attr_name := "src"; attr_value := "a.js" |}]; childNodes := [] |}.

(** A document whose only script is [<script></script>]. *)
Definition empty_script_document : Parsed :=
  {| p_script := Some [{| attrs := []; childNodes := [] |}]; p_import := [];
     p_dom_module := [] |}.

(** A document without [script] property that links to [B]. *)
Definition linking_document : Parsed :=
  {| p_script := None; p_import := [link_to "B"]; p_dom_module := [] |}.

(** A script that defines [x-a] twice. *)
Definition twice_defined : ParsedJs :=
  {| js_elements := Some ["x-a"; "x-a"]; js_modules := None |}.

(** An instance with one outstanding request, and one on which
    [metadataTree] has made its dictionary. *)
Definition awaiting : State :=
  (loader_request "B" (initial true false)).2.
Definition in_tree : State :=
  (Promise_resolve (VBool true) (alloc_visited (initial true false)).2).2.

(** The heap after one script that defined the element at reference 0 and
    the module [m]. *)
Definition one_script_heap : State :=
  set_objs (λ l, l ++ [metadata_object [VElement 0] [VModule "m"]]) (initial true false).

(** The same heap with the element monomer [x-foo] at reference 0, and a
    document that has a dom-module for it. *)
Definition one_element_heap : State :=
  set_elems (λ l, l ++ [parsed_element "x-foo"]) one_script_heap.
Definition dom_module_document : Parsed :=
  {| p_script := None; p_import := []; p_dom_module := [dom_module "x-foo" []] |}.

(** A script that defines [x-a] and [x-b]. *)
Definition two_elements : ParsedJs :=
  {| js_elements := Some ["x-a"; "x-b"]; js_modules := None |}.


(** ** Runs with calls of [metadataTree], and what the tree callbacks are
    bound to *)

(** The address an external script is fetched from. *)
Definition script_target (url_resolve : string → string → string) (href : string)
    (script : Node) : option string :=
  if truthy_str (getAttribute script "src")
  then Some (url_resolve href (default "" (getAttribute script "src")))
  else None.

(** Reaction [r] is registered on promise [q] and has not run: it is among
    the reactions of [q] while [q] is pending, and its job, with the
    outcome of [q], is in the queue once [q] is settled. *)
Definition registered (s : State) (q : nat) (r : reaction) : Prop :=
  match promises s !! q with
  | Some (Pending rs) => r ∈ rs
  | Some (Settled o) => JReact r o ∈ jobs s
  | None => False
  end.

Section TreeRuns.

Variable importParse : string → exn + Parsed.
Variable jsParse : string → bool → exn + ParsedJs.
Variable url_resolve : string → string → string.

(** One transition of an instance in use: a turn of the job queue, an
    answer of the loader, or a call of [metadataTree()] by the user. *)
Inductive tree_transition (s s' : State) : Prop :=
| tt_step : transition importParse jsParse url_resolve s s' → tree_transition s s'
| tt_tree t : metadataTree s = (Ok t, s') → tree_transition s s'.

Definition tree_run : State → State → Prop := rtc tree_transition.

End TreeRuns.

(** [m] is a node of the table of documents. *)
Definition node (s : State) (m : HTMLMonomer) : Prop :=
  ∃ k, html (this s) !! k = Some m.

(** [v] is the resolved aggregate of the document [m]: what its
    [metadataLoaded] was fulfilled with. *)
Definition aggregate_of (s : State) (m : HTMLMonomer) (v : value) : Prop :=
  node s m ∧ promises s !! metadataLoaded m = Some (Settled (Fulfilled v)).

(** What a callback of the tree builder that waits on promise [q] closes
    over: a node of the table, the promise of that node it waits on, and
    as [metadata] the resolved aggregate of that same node. *)
Definition tree_reaction_ok (s : State) (q : nat) (f : Callback) : Prop :=
  match f with
  | cb_tree_metadata m _ => node s m ∧ q = metadataLoaded m
  | cb_tree_deps m _ v => aggregate_of s m v ∧ q = depsLoaded m
  | cb_tree_imports m v => aggregate_of s m v
  | cb_tree_html v => ∃ m, aggregate_of s m v ∧ q = htmlLoaded m
  | _ => True
  end.

(** The same for a queued job of the callback, [o] being the outcome it is
    run with. *)
Definition tree_job_ok (s : State) (f : Callback) (o : outcome) : Prop :=
  match f with
  | cb_tree_metadata m _ =>
      node s m ∧ promises s !! metadataLoaded m = Some (Settled o)
  | cb_tree_deps m _ v =>
      aggregate_of s m v ∧ promises s !! depsLoaded m = Some (Settled o)
  | cb_tree_imports m v => aggregate_of s m v
  | cb_tree_html v =>
      ∃ m, aggregate_of s m v ∧ promises s !! htmlLoaded m = Some (Settled o)
  | _ => True
  end.

Definition tree_inv (s : State) : Prop :=
  (∀ q rs f r t, promises s !! q = Some (Pending rs) → RThen (Some f) r t ∈ rs →
                 tree_reaction_ok s q f)
  ∧ (∀ f r t o, JReact (RThen (Some f) r t) o ∈ jobs s → tree_job_ok s f o)
  ∧ (∀ m, root (this s) = Own m → node s m).

Definition keeps_tree_inv (s s' : State) : Prop := tree_inv s → tree_inv s'.

(** Settled promises and registered documents stay. *)
Definition stable (s s' : State) : Prop :=
  (∀ p o, promises s !! p = Some (Settled o) → promises s' !! p = Some (Settled o))
  ∧ (∀ k m, html (this s) !! k = Some m → html (this s') !! k = Some m).

(** The parse log, the loader's log and flag, the settled promises are as
    they were. *)
Definition same_parses (s s' : State) : Prop := parses s' = parses s.

Definition same_requests (s s' : State) : Prop :=
  requests s' = requests s ∧ loader (this s') = loader (this s).

Definition settled_stay (s s' : State) : Prop :=
  ∀ p o, promises s !! p = Some (Settled o) → promises s' !! p = Some (Settled o).

Definition same_alls (s s' : State) : Prop := alls s' = alls s.

(** ** Documents with dom-modules *)

(** One document whose script defines [x-a], with a dom-module for [x-b]
    and two for [x-a]. *)
Definition bound_site : list (string * Parsed) :=
  [("A", {| p_script := Some [inline_script "a"]; p_import := [];
            p_dom_module :=
              [dom_module "x-b" []; dom_module "x-a" [];
               dom_module "x-a" [{| attr_name := "assetpath"; attr_value := "/" |}]] |})].

(** One document with two scripts and the dom-module of [x-a]: the parse
    result of the first script has no [elements] property, the second
    defines [x-a]. *)
Definition aborted_site : list (string * Parsed) :=
  [("A", {| p_script := Some [inline_script "m"; inline_script "a"]; p_import := [];
            p_dom_module := [dom_module "x-a" []] |})].

Definition aborted_scripts : list (string * ParsedJs) :=
  ("m", {| js_elements := None; js_modules := Some [] |}) :: element_scripts.


(** * Properties *)

(** ** Stepping through computations *)

Lemma bind_ok {A B} (m : M A) (k : A → M B) s a s' :
  m s = (Ok a, s') → bind m k s = k a s'.
Proof. unfold bind. by intros ->. Qed.

Lemma bind_throw {A B} (m : M A) (k : A → M B) s e s' :
  m s = (Throw e, s') → bind m k s = (Throw e, s').
Proof. unfold bind. by intros ->. Qed.

Lemma lookup_alloc {A} (l : list A) x : (l ++ [x]) !! length l = Some x.
Proof. by rewrite list_lookup_middle. Qed.

Lemma read_obj_ok r o s : objs s !! r = Some o → read_obj (VObj r) s = (Ok o, s).
Proof. intros H. unfold read_obj, bind, get. simpl. by rewrite H. Qed.

Lemma js_in_own {V} k (v : V) (m : gmap string V) : m !! k = Some v → js_in k m = true.
Proof. intros H. unfold js_in. rewrite bool_decide_eq_true_2; eauto. Qed.

Lemma js_get_own {V} k (v : V) (m : gmap string V) : m !! k = Some v → js_get m k = Own v.
Proof. intros H. unfold js_get. by rewrite H. Qed.

Lemma js_in_insert {V} k k' (v : V) (m : gmap string V) :
  js_in k m = true → js_in k (<[k' := v]> m) = true.
Proof.
  unfold js_in. intros [H|H]%orb_true_iff; apply orb_true_iff; [left|by right].
  apply bool_decide_eq_true in H. apply bool_decide_eq_true.
  destruct (decide (k' = k)) as [->|]; [rewrite lookup_insert_eq|rewrite lookup_insert_ne]; eauto.
Qed.

Lemma js_in_insert_eq {V} k (v : V) (m : gmap string V) : js_in k (<[k := v]> m) = true.
Proof. apply js_in_own with v. apply lookup_insert_eq. Qed.

Lemma js_in_false_lookup {V} k (m : gmap string V) : js_in k m = false → m !! k = None.
Proof.
  unfold js_in. intros [H _]%orb_false_iff. apply bool_decide_eq_false in H.
  by apply eq_None_not_Some.
Qed.

(** ** Later states *)

#[global] Instance ext_preorder : PreOrder ext.
Proof.
  split.
  - intros s. split; eauto; done.
  - intros s1 s2 s3 H12 H23. split.
    + intros p o H. by apply H23, H12.
    + etrans; [apply H12|apply H23].
    + intros p h H. destruct (ext_history _ _ H12 _ _ H) as (h'&H'&Ho&Hp&Hf).
      destruct (ext_history _ _ H23 _ _ H') as (h''&H''&Ho'&Hp'&Hf').
      exists h''. repeat split; [done|congruence|congruence|]. intros q Hq. eauto.
    + intros k m H. by apply H23, H12.
    + intros k H. rewrite (ext_parses _ _ H23), (ext_parses _ _ H12); [done|done|].
      unfold js_in in *. apply orb_true_iff in H as [H|H]; apply orb_true_iff; [left|by right].
      apply bool_decide_eq_true in H as [m Hm]. apply bool_decide_eq_true.
      exists m. by apply H12.
    + by rewrite (ext_loader _ _ H23), (ext_loader _ _ H12).
    + by rewrite (ext_attachAST _ _ H23), (ext_attachAST _ _ H12).
    + intros k H. by apply H23, H12.
    + by rewrite (ext_modules _ _ H23), (ext_modules _ _ H12).
    + intros r o H. destruct (ext_objs _ _ H12 _ _ H) as (o'&H'&?&?).
      destruct (ext_objs _ _ H23 _ _ H') as (o''&H''&?&?).
      exists o''. repeat split; [done|congruence|congruence].
    + intros r e H. destruct (ext_elems _ _ H12 _ _ H) as (e'&H'&?).
      destruct (ext_elems _ _ H23 _ _ H') as (e''&H''&?).
      exists e''. split; [done|congruence].
    + intros l d H. destruct (ext_visited _ _ H12 _ _ H) as (d'&H'&?).
      destruct (ext_visited _ _ H23 _ _ H') as (d''&H''&?).
      exists d''. split; [done|]. eauto.
    + etrans; [apply H12|apply H23].
    + intros a rec H. destruct (ext_alls _ _ H12 _ _ H) as (r'&H'&?&?).
      destruct (ext_alls _ _ H23 _ _ H') as (r''&H''&?&?).
      exists r''. repeat split; [done|congruence|]. by etrans.
Qed.

Section Keeps.

Context (R : relation State) `{!PreOrder R}.

Lemma keeps_ret {A} (a : A) : keeps R (ret a).
Proof. intros s. reflexivity. Qed.

Lemma keeps_throw {A} e : keeps R (@throw A e).
Proof. intros s. reflexivity. Qed.

Lemma keeps_get : keeps R get.
Proof. intros s. reflexivity. Qed.

Lemma keeps_bind {A B} (m : M A) (k : A → M B) :
  keeps R m → (∀ a, keeps R (k a)) → keeps R (bind m k).
Proof.
  intros Hm Hk s. unfold bind. specialize (Hm s).
  destruct (m s) as [[a|e] s']; simpl in *; [|done].
  etrans; [done|]. apply Hk.
Qed.

Lemma keeps_get_bind {B} (k : State → M B) :
  (∀ s, R s (k s s).2) → keeps R (bind get k).
Proof. intros H s. apply H. Qed.

Lemma keeps_forEach {A} (l : list A) (f : A → M unit) :
  (∀ x, keeps R (f x)) → keeps R (forEach l f).
Proof.
  intros Hf. induction l as [|x l IH]; simpl.
  - apply keeps_ret.
  - apply keeps_bind; [apply Hf|]. by intros _.
Qed.

Lemma keeps_forEach_acc {A B} (l : list A) (f : B → A → M B) acc :
  (∀ b x, keeps R (f b x)) → keeps R (forEach_acc l f acc).
Proof.
  intros Hf. revert acc. induction l as [|x l IH]; intros acc; simpl.
  - apply keeps_ret.
  - apply keeps_bind; [apply Hf|]. intros b. apply IH.
Qed.

Lemma keeps_forEach_index {A} (l : list A) i (f : nat → A → M unit) :
  (∀ i x, keeps R (f i x)) → keeps R (forEach_index l i f).
Proof.
  intros Hf. revert i. induction l as [|x l IH]; intros i; simpl.
  - apply keeps_ret.
  - apply keeps_bind; [apply Hf|]. intros _. apply IH.
Qed.

Lemma keeps_modify f : (∀ s, R s (f s)) → keeps R (modify f).
Proof. intros H s. apply H. Qed.

Lemma keeps_get_bind' {B} (k : State → M B) :
  (∀ s0, keeps R (k s0)) → keeps R (bind get k).
Proof. intros H s. apply H. Qed.

End Keeps.

Lemma preserves_ret {A} (a : A) : preserves (ret a).
Proof. apply keeps_ret, _. Qed.
Lemma preserves_throw {A} e : preserves (@throw A e).
Proof. apply keeps_throw, _. Qed.
Lemma preserves_get : preserves get.
Proof. apply keeps_get, _. Qed.
Lemma preserves_bind {A B} (m : M A) (k : A → M B) :
  preserves m → (∀ a, preserves (k a)) → preserves (bind m k).
Proof. apply keeps_bind, _. Qed.
Lemma preserves_get_bind {B} (k : State → M B) :
  (∀ s, ext s (k s s).2) → preserves (bind get k).
Proof. apply keeps_get_bind. Qed.
Lemma preserves_forEach {A} (l : list A) (f : A → M unit) :
  (∀ x, preserves (f x)) → preserves (forEach l f).
Proof. apply keeps_forEach, _. Qed.
Lemma preserves_forEach_acc {A B} (l : list A) (f : B → A → M B) acc :
  (∀ b x, preserves (f b x)) → preserves (forEach_acc l f acc).
Proof. apply keeps_forEach_acc, _. Qed.
Lemma preserves_forEach_index {A} (l : list A) i (f : nat → A → M unit) :
  (∀ i x, preserves (f i x)) → preserves (forEach_index l i f).
Proof. apply keeps_forEach_index, _. Qed.
Lemma preserves_modify f : (∀ s, ext s (f s)) → preserves (modify f).
Proof. apply keeps_modify. Qed.

(** *** The operations only move forward *)

Ltac ext_split := split; simpl; intros; eauto; try done.

Lemma ext_set_jobs f s : ext s (set_jobs f s).
Proof. ext_split. Qed.

Lemma ext_set_cur f s : ext s (set_cur f s).
Proof. ext_split. Qed.

Lemma lookup_app_Some_l {A} (l l' : list A) i x : l !! i = Some x → (l ++ l') !! i = Some x.
Proof. intros H. rewrite lookup_app_l; [done|]. by eapply lookup_lt_Some. Qed.

Lemma ext_alloc_promise st o s : ext s (alloc_promise st o s).2.
Proof.
  ext_split.
  - by apply lookup_app_Some_l.
  - rewrite length_app. lia.
  - eexists. split; [by apply lookup_app_Some_l|done].
Qed.

Lemma ext_set_promises_pending p rs x s :
  promises s !! p = Some (Pending rs) →
  ext s (set_promises (λ ps, <[p := x]> ps) s).
Proof.
  intros Hp. ext_split.
  - rewrite list_lookup_insert_ne; [done|]. intros ->. congruence.
  - by rewrite length_insert.
Qed.

Lemma preserves_enqueue j : preserves (enqueue j).
Proof. intros s. apply ext_set_jobs. Qed.

Lemma preserves_alloc_promise st o : preserves (alloc_promise st o).
Proof. intros s. apply ext_alloc_promise. Qed.

Lemma preserves_settle p o : preserves (settle p o).
Proof.
  apply preserves_get_bind. intros s.
  destruct (promises s !! p) as [[rs|]|] eqn:E; try reflexivity.
  unfold bind, modify. simpl.
  etrans; [eapply ext_set_promises_pending; done|].
  apply preserves_forEach. intros r. apply preserves_enqueue.
Qed.

Lemma preserves_perform_then p r : preserves (perform_then p r).
Proof.
  apply preserves_get_bind. intros s.
  destruct (promises s !! p) as [[rs|]|] eqn:E; try reflexivity.
  - simpl. eapply ext_set_promises_pending; done.
  - apply preserves_enqueue.
Qed.

Lemma preserves_then_ p f r : preserves (then_ p f r).
Proof.
  apply preserves_bind; [apply preserves_alloc_promise|]. intros t.
  apply preserves_bind; [apply preserves_perform_then|]. intros _. apply preserves_ret.
Qed.

Lemma preserves_Promise_resolve x : preserves (Promise_resolve x).
Proof. destruct x; simpl; first [apply preserves_ret|apply preserves_alloc_promise]. Qed.

Lemma preserves_resolve t x : preserves (resolve t x).
Proof.
  destruct x; simpl; try apply preserves_settle.
  case_decide; [apply preserves_settle|apply preserves_enqueue].
Qed.

Lemma preserves_alloc_all a : preserves (alloc_all a).
Proof.
  intros s. split; simpl; try done; eauto.
  intros a0 rec H. eexists. split; [by apply lookup_app_Some_l|done].
Qed.

Lemma preserves_all_check a : preserves (all_check a).
Proof.
  apply preserves_get_bind. intros s.
  destruct (alls s !! a); [|reflexivity].
  destruct (forallb _ _); [apply preserves_settle|reflexivity].
Qed.

Lemma preserves_all_store a i v : preserves (all_store a i v).
Proof.
  intros s. split; simpl; try done; eauto.
  intros a0 rec H.
  destruct (alls s !! a) as [rec0|] eqn:E; [|eauto].
  destruct (decide (a0 = a)) as [->|].
  - rewrite list_lookup_insert_eq by (by eapply lookup_lt_Some).
    assert (rec = rec0) as -> by congruence.
    eexists. split; [done|]. simpl. done.
  - rewrite list_lookup_insert_ne by done. eauto.
Qed.

Lemma preserves_all_input a p : preserves (all_input a p).
Proof.
  intros s. split; simpl; try done; eauto.
  intros a0 rec H.
  destruct (alls s !! a) as [rec0|] eqn:E; [|eauto].
  destruct (decide (a0 = a)) as [->|].
  - rewrite list_lookup_insert_eq by (by eapply lookup_lt_Some).
    assert (rec = rec0) as -> by congruence.
    eexists. split; [done|]. simpl. split; [done|]. by apply prefix_app_r.
  - rewrite list_lookup_insert_ne by done. eauto.
Qed.

Lemma preserves_Promise_all l : preserves (Promise_all l).
Proof.
  apply preserves_get_bind. intros s.
  apply preserves_bind; [apply preserves_alloc_promise|]. intros c.
  apply preserves_bind; [apply preserves_alloc_all|]. intros a.
  apply preserves_bind.
  { apply preserves_forEach_index. intros i x.
    apply preserves_bind; [apply preserves_Promise_resolve|]. intros n.
    apply preserves_bind; [apply preserves_all_input|]. intros _.
    apply preserves_perform_then. }
  intros _. apply preserves_bind; [apply preserves_all_check|]. intros _.
  apply preserves_ret.
Qed.

Lemma preserves_alloc_obj o : preserves (alloc_obj o).
Proof.
  intros s. split; simpl; try done; eauto.
  intros r o' H. eexists. split; [by apply lookup_app_Some_l|done].
Qed.

Lemma preserves_alloc_element e : preserves (alloc_element e).
Proof.
  intros s. split; simpl; try done; eauto.
  intros r e' H. eexists. split; [by apply lookup_app_Some_l|done].
Qed.

Lemma preserves_alloc_visited : preserves alloc_visited.
Proof.
  intros s. split; simpl; try done; eauto.
  intros r d H. eexists. split; [by apply lookup_app_Some_l|done].
Qed.

Lemma preserves_read_obj v : preserves (read_obj v).
Proof.
  apply preserves_get_bind. intros s.
  destruct v; try reflexivity. destruct (objs s !! r); reflexivity.
Qed.

Lemma preserves_write_obj v f :
  (∀ o, o_elements (f o) = o_elements o ∧ o_modules (f o) = o_modules o) →
  preserves (write_obj v f).
Proof.
  intros Hf. unfold write_obj. intros s. unfold bind.
  destruct (read_obj v s) as [[o|e] s'] eqn:E.
  - destruct v; try (injection E as _ <-; reflexivity).
    unfold read_obj, bind, get in E. simpl in E.
    destruct (objs s !! r) as [o0|] eqn:Hr; [|done]. injection E as -> <-.
    split; simpl; try done; eauto.
    intros r' o' H. destruct (decide (r' = r)) as [->|].
    + rewrite list_lookup_insert_eq by (by eapply lookup_lt_Some).
      assert (o' = o) as -> by congruence. eexists. split; [done|]. apply Hf.
    + rewrite list_lookup_insert_ne by done. eauto.
  - pose proof (preserves_read_obj v s) as H. by rewrite E in H.
Qed.

Lemma preserves_element_is v : preserves (element_is v).
Proof.
  apply preserves_get_bind. intros s.
  destruct v; try reflexivity. destruct (elems s !! r); reflexivity.
Qed.

Lemma preserves_module_is v : preserves (module_is v).
Proof. destruct v; intros ?; reflexivity. Qed.

Lemma preserves_this_ b f : preserves (this_ b f).
Proof. destruct b; intros s; reflexivity. Qed.

Lemma preserves_loadedHrefs_get l k : preserves (loadedHrefs_get l k).
Proof. apply preserves_get_bind. intros s. destruct (visited s !! l); reflexivity. Qed.

Lemma seen_insert d k k' : seen d k = true → seen (<[k' := true]> d) k = true.
Proof.
  unfold seen, js_get. destruct (decide (k' = k)) as [->|].
  - by rewrite lookup_insert_eq.
  - by rewrite lookup_insert_ne.
Qed.

Lemma preserves_loadedHrefs_set l k : preserves (loadedHrefs_set l k).
Proof.
  intros s. split; simpl; try done; eauto.
  intros l0 d H. destruct (visited s !! l) as [d0|] eqn:E; [|eauto].
  destruct (decide (l0 = l)) as [->|].
  - rewrite list_lookup_insert_eq by (by eapply lookup_lt_Some).
    assert (d = d0) as -> by congruence.
    eexists. split; [done|]. intros k0. apply seen_insert.
  - rewrite list_lookup_insert_ne by done. eauto.
Qed.

Lemma preserves_loader_request url : preserves (loader_request url).
Proof.
  apply preserves_bind; [apply preserves_alloc_promise|]. intros p.
  apply preserves_bind; [|intros _; apply preserves_ret].
  intros s. split; simpl; try done; eauto. by apply prefix_app_r.
Qed.

Lemma preserves_alloc_ParsedJs r : preserves (alloc_ParsedJs r).
Proof.
  apply preserves_bind.
  - destruct (js_elements r); [|apply preserves_ret].
    apply preserves_bind; [|intros; apply preserves_ret].
    apply preserves_forEach_acc. intros acc name.
    apply preserves_bind; [apply preserves_alloc_element|intros; apply preserves_ret].
  - intros es. apply preserves_bind; [apply preserves_alloc_obj|intros; apply preserves_ret].
Qed.

Lemma preserves_register_element v : preserves (register_element v).
Proof.
  apply preserves_bind; [apply preserves_element_is|]. intros name.
  unfold this_. intros s. rewrite (bind_ok _ _ s (this s) s) by reflexivity.
  destruct (js_in name (elements (this s))) eqn:E; [reflexivity|].
  destruct v; try reflexivity.
  split; simpl; try done; eauto. intros k. apply js_in_insert.
Qed.

Lemma preserves_register_module v : preserves (register_module v).
Proof.
  apply preserves_bind; [apply preserves_module_is|]. intros name s. reflexivity.
Qed.

(** *** What leaves the table of documents alone *)

#[global] Instance same_docs_preorder : PreOrder same_docs.
Proof.
  split.
  - by intros s.
  - intros s1 s2 s3 [H1 H2] [H3 H4]. split; congruence.
Qed.

Ltac docs_leaf := intros ?; split; reflexivity.

Ltac docs_step :=
  lazymatch goal with
  | |- keeps _ (ret _) => apply (keeps_ret same_docs)
  | |- keeps _ (throw _) => apply (keeps_throw same_docs)
  | |- keeps _ get => apply (keeps_get same_docs)
  | |- keeps _ (bind get _) => apply (keeps_get_bind' same_docs); intros ?
  | |- keeps _ (bind _ _) => apply (keeps_bind same_docs); [|intros ?]
  | |- keeps _ (forEach _ _) => apply (keeps_forEach same_docs); intros ?
  | |- keeps _ (forEach_acc _ _ _) => apply (keeps_forEach_acc same_docs); intros ? ?
  | |- keeps _ (forEach_index _ _ _) => apply (keeps_forEach_index same_docs); intros ? ?
  | |- keeps _ (modify _) => apply (keeps_modify same_docs); docs_leaf
  | |- keeps _ (alloc_promise _ _) => docs_leaf
  | |- keeps _ (alloc_all _) => docs_leaf
  | |- keeps _ (alloc_obj _) => docs_leaf
  | |- keeps _ (alloc_element _) => docs_leaf
  | |- keeps _ alloc_visited => docs_leaf
  | |- keeps _ (match _ with _ => _ end) => case_match
  | |- keeps _ (let '(_, _) := ?x in _) => destruct x
  | |- keeps _ _ =>
      progress unfold settle, perform_then, then_, Promise_resolve, resolve, all_check,
        all_store, all_input, Promise_all, read_obj, write_obj, element_is, module_is,
        this_, loadedHrefs_get, loadedHrefs_set, loader_request, enqueue, note_returned
  end.

Ltac docs := repeat docs_step.

Lemma docs_Promise_all l : keeps same_docs (Promise_all l).
Proof. docs. Qed.

Lemma docs_then_ p f r : keeps same_docs (then_ p f r).
Proof. docs. Qed.

Lemma docs_Promise_resolve x : keeps same_docs (Promise_resolve x).
Proof. docs. Qed.

Lemma docs_loader_request u : keeps same_docs (loader_request u).
Proof. docs. Qed.

Lemma docs_register_element v : keeps same_docs (register_element v).
Proof. unfold register_element. docs. Qed.

Lemma docs_register_module v : keeps same_docs (register_module v).
Proof. unfold register_module. docs. Qed.

Section Preserved.

Variable importParse : string → exn + Parsed.
Variable jsParse : string → bool → exn + ParsedJs.
Variable url_resolve : string → string → string.

Lemma preserves__processScript script href :
  preserves (_processScript jsParse url_resolve script href).
Proof.
  unfold _processScript. destruct (negb _).
  - apply preserves_bind. { destruct (childNodes script); [apply preserves_throw|apply preserves_ret]. }
    intros body. apply preserves_get_bind. intros s.
    apply preserves_bind. { destruct (jsParse _ _); [apply preserves_throw|apply preserves_ret]. }
    intros r. apply preserves_bind; [apply preserves_alloc_ParsedJs|]. intros parsedJs.
    apply preserves_bind; [apply preserves_read_obj|]. intros o.
    apply preserves_bind.
    { destruct (o_elements o); [|apply preserves_ret].
      apply preserves_forEach. apply preserves_register_element. }
    intros _. apply preserves_bind; [|intros; apply preserves_ret].
    destruct (o_modules o); [|apply preserves_ret].
    apply preserves_forEach. apply preserves_register_module.
  - apply preserves_get_bind. intros s. destruct (loader (this s)).
    + apply preserves_bind; [apply preserves_loader_request|]. intros p.
      apply preserves_bind; [apply preserves_then_|]. intros t.
      apply preserves_bind; [apply preserves_then_|]. intros c. apply preserves_ret.
    + apply preserves_bind; [apply preserves_Promise_resolve|]. intros; apply preserves_ret.
Qed.

Lemma preserves__processScripts scripts href :
  preserves (_processScripts jsParse url_resolve scripts href).
Proof.
  apply preserves_bind.
  { apply preserves_forEach_acc. intros acc script.
    apply preserves_bind; [apply preserves__processScript|]. intros; apply preserves_ret. }
  intros l. apply preserves_bind; [apply preserves_Promise_all|]. intros a.
  apply preserves_then_.
Qed.

Lemma preserves_import_link href acc link :
  preserves (import_link url_resolve href acc link).
Proof.
  unfold import_link. destruct acc as [depHrefs depsLoaded].
  destruct (truthy_str _); [|apply preserves_ret].
  apply preserves_bind; [apply preserves_loader_request|]. intros p.
  apply preserves_bind; [apply preserves_then_|]. intros; apply preserves_ret.
Qed.

Lemma occurrences_app k l l' : occurrences k (l ++ l') = occurrences k l + occurrences k l'.
Proof. unfold occurrences. by rewrite filter_app, length_app. Qed.

Lemma docs__processScript script href :
  keeps same_docs (_processScript jsParse url_resolve script href).
Proof.
  unfold _processScript, alloc_ParsedJs.
  repeat first [apply docs_register_element | apply docs_register_module | docs_step].
Qed.

Lemma docs__processScripts scripts href :
  keeps same_docs (_processScripts jsParse url_resolve scripts href).
Proof.
  unfold _processScripts.
  repeat first [apply docs__processScript | docs_step].
Qed.

Lemma docs_import_link href acc link :
  keeps same_docs (import_link url_resolve href acc link).
Proof. unfold import_link. docs. Qed.

Lemma ext_register_document href m s :
  js_in href (html (this s)) = false →
  ext s (set_this (set_html (λ h, <[href := m]> h)) s).
Proof.
  intros Hin. split; simpl; try done; eauto.
  intros k m' H. rewrite lookup_insert_ne; [done|].
  intros ->. apply js_in_false_lookup in Hin. congruence.
Qed.

Lemma ext_log_parse href s :
  js_in href (html (this s)) = false →
  ext s (set_parses (λ l, l ++ [href]) s).
Proof.
  intros Hin. split; simpl; try done; eauto.
  intros k Hk. rewrite occurrences_app. unfold occurrences at 2. simpl.
  rewrite filter_cons_False, filter_nil; [simpl; lia|]. intros ->. congruence.
Qed.

(** While [href] is not registered, a step that leaves the table alone
    hands the same situation to what follows. *)
Lemma ext_bind_fresh {A B} (m : M A) (k : A → M B) href :
  preserves m → keeps same_docs m →
  (∀ a s, js_in href (html (this s)) = false → ext s (k a s).2) →
  ∀ s, js_in href (html (this s)) = false → ext s (bind m k s).2.
Proof.
  intros Hm Hd Hk s Hin. unfold bind.
  specialize (Hm s). specialize (Hd s). destruct Hd as [Hd _].
  destruct (m s) as [[a|e] s']; cbn [fst snd] in *; [|done].
  etrans; [exact Hm|]. apply Hk. by rewrite Hd.
Qed.

Lemma preserves__parseHTML htmlImport href :
  preserves (_parseHTML importParse jsParse url_resolve htmlImport href).
Proof.
  apply preserves_get_bind. intros s0.
  destruct (js_in href (html (this s0))) eqn:Hin; [reflexivity|].
  revert s0 Hin. apply ext_bind_fresh;
    [apply preserves_Promise_resolve|apply docs_Promise_resolve|].
  intros m0 s Hin. unfold bind at 1, modify at 1. cbn [fst snd].
  etrans; [apply (ext_log_parse href), Hin|].
  assert (js_in href (html (this (set_parses (λ l, l ++ [href]) s))) = false) as Hin' by done.
  revert Hin'. generalize (set_parses (λ l, l ++ [href]) s). clear s Hin.
  apply ext_bind_fresh.
  { destruct (importParse htmlImport); [apply preserves_throw|apply preserves_ret]. }
  { destruct (importParse htmlImport); docs. }
  intros parsed. apply ext_bind_fresh;
    [apply preserves_Promise_resolve|apply docs_Promise_resolve|].
  intros htmlLoaded. apply ext_bind_fresh.
  { destruct (p_script parsed); [|apply preserves_ret].
    apply preserves_bind; [apply preserves__processScripts|intros; apply preserves_ret]. }
  { destruct (p_script parsed); repeat first [apply docs__processScripts | docs_step]. }
  intros md s Hin. rewrite (bind_ok _ _ s s s) by reflexivity.
  apply (ext_bind_fresh _ _ href); [| |clear Hin|exact Hin].
  { destruct (loader (this s)); [|apply preserves_ret].
    apply preserves_forEach_acc. intros. apply preserves_import_link. }
  { destruct (loader (this s)); repeat first [apply docs_import_link | docs_step]. }
  clear s. intros deps. apply ext_bind_fresh; [apply preserves_Promise_all|apply docs_Promise_all|].
  intros all. apply ext_bind_fresh; [apply preserves_then_|apply docs_then_|].
  intros t. apply ext_bind_fresh; [apply preserves_then_|apply docs_then_|].
  intros c s Hin. unfold bind, modify, ret. cbn [fst snd].
  by apply ext_register_document.
Qed.

Lemma preserves__metadataTree n l : preserves (_metadataTree n l).
Proof.
  destruct n; simpl; [apply preserves_then_|apply preserves_throw|apply preserves_throw].
Qed.

Lemma preserves_alloc_placeholder : preserves (alloc_obj empty_object).
Proof. apply preserves_alloc_obj. Qed.

Lemma preserves_tree_child l acc href : preserves (tree_child l acc href).
Proof.
  unfold tree_child.
  apply preserves_bind; [apply preserves_loadedHrefs_get|]. intros b.
  destruct (negb b).
  - apply preserves_bind; [apply preserves_loadedHrefs_set|]. intros _.
    apply preserves_bind; [apply preserves_Promise_resolve|]. intros p0.
    apply preserves_bind; [apply preserves_then_|]. intros; apply preserves_ret.
  - apply preserves_bind; [apply preserves_alloc_obj|]. intros o.
    apply preserves_bind; [apply preserves_Promise_resolve|]. intros; apply preserves_ret.
Qed.

Lemma preserves_attachDomModule_heap p v : preserves (attachDomModule_heap p v).
Proof.
  unfold attachDomModule_heap. destruct (p_dom_module p) eqn:E; [apply preserves_ret|].
  clear E.
  apply preserves_bind; [apply preserves_element_is|]. intros _.
  destruct v; try apply preserves_ret.
  intros s. split; simpl; try done; eauto.
  intros r0 e H. destruct (elems s !! r) as [e0|] eqn:Hr; [|eauto].
  destruct (decide (r0 = r)) as [->|].
  - rewrite list_lookup_insert_eq by (by eapply lookup_lt_Some).
    assert (e = e0) as -> by congruence. eexists. split; [done|].
    unfold attachDomModule. generalize (p_dom_module p). intros doms.
    induction doms as [|d doms IH]; simpl; [done|]. by case_decide.
  - rewrite list_lookup_insert_ne by done. eauto.
Qed.

Lemma preserves_call cb arg :
  preserves (call importParse jsParse url_resolve cb arg).
Proof.
  destruct cb; simpl.
  - destruct arg; try apply preserves_throw.
    apply preserves_bind; [apply preserves__parseHTML|]. intros; apply preserves_ret.
  - apply preserves_ret.
  - destruct arg; try apply preserves_throw.
    apply preserves_forEach_acc. intros m1 m2.
    apply preserves_bind; [apply preserves_read_obj|]. intros o1.
    apply preserves_bind; [apply preserves_read_obj|]. intros o2.
    destruct (reduceMetadata o1 o2); [apply preserves_throw|].
    apply preserves_bind; [apply preserves_alloc_obj|]. intros; apply preserves_ret.
  - destruct arg; try apply preserves_throw. apply preserves__processScript.
  - apply preserves_bind; [apply preserves_then_|]. intros; apply preserves_ret.
  - destruct arg; try apply preserves_throw.
    apply preserves_bind; [apply preserves_forEach_acc; intros; apply preserves_tree_child|].
    intros ps. apply preserves_bind; [apply preserves_Promise_all|]. intros a.
    apply preserves_bind; [apply preserves_then_|]. intros; apply preserves_ret.
  - apply preserves_get_bind. intros s.
    apply preserves_bind; [apply preserves__metadataTree|]. intros; apply preserves_ret.
  - destruct arg; try apply preserves_throw.
    apply preserves_bind; [by apply preserves_write_obj|]. intros _.
    apply preserves_bind; [by apply preserves_write_obj|]. intros _.
    apply preserves_bind; [apply preserves_then_|]. intros; apply preserves_ret.
  - destruct arg; try apply preserves_throw.
    apply preserves_bind; [by apply preserves_write_obj|]. intros _.
    apply preserves_bind; [apply preserves_read_obj|]. intros o.
    apply preserves_bind; [|intros; apply preserves_ret].
    destruct (o_elements o); [|apply preserves_ret].
    apply preserves_forEach. intros. apply preserves_attachDomModule_heap.
Qed.

Lemma preserves_call_catch cb e : preserves (call_catch cb e).
Proof. destruct cb. apply preserves_throw. Qed.

Lemma preserves_note_returned t x : preserves (note_returned t x).
Proof.
  destruct x; try apply preserves_ret. simpl.
  intros s. split; simpl; try done; eauto.
  intros p0 h H. destruct (decide (p0 = t)) as [->|].
  - rewrite list_lookup_alter_eq, H. simpl. eexists. split; [done|].
    repeat split; try done. simpl. by intros q ->.
  - rewrite list_lookup_alter_ne by done. eauto.
Qed.

Lemma preserves_complete t (m : M value) : preserves m → preserves (complete t m).
Proof.
  intros Hm s. unfold complete.
  specialize (Hm (set_cur (λ _, Some t) s)).
  destruct (m _) as [[x|e] s']; simpl in *.
  - etrans; [apply (ext_set_cur (λ _, Some t))|]. etrans; [exact Hm|].
    apply preserves_bind; [apply preserves_note_returned|]. intros _.
    apply preserves_resolve.
  - etrans; [apply (ext_set_cur (λ _, Some t))|]. etrans; [exact Hm|].
    apply preserves_settle.
Qed.

Lemma preserves_run_job j : preserves (run_job importParse jsParse url_resolve j).
Proof.
  destruct j as [[f r t|t|a i] [v|e]|t q]; simpl.
  - destruct f; [apply preserves_complete, preserves_call|apply preserves_settle].
  - destruct r; [apply preserves_complete, preserves_call_catch|apply preserves_settle].
  - apply preserves_resolve.
  - apply preserves_settle.
  - apply preserves_bind; [apply preserves_all_store|]. intros _. apply preserves_all_check.
  - apply preserves_get_bind. intros s. destruct (alls s !! a); [apply preserves_settle|reflexivity].
  - apply preserves_perform_then.
Qed.

Lemma step_ext s s' : step importParse jsParse url_resolve s = Some s' → ext s s'.
Proof.
  unfold step. destruct (jobs s) as [|j rest]; [done|]. intros [= <-].
  etrans; [apply (ext_set_jobs (λ _, rest))|].
  etrans; [apply preserves_run_job|]. apply ext_set_cur.
Qed.

Lemma deliver_ext p o s s' : deliver p o s = Some s' → ext s s'.
Proof.
  unfold deliver. destruct (promises s !! p) as [[rs|]|]; try done.
  case_bool_decide; [|done]. intros [= <-]. apply preserves_settle.
Qed.

Lemma transition_ext s s' : transition importParse jsParse url_resolve s s' → ext s s'.
Proof. intros [H|p o H]; [by apply step_ext|by eapply deliver_ext]. Qed.

Lemma reaches_ext s s' : reaches importParse jsParse url_resolve s s' → ext s s'.
Proof.
  induction 1 as [|s1 s2 s3 H12 _ IH]; [reflexivity|].
  etrans; [by apply transition_ext|done].
Qed.

End Preserved.

(** ** The examples, evaluated *)

Lemma no_transition_when_quiescent importParse jsParse url_resolve s :
  quiescent s → ∀ s', ¬ transition importParse jsParse url_resolve s s'.
Proof.
  intros [Hj Hr] s' [H|p o H].
  - unfold step in H. by rewrite Hj in H.
  - unfold deliver in H.
    destruct (promises s !! p) as [[rs|]|] eqn:E; try done.
    case_bool_decide as Hp; [|done].
    apply list_elem_of_fmap in Hp as ([p' u] & -> & Hin).
    rewrite Forall_forall in Hr. specialize (Hr _ Hin).
    unfold is_pending in Hr. simpl in *. by rewrite E in Hr.
Qed.

Lemma quiescent_dec s :
  forallb (λ r, negb (is_pending s r.1)) (requests s) = true → jobs s = [] → quiescent s.
Proof.
  intros H Hj. split; [done|]. apply Forall_forall. intros r Hr.
  rewrite forallb_forall in H. apply list_elem_of_In in Hr.
  specialize (H _ Hr). by destruct (is_pending s r.1).
Qed.

Ltac conj_compute :=
  repeat (lazymatch goal with |- _ ∧ _ => split; [by vm_compute|] end);
  by vm_compute.

(** C2. Two documents that import each other: once the loader has answered
    both requests nothing is left to run, no transition is possible, and
    the promise returned by [metadataTree()] is still pending. The
    [depsLoaded] of [A] waits for that of [B], which waits for that of [A]. *)
Theorem C2_import_cycle_never_settles :
  let run := build_tree cycle_site [] (open_site cycle_site [] "A") in
  let s := answers cycle_site [] [0; 1] run.2 in
  run.1 = Some 9
  ∧ (requests s).*2 = ["B"; "A"]
  ∧ parses s = ["A"; "B"]
  ∧ promises s !! 9 = Some (Pending [])
  ∧ quiescent s
  ∧ ∀ s', ¬ transition (parser_of cycle_site) (λ t _, parser_of [] t) absolute s s'.
Proof.
  intros run s.
  assert (quiescent s) as Hq by (apply quiescent_dec; by vm_compute).
  do 4 (split; [by vm_compute|]). split; [exact Hq|].
  by apply no_transition_when_quiescent.
Qed.

(** C3, as stated, fails on both counts. A document that names [B] in two
    links makes the engine call the loader for [B] twice; and when the one
    script of [B] is rejected, so that [B] never gets its node, the second
    answer of the loader has [B] parsed a second time. *)
Lemma C3_counterexample :
  ¬ (∀ url, occurrences url (requests (open_site twice_site element_scripts "A")).*2 ≤ 1)
  ∧ ¬ (∀ address,
         occurrences address
           (parses (answers failing_site [] [0; 1] (open_site failing_site [] "A"))) ≤ 1).
Proof.
  split; intros H; specialize (H "B"); vm_compute in H; lia.
Qed.

(** C5. The build of a subtree is chained on the entry before it in
    [depMetadata], which may be a placeholder. With imports [B], [B], [C]
    the build of [C] is under way (its [then] on [metadataLoaded] exists)
    while the promise of [B]'s subtree is still pending; in the tree that
    results, [D] is expanded under [C] and [E], which [B] imports and which
    comes first in declaration order, holds the placeholder for [D]. *)
Theorem C5_build_after_placeholder_overlaps :
  let ready := answers overlap_site element_scripts [0; 1; 2; 3; 4; 5]
                 (open_site overlap_site element_scripts "A") in
  let P := parser_of overlap_site in
  let J := λ (t : string) (_ : bool), parser_of element_scripts t in
  let during := drain P J absolute 5 (metadataTree ready).2 in
  let final := drain P J absolute 1000 (metadataTree ready).2 in
  quiescent ready
  ∧ (∃ mB mC hB hC,
        html (this ready) !! "B" = Some mB ∧ html (this ready) !! "C" = Some mC
        ∧ history during !! 55 = Some hB
        ∧ h_origin hB = OThen 54 (Some (cb_tree_next "B" 0)) None
        ∧ promises during !! 55 = Some (Pending [RAll 10 0])
        ∧ history during !! 62 = Some hC
        ∧ h_origin hC = OThen (metadataLoaded mC) (Some (cb_tree_metadata mC 0)) None)
  ∧ o_href <$> objs final !! 8 = Some (Some "E")
  ∧ o_imports <$> objs final !! 8 = Some (Some [VObj 12])
  ∧ objs final !! 12 = Some empty_object
  ∧ o_href <$> objs final !! 6 = Some (Some "C")
  ∧ o_imports <$> objs final !! 6 = Some (Some [VObj 10])
  ∧ o_href <$> objs final !! 10 = Some (Some "D").
Proof.
  intros ready P J during final.
  split; [apply quiescent_dec; by vm_compute|].
  split.
  { eexists _, _, _, _. conj_compute. }
  conj_compute.
Qed.

(** C6, as stated, fails: [B] imports [C] twice, but [C] was marked when
    the root's imports were walked, so the first occurrence under [B] is a
    placeholder as well, not the subtree of [C]. *)
Lemma C6_counterexample :
  let s := (build_tree visited_site element_scripts
              (answers visited_site element_scripts [0; 1; 2; 3]
                 (open_site visited_site element_scripts "A"))).2 in
  ¬ (∀ b node first rest,
        objs s !! b = Some node → o_href node = Some "B" →
        o_imports node = Some (VObj first :: rest) →
        ∃ child, objs s !! first = Some child ∧ o_href child = Some "C").
Proof.
  intros s H.
  eassert (objs s !! 4 = Some _) as E4 by (vm_compute; reflexivity).
  destruct (H 4 _ 7 [VObj 8] E4) as (child & Hc & Hh); [by vm_compute..|].
  vm_compute in Hc. by injection Hc as <-.
Qed.

(** C7. A script whose parse result has no [elements] list: the
    document's aggregate does not have the concatenation of the scripts'
    elements (there are none) but one [undefined] entry, which
    [concat(undefined)] appends. *)
Theorem C7_missing_list_becomes_an_undefined_entry :
  let s := open_site modules_only_site modules_only_scripts "A" in
  quiescent s
  ∧ ∃ m, root (this s) = Own m
      ∧ promises s !! metadataLoaded m = Some (Settled (Fulfilled (VObj 2)))
      ∧ objs s !! 2 = Some (metadata_object [VUndefined] []).
Proof.
  intros s. split; [apply quiescent_dec; by vm_compute|].
  eexists. conj_compute.
Qed.

(** Two documents without scripts, [A] importing [B]: both have
    [EMPTY_METADATA] as their metadata, the tree is that same object, and
    it carries the address and markup of [A], built last, and itself as its
    only import. *)
Lemma scriptless_documents_share_one_node :
  let run := build_tree scriptless_site []
               (answers scriptless_site [] [0] (open_site scriptless_site [] "A")) in
  let s := run.2 in
  quiescent s
  ∧ ∃ t mA mB, run.1 = Some t
      ∧ html (this s) !! "A" = Some mA ∧ html (this s) !! "B" = Some mB
      ∧ promises s !! metadataLoaded mA = Some (Settled (Fulfilled (VObj EMPTY_METADATA)))
      ∧ promises s !! metadataLoaded mB = Some (Settled (Fulfilled (VObj EMPTY_METADATA)))
      ∧ promises s !! t = Some (Settled (Fulfilled (VObj EMPTY_METADATA)))
      ∧ objs s = [ {| o_elements := Some []; o_modules := Some [];
                      o_imports := Some [VObj EMPTY_METADATA]; o_href := Some "A";
                      o_html := Some (page [] ["B"]) |} ].
Proof.
  intros run s. split; [apply quiescent_dec; by vm_compute|].
  eexists _, _, _. conj_compute.
Qed.

(** ** Registration of elements and modules *)

Lemma register_element_duplicate r e s :
  elems s !! r = Some e →
  js_in (e_is e) (elements (this s)) = true →
  register_element (VElement r) s =
  (Throw (JsError ("Duplicate element definition: " +:+ e_is e)), s).
Proof.
  intros Hr Hin. unfold register_element, element_is.
  erewrite bind_ok; last first.
  { erewrite bind_ok by reflexivity. rewrite Hr. reflexivity. }
  erewrite bind_ok by reflexivity. by rewrite Hin.
Qed.

Lemma register_element_fresh r e s :
  elems s !! r = Some e →
  js_in (e_is e) (elements (this s)) = false →
  register_element (VElement r) s =
  (Ok tt, set_this (set_elements (λ m, <[e_is e := r]> m)) s).
Proof.
  intros Hr Hin. unfold register_element, element_is.
  erewrite bind_ok; last first.
  { erewrite bind_ok by reflexivity. rewrite Hr. reflexivity. }
  erewrite bind_ok by reflexivity. by rewrite Hin.
Qed.

(** C1. The callback that registers modules (lines 176-181) is handed to
    [forEach] without [.bind(this)]: for an inline script whose parse
    result names at least one module, [_processScript] throws the
    TypeError of reading [this.modules], on the first module already, and
    the registry of modules stays as it was. No duplicate-definition
    failure is ever raised for a module. *)
Theorem C1_module_registration_throws_TypeError
    (jsParse : string → bool → exn + ParsedJs) (url_resolve : string → string → string)
    (script : Node) (href body : string) (rest : list string) (r : ParsedJs)
    (name : string) (ms : list string) (s : State) :
  truthy_str (getAttribute script "src") = false →
  childNodes script = body :: rest →
  jsParse body (attachAST (this s)) = inr r →
  js_elements r = Some [] →
  js_modules r = Some (name :: ms) →
  ∃ s', _processScript jsParse url_resolve script href s
          = (Throw (JsTypeError "Cannot read property 'modules' of undefined"), s')
        ∧ modules (this s') = modules (this s).
Proof.
  intros Hsrc Hbody Hjs Hes Hms. eexists.
  unfold _processScript. rewrite Hsrc, Hbody. cbn [negb].
  erewrite bind_ok by reflexivity.
  erewrite bind_ok by reflexivity. rewrite Hjs.
  erewrite bind_ok by reflexivity.
  unfold alloc_ParsedJs. rewrite Hes, Hms.
  erewrite bind_ok; last first.
  { erewrite bind_ok by reflexivity. erewrite bind_ok by reflexivity. reflexivity. }
  erewrite bind_ok by (apply read_obj_ok, lookup_alloc).
  split; reflexivity.
Qed.

Lemma C1_module_registration_witness :
  ∃ s', _processScript
          (λ _ _, inr {| js_elements := Some []; js_modules := Some ["m"] |})
          absolute (inline_script "define") "A" (initial false false)
          = (Throw (JsTypeError "Cannot read property 'modules' of undefined"), s')
        ∧ modules (this s') = modules (this (initial false false)).
Proof.
  apply (C1_module_registration_throws_TypeError _ absolute (inline_script "define") "A"
           "define" [] {| js_elements := Some []; js_modules := Some ["m"] |} "m" []);
    reflexivity.
Defined.

(** ** Memoisation on the address *)

Lemma _parseHTML_memo importParse jsParse url_resolve htmlImport href s :
  js_in href (html (this s)) = true →
  _parseHTML importParse jsParse url_resolve htmlImport href s
  = (Ok (js_get (html (this s)) href), s).
Proof.
  intros H. unfold _parseHTML. erewrite bind_ok by reflexivity. by rewrite H.
Qed.

(** C4. The table holds one node per address: resolving an address that is
    in the table returns that node and leaves the whole state, parse log
    included, as it was, whatever text is supplied; and along every run the
    node stays the one registered for the address. *)
Theorem C4_resolve_is_idempotent
    (importParse : string → exn + Parsed) (jsParse : string → bool → exn + ParsedJs)
    (url_resolve : string → string → string) (s : State) (href : string)
    (m : HTMLMonomer) :
  html (this s) !! href = Some m →
  (∀ htmlImport,
      _parseHTML importParse jsParse url_resolve htmlImport href s = (Ok (Own m), s))
  ∧ (∀ s', reaches importParse jsParse url_resolve s s' →
           html (this s') !! href = Some m).
Proof.
  intros Hm. split.
  - intros htmlImport. rewrite _parseHTML_memo by (by eapply js_in_own).
    by erewrite js_get_own.
  - intros s' Hs'. by apply (ext_html _ _ (reaches_ext _ _ _ _ _ Hs')).
Qed.

Lemma twice_site_registers_A :
  html (this (open_site twice_site element_scripts "A")) !! "A"
  = Some {| href := "A"; htmlLoaded := 1; metadataLoaded := 4; depsLoaded := 11 |}.
Proof. by vm_compute. Qed.

Lemma C4_resolve_is_idempotent_witness :
  let s := open_site twice_site element_scripts "A" in
  let m := {| href := "A"; htmlLoaded := 1; metadataLoaded := 4; depsLoaded := 11 |} in
  (∀ htmlImport,
      _parseHTML (parser_of twice_site) (λ t _, parser_of element_scripts t) absolute
        htmlImport "A" s = (Ok (Own m), s))
  ∧ (∀ s', reaches (parser_of twice_site) (λ t _, parser_of element_scripts t) absolute s s' →
           html (this s') !! "A" = Some m).
Proof.
  intros s m.
  exact (C4_resolve_is_idempotent _ _ _ s "A" m twice_site_registers_A).
Defined.

(** Once an address has its node, no later turn of the job queue and no
    answer of the loader parses it again or replaces its node: the call of
    [importParse] is behind the test on the table. *)
Lemma registered_address_is_kept
    (importParse : string → exn + Parsed) (jsParse : string → bool → exn + ParsedJs)
    (url_resolve : string → string → string) (s s' : State) (href : string)
    (m : HTMLMonomer) :
  html (this s) !! href = Some m →
  reaches importParse jsParse url_resolve s s' →
  occurrences href (parses s') = occurrences href (parses s)
  ∧ html (this s') !! href = Some m
  ∧ requests s `prefix_of` requests s'.
Proof.
  intros Hm Hs'. pose proof (reaches_ext _ _ _ _ _ Hs') as E.
  split; [|split].
  - apply (ext_parses _ _ E). by eapply js_in_own.
  - by apply (ext_html _ _ E).
  - apply (ext_requests _ _ E).
Qed.

Lemma reaches_drain importParse jsParse url_resolve fuel s :
  reaches importParse jsParse url_resolve s (drain importParse jsParse url_resolve fuel s).
Proof.
  revert s. induction fuel as [|n IH]; intros s; simpl; [apply rtc_refl|].
  destruct (step importParse jsParse url_resolve s) as [s'|] eqn:E; [|apply rtc_refl].
  eapply rtc_l; [by apply t_job|apply IH].
Qed.

Lemma reaches_answer importParse jsParse url_resolve fuel k o s :
  reaches importParse jsParse url_resolve s
    (answer importParse jsParse url_resolve fuel k o s).
Proof.
  unfold answer. destruct (requests s !! k) as [[p u]|]; [|apply rtc_refl].
  destruct (deliver p o s) as [s'|] eqn:E; [|apply rtc_refl].
  eapply rtc_l; [by eapply t_loader|apply reaches_drain].
Qed.

Lemma reaches_answers docs scripts ks s :
  reaches (parser_of docs) (λ t _, parser_of scripts t) absolute s
    (answers docs scripts ks s).
Proof.
  revert s. induction ks as [|k ks IH]; intros s; simpl; [apply rtc_refl|].
  etrans; [apply reaches_answer|apply IH].
Qed.

(** ** Binding of dom-modules *)

Lemma attachDomModule_loop_first pre d post e :
  Forall (λ x, getAttribute x "id" ≠ Some (e_is e)) pre →
  getAttribute d "id" = Some (e_is e) →
  attachDomModule_loop (pre ++ d :: post) e = {| e_is := e_is e; domModule := Some d |}.
Proof.
  intros Hpre Hd. induction Hpre as [|x pre Hx _ IH]; simpl.
  - rewrite decide_True; done.
  - rewrite decide_False; done.
Qed.

Lemma attachDomModule_loop_none l e :
  Forall (λ x, getAttribute x "id" ≠ Some (e_is e)) l → attachDomModule_loop l e = e.
Proof.
  induction 1 as [|x l Hx _ IH]; simpl; [done|]. rewrite decide_False; done.
Qed.

(** [attachDomModule] binds to the element the first dom-module of the
    document whose [id] attribute equals the element's name, and looks no
    further; with no such dom-module the element is left as it is. On the
    heap the call updates the element in place. *)
Lemma attachDomModule_scan (parsedImport : Parsed) (element : Element) :
  (∀ pre d post,
      p_dom_module parsedImport = pre ++ d :: post →
      Forall (λ x, getAttribute x "id" ≠ Some (e_is element)) pre →
      getAttribute d "id" = Some (e_is element) →
      attachDomModule parsedImport element
      = {| e_is := e_is element; domModule := Some d |})
  ∧ (Forall (λ x, getAttribute x "id" ≠ Some (e_is element)) (p_dom_module parsedImport) →
      attachDomModule parsedImport element = element)
  ∧ (∀ s r, elems s !! r = Some element →
      attachDomModule_heap parsedImport (VElement r) s
      = (Ok tt, match p_dom_module parsedImport with
                | [] => s
                | _ => set_elems (λ l, <[r := attachDomModule parsedImport element]> l) s
                end)).
Proof.
  split; [|split].
  - intros pre d post Heq Hpre Hd. unfold attachDomModule. rewrite Heq.
    by apply attachDomModule_loop_first.
  - intros H. by apply attachDomModule_loop_none.
  - intros s r Hr. unfold attachDomModule_heap.
    destruct (p_dom_module parsedImport) eqn:E; [done|].
    unfold element_is. erewrite bind_ok; last first.
    { erewrite bind_ok by reflexivity. rewrite Hr. reflexivity. }
    unfold modify, set_elems. cbn [elems]. by rewrite Hr.
Qed.

(** ** More of what the operations keep *)

#[global] Instance stays_aligned_preorder : PreOrder stays_aligned.
Proof. split; [intros s H; exact H|]. intros s1 s2 s3 H1 H2 H. by apply H2, H1. Qed.

#[global] Instance grows_preorder : PreOrder grows.
Proof.
  split; [intros s; split; reflexivity|].
  intros s1 s2 s3 [H1 H2] [H3 H4]. split; by etrans.
Qed.

Ltac keeps_step R leaf :=
  lazymatch goal with
  | |- keeps _ (ret _) => apply (keeps_ret R)
  | |- keeps _ (throw _) => apply (keeps_throw R)
  | |- keeps _ get => apply (keeps_get R)
  | |- keeps _ (bind get _) => apply (keeps_get_bind' R); intros ?
  | |- keeps _ (bind _ _) => apply (keeps_bind R); [|intros ?]
  | |- keeps _ (forEach _ _) => apply (keeps_forEach R); intros ?
  | |- keeps _ (forEach_acc _ _ _) => apply (keeps_forEach_acc R); intros ? ?
  | |- keeps _ (forEach_index _ _ _) => apply (keeps_forEach_index R); intros ? ?
  | |- keeps _ (modify _) => apply (keeps_modify R); leaf
  | |- keeps _ (alloc_promise _ _) => leaf
  | |- keeps _ (alloc_all _) => leaf
  | |- keeps _ (alloc_obj _) => leaf
  | |- keeps _ (alloc_element _) => leaf
  | |- keeps _ alloc_visited => leaf
  | |- keeps _ (match _ with _ => _ end) => case_match
  | |- keeps _ (let '(_, _) := ?x in _) => destruct x
  | |- keeps _ _ =>
      progress unfold settle, perform_then, then_, Promise_resolve, resolve, all_check,
        all_store, all_input, Promise_all, read_obj, element_is, module_is,
        this_, loadedHrefs_get, loadedHrefs_set, loader_request, enqueue, note_returned,
        import_link, tree_child, _metadataTree
  end.

Ltac aligned_leaf :=
  intros ?; unfold stays_aligned, aligned; simpl;
  rewrite ?length_app, ?length_insert, ?length_alter; simpl; lia.

Ltac aligned_auto := repeat keeps_step stays_aligned aligned_leaf.

Ltac grows_leaf :=
  intros ?; split; simpl; try done; try (by apply prefix_app_r);
  repeat case_match; try done; try (by apply prefix_app_r).

Ltac grows_auto := repeat keeps_step grows grows_leaf.

Lemma aligned_then_ p f r : keeps stays_aligned (then_ p f r).
Proof. aligned_auto. Qed.
Lemma aligned_Promise_resolve x : keeps stays_aligned (Promise_resolve x).
Proof. aligned_auto. Qed.
Lemma aligned_Promise_all l : keeps stays_aligned (Promise_all l).
Proof. aligned_auto. Qed.
Lemma aligned_loader_request u : keeps stays_aligned (loader_request u).
Proof. aligned_auto. Qed.
Lemma aligned_tree_child l acc h : keeps stays_aligned (tree_child l acc h).
Proof. aligned_auto. Qed.

Lemma grows_then_ p f r : keeps grows (then_ p f r).
Proof. grows_auto. Qed.
Lemma grows_Promise_resolve x : keeps grows (Promise_resolve x).
Proof. grows_auto. Qed.
Lemma grows_Promise_all l : keeps grows (Promise_all l).
Proof. grows_auto. Qed.
Lemma grows_loader_request u : keeps grows (loader_request u).
Proof. grows_auto. Qed.
Lemma grows_tree_child l acc h : keeps grows (tree_child l acc h).
Proof. grows_auto. Qed.
Lemma grows_import_link u href acc link : keeps grows (import_link u href acc link).
Proof. grows_auto. Qed.

(** ** The loop over the imports of a tree node *)

Lemma loadedHrefs_get_ok lh h s d :
  visited s !! lh = Some d → loadedHrefs_get lh h s = (Ok (seen d h), s).
Proof.
  intros H. unfold loadedHrefs_get. erewrite bind_ok by reflexivity. by rewrite H.
Qed.

Lemma seen_insert_true d h k :
  seen (<[k := true]> d) h = if decide (h = k) then true else seen d h.
Proof.
  unfold seen, js_get. case_decide as E.
  - subst. by rewrite lookup_insert_eq.
  - by rewrite lookup_insert_ne.
Qed.

(** [then_] returns the next promise, whose history records the [then]. *)
Lemma then__spec p f r s :
  aligned s →
  ∃ s', then_ p f r s = (Ok (length (promises s)), s')
      ∧ history s' !! length (promises s)
        = Some {| h_origin := OThen p f r; h_parent := cur s; h_follows := None |}
      ∧ visited s' = visited s ∧ objs s' = objs s ∧ aligned s'.
Proof.
  intros Ha. unfold then_, perform_then, bind, get, alloc_promise, modify, enqueue, ret.
  cbn [fst snd promises set_history set_promises].
  assert ((history s ++ [{| h_origin := OThen p f r; h_parent := cur s;
                            h_follows := None |}]) !! length (promises s)
          = Some {| h_origin := OThen p f r; h_parent := cur s; h_follows := None |}) as Hh.
  { rewrite <- Ha. apply lookup_alloc. }
  destruct ((promises s ++ [Pending []]) !! p) as [[rs|o]|] eqn:E;
    (eexists; split; [reflexivity|]); cbn; (split; [exact Hh|]);
    (split; [done|]); (split; [done|]);
    unfold aligned in *; cbn; rewrite ?length_insert, !length_app; simpl; lia.
Qed.

Lemma tree_child_spec lh acc h s d :
  visited s !! lh = Some d → aligned s →
  ∃ p s', tree_child lh acc h s = (Ok (acc ++ [p]), s')
    ∧ visited s' !! lh = Some (if seen d h then d else <[h := true]> d)
    ∧ aligned s'
    ∧ is_child s' lh h (negb (seen d h)) p
    ∧ (seen d h = false →
       ∃ hp, history s' !! p = Some hp ∧
             h_origin hp = OThen (default (length (promises s)) (last acc))
                             (Some (cb_tree_next h lh)) None).
Proof.
  intros Hd Ha. unfold tree_child.
  erewrite bind_ok by (by apply loadedHrefs_get_ok).
  destruct (seen d h) eqn:Hseen; cbn [negb].
  - (* already visited: the placeholder *)
    erewrite bind_ok by reflexivity. erewrite bind_ok by reflexivity.
    eexists _, _. split; [reflexivity|]. split; [done|]. split.
    { unfold aligned in *. simpl. rewrite !length_app. simpl. lia. }
    split; [|done].
    exists (length (objs s)). simpl. split; apply lookup_alloc.
  - erewrite bind_ok by reflexivity. erewrite bind_ok by reflexivity.
    match goal with
    | |- context [bind (then_ ?src ?f ?r) _ ?s2] =>
        destruct (then__spec src f r s2) as (s3 & E & Hh & Hv & Ho & Ha3)
    end.
    { unfold aligned in *. simpl. rewrite !length_app. simpl. lia. }
    erewrite bind_ok by exact E.
    cbn in Hh, Hv. cbn.
    eexists _, _. split; [reflexivity|]. split.
    { rewrite Hv. rewrite Hd. rewrite list_lookup_insert_eq; [done|].
      by eapply lookup_lt_Some. }
    split; [done|]. split.
    + eexists _, _. split; [exact Hh|reflexivity].
    + intros _. eexists. split; [exact Hh|]. cbn. reflexivity.
Qed.

Lemma is_child_ext s s' lh h b p :
  ext s s' → grows s s' → is_child s lh h b p → is_child s' lh h b p.
Proof.
  intros E [G _]. destruct b; simpl.
  - intros (hp & src & H1 & H2).
    destruct (ext_history _ _ E _ _ H1) as (hp' & H1' & Ho & _).
    exists hp', src. split; [done|congruence].
  - intros (o & H1 & H2). exists o. split; [by apply E|].
    destruct G as [k ->]. by apply lookup_app_Some_l.
Qed.

Lemma tree_children_spec lh hrefs : ∀ acc s d,
  visited s !! lh = Some d → aligned s →
  ∃ ps s', forEach_acc hrefs (tree_child lh) acc s = (Ok (acc ++ ps), s')
    ∧ visited s' !! lh = Some (mark_all d hrefs)
    ∧ aligned s' ∧ ext s s' ∧ grows s s'
    ∧ Forall2 (λ hk p, is_child s' lh hk.1 hk.2 p) (zip hrefs (children_kinds d hrefs)) ps.
Proof.
  induction hrefs as [|h hrefs IH]; intros acc s d Hd Ha; simpl.
  - exists [], s. rewrite app_nil_r.
    do 3 (split; [done|]). do 2 (split; [reflexivity|]). simpl. constructor.
  - destruct (tree_child_spec lh acc h s d Hd Ha) as (p & s1 & E & Hd1 & Ha1 & Hc & Hch). clear Hch.
    pose proof (preserves_tree_child lh acc h s) as X1.
    pose proof (grows_tree_child lh acc h s) as G1.
    rewrite E in X1, G1. simpl in X1, G1.
    destruct (IH (acc ++ [p]) s1 _ Hd1 Ha1) as (ps & s' & E' & Hd' & Ha' & X2 & G2 & HF).
    exists (p :: ps), s'. erewrite bind_ok by exact E. rewrite E'.
    rewrite <- app_assoc. split; [done|]. split.
    { rewrite Hd'. by destruct (seen d h). }
    split; [done|]. split; [by etrans|]. split; [by etrans|].
    destruct (seen d h) eqn:Hs; simpl in *; constructor; try done;
      by eapply is_child_ext.
Qed.

Lemma children_kinds_lookup hrefs : ∀ d j h,
  hrefs !! j = Some h →
  children_kinds d hrefs !! j
  = Some (negb (seen d h || bool_decide (h ∈ take j hrefs))).
Proof.
  induction hrefs as [|h0 hrefs IH]; intros d j h Hj; [done|].
  destruct j as [|j]; simpl in *.
  - injection Hj as ->. rewrite ?orb_false_r. by destruct (seen d h).
  - destruct (seen d h0) eqn:Hs; simpl; rewrite (IH _ _ _ Hj); f_equal; f_equal.
    + destruct (decide (h = h0)) as [->|Hne].
      * rewrite Hs. done.
      * f_equal. apply bool_decide_ext. rewrite elem_of_cons. naive_solver.
    + rewrite seen_insert_true. destruct (decide (h = h0)) as [->|Hne].
      * rewrite (bool_decide_eq_true_2 (_ ∈ h0 :: _)) by apply list_elem_of_here.
        by rewrite orb_true_r.
      * f_equal. apply bool_decide_ext. rewrite elem_of_cons. naive_solver.
Qed.

(** The loop of lines 212-226: the entry for an address is the empty
    placeholder exactly when the address was already marked in
    [loadedHrefs] when the loop started or occurs earlier in the same list;
    otherwise the build of its subtree is started. *)
Lemma tree_children_decided
    (loadedHrefs : nat) (hrefs : list string) (s : State) (d : gmap string bool) :
  visited s !! loadedHrefs = Some d →
  aligned s →
  ∃ depMetadata s',
    forEach_acc hrefs (tree_child loadedHrefs) [] s = (Ok depMetadata, s')
    ∧ length depMetadata = length hrefs
    ∧ ∀ j href p, hrefs !! j = Some href → depMetadata !! j = Some p →
        if seen d href || bool_decide (href ∈ take j hrefs)
        then is_placeholder s' p
        else is_build s' loadedHrefs href p.
Proof.
  intros Hd Ha.
  destruct (tree_children_spec loadedHrefs hrefs [] s d Hd Ha)
    as (ps & s' & E & _ & _ & _ & _ & HF).
  exists ps, s'. split; [done|].
  pose proof (Forall2_length _ _ _ HF) as Hlen.
  assert (length (children_kinds d hrefs) = length hrefs) as Hk.
  { clear. revert d. induction hrefs as [|h l IH]; intros d; simpl; [done|].
    destruct (seen d h); simpl; by rewrite IH. }
  rewrite length_zip, Hk, Nat.min_id in Hlen. split; [done|].
  intros j href p Hj Hp.
  pose proof (children_kinds_lookup hrefs d j href Hj) as Hkind.
  assert (zip hrefs (children_kinds d hrefs) !! j
          = Some (href, negb (seen d href || bool_decide (href ∈ take j hrefs)))) as Hz.
  { rewrite lookup_zip_with, Hj. simpl. by rewrite Hkind. }
  pose proof (Forall2_lookup_lr _ _ _ _ _ _ HF Hz Hp) as Hc. simpl in Hc.
  by destruct (seen d href || bool_decide (href ∈ take j hrefs)).
Qed.

(** ** Operations that never throw *)

Lemma total_ret {A} (a : A) : total (ret a).
Proof. intros s. by eexists. Qed.

Lemma total_get : total get.
Proof. intros s. by eexists. Qed.

Lemma total_modify f : total (modify f).
Proof. intros s. by eexists. Qed.

Lemma total_bind {A B} (m : M A) (k : A → M B) :
  total m → (∀ a, total (k a)) → total (bind m k).
Proof.
  intros Hm Hk s. unfold bind. destruct (Hm s) as [a Ha].
  destruct (m s) as [[a'|e] s']; simpl in Ha; [|done]. apply Hk.
Qed.

Lemma total_forEach {A} (l : list A) (f : A → M unit) :
  (∀ x, total (f x)) → total (forEach l f).
Proof.
  intros Hf. induction l as [|x l IH]; simpl; [apply total_ret|].
  apply total_bind; [apply Hf|]. by intros _.
Qed.

Lemma total_forEach_acc {A B} (l : list A) (f : B → A → M B) acc :
  (∀ b x, total (f b x)) → total (forEach_acc l f acc).
Proof.
  intros Hf. revert acc. induction l as [|x l IH]; intros acc; simpl; [apply total_ret|].
  apply total_bind; [apply Hf|]. intros b. apply IH.
Qed.

Lemma total_forEach_index {A} (l : list A) i (f : nat → A → M unit) :
  (∀ i x, total (f i x)) → total (forEach_index l i f).
Proof.
  intros Hf. revert i. induction l as [|x l IH]; intros i; simpl; [apply total_ret|].
  apply total_bind; [apply Hf|]. intros _. apply IH.
Qed.

Ltac total_step :=
  lazymatch goal with
  | |- total (ret _) => apply total_ret
  | |- total get => apply total_get
  | |- total (modify _) => apply total_modify
  | |- total (bind _ _) => apply total_bind; [|intros ?]
  | |- total (forEach _ _) => apply total_forEach; intros ?
  | |- total (forEach_acc _ _ _) => apply total_forEach_acc; intros ? ?
  | |- total (forEach_index _ _ _) => apply total_forEach_index; intros ? ?
  | |- total (alloc_promise _ _) => intros ?; by eexists
  | |- total (alloc_all _) => intros ?; by eexists
  | |- total (alloc_obj _) => intros ?; by eexists
  | |- total (match _ with _ => _ end) => case_match
  | |- total (let '(_, _) := ?x in _) => destruct x
  | |- total _ =>
      progress unfold settle, perform_then, then_, Promise_resolve, all_check,
        all_store, all_input, Promise_all, loader_request, enqueue, import_link
  end.

Ltac total_auto := repeat total_step.

Lemma total_settle p o : total (settle p o).
Proof.
  unfold settle. intros s. unfold bind at 1. cbn [get fst snd].
  destruct (promises s !! p) as [[rs|]|]; try by eexists.
  revert s. change (total (modify (set_promises (λ ps, <[p:=Settled o]> ps)) ;;;
                           forEach rs (λ r, enqueue (JReact r o)))).
  total_auto.
Qed.

Lemma total_perform_then p r : total (perform_then p r).
Proof.
  unfold perform_then. intros s. unfold bind at 1. cbn [get fst snd].
  destruct (promises s !! p) as [[rs|]|]; by eexists.
Qed.

Lemma total_then_ p f r : total (then_ p f r).
Proof.
  unfold then_. apply total_bind; [intros ?; by eexists|]. intros t.
  apply total_bind; [apply total_perform_then|]. intros _. apply total_ret.
Qed.

Lemma total_Promise_resolve x : total (Promise_resolve x).
Proof. destruct x; simpl; first [apply total_ret | intros ?; by eexists]. Qed.

Lemma total_all_check a : total (all_check a).
Proof.
  unfold all_check. intros s. unfold bind at 1. cbn [get fst snd].
  destruct (alls s !! a); [|by eexists].
  destruct (forallb _ _); [apply total_settle|by eexists].
Qed.

Lemma total_Promise_all l : total (Promise_all l).
Proof.
  unfold Promise_all. intros s. unfold bind at 1. cbn [get fst snd]. revert s.
  match goal with |- ∀ s, ∃ a, (?m s).1 = Ok a =>
    assert (∀ n, total (c <- alloc_promise (Pending []) (OAll n) ;;
       a <- alloc_all {| a_values := replicate (length l) None; a_target := c;
                         a_inputs := [] |} ;;
       forEach_index l 0 (λ i x,
         nextPromise <- Promise_resolve x ;;
         all_input a nextPromise ;;;
         perform_then nextPromise (RAll a i)) ;;;
       all_check a ;;; ret c)) as H
  end.
  { intros n. apply total_bind; [intros ?; by eexists|]. intros c.
    apply total_bind; [intros ?; by eexists|]. intros a.
    apply total_bind.
    { apply total_forEach_index. intros i x.
      apply total_bind; [apply total_Promise_resolve|]. intros p.
      apply total_bind; [apply total_modify|]. intros _. apply total_perform_then. }
    intros _. apply total_bind; [apply total_all_check|]. intros _. apply total_ret. }
  intros s. apply H.
Qed.

Lemma total_loader_request u : total (loader_request u).
Proof.
  unfold loader_request. apply total_bind; [intros ?; by eexists|]. intros p.
  apply total_bind; [apply total_modify|]. intros _. apply total_ret.
Qed.

Lemma total_import_link u href acc link : total (import_link u href acc link).
Proof.
  unfold import_link. destruct acc. destruct (truthy_str _); [|apply total_ret].
  apply total_bind; [apply total_loader_request|]. intros p.
  apply total_bind; [apply total_then_|]. intros d. apply total_ret.
Qed.

(** A step that never throws hands its result on. *)
Lemma bind_run {A B} (m : M A) (k : A → M B) s :
  total m → ∃ a, m s = (Ok a, (m s).2) ∧ bind m k s = k a (m s).2.
Proof.
  intros Hm. destruct (Hm s) as [a Ha]. exists a. unfold bind.
  destruct (m s) as [[a'|e] s']; simpl in *; [|done]. by injection Ha as ->.
Qed.

(** ** Documents without scripts *)

Lemma call_reduce_nil importParse jsParse url_resolve s :
  call importParse jsParse url_resolve cb_reduce (VArray []) s
  = (Ok (VObj EMPTY_METADATA), s).
Proof. reflexivity. Qed.

Lemma write_obj_ok r o f s :
  objs s !! r = Some o →
  write_obj (VObj r) f s = (Ok tt, set_objs (λ l, <[r := f o]> l) s).
Proof.
  intros H. unfold write_obj. erewrite bind_ok by (by apply read_obj_ok). reflexivity.
Qed.

Lemma then__frame p f r s :
  objs (then_ p f r s).2 = objs s ∧ elems (then_ p f r s).2 = elems s
  ∧ this (then_ p f r s).2 = this s ∧ visited (then_ p f r s).2 = visited s.
Proof.
  unfold then_, perform_then, bind, get, alloc_promise, modify, enqueue, ret.
  cbn [fst snd promises set_history set_promises].
  destruct ((promises s ++ [Pending []]) !! p) as [[rs|o]|]; done.
Qed.

Section Scriptless.

Variable importParse : string → exn + Parsed.
Variable jsParse : string → bool → exn + ParsedJs.
Variable url_resolve : string → string → string.

Local Abbreviation parseHTML := (_parseHTML importParse jsParse url_resolve).
Local Abbreviation run_job' := (run_job importParse jsParse url_resolve).

Lemma total_import_links href links acc s0 :
  total (if loader (this s0)
         then forEach_acc links (import_link url_resolve href) acc
         else ret acc).
Proof.
  destruct (loader (this s0)); [|apply total_ret].
  apply total_forEach_acc. intros. apply total_import_link.
Qed.

Lemma preserves_import_links href links acc s0 :
  preserves (if loader (this s0)
             then forEach_acc links (import_link url_resolve href) acc
             else ret acc).
Proof.
  destruct (loader (this s0)); [|apply preserves_ret].
  apply preserves_forEach_acc. intros. apply preserves_import_link.
Qed.

Lemma grows_import_links href links acc s0 :
  keeps grows (if loader (this s0)
               then forEach_acc links (import_link url_resolve href) acc
               else ret acc).
Proof.
  destruct (loader (this s0)); [|apply (keeps_ret grows)].
  apply (keeps_forEach_acc grows). intros. apply grows_import_link.
Qed.

(** The tail of [_parseHTML], from the loop over the links on: it does not
    throw, and it only adds to what is there. *)
Lemma _parseHTML_tail href parsed htmlLoaded md s :
  ∃ c s',
    (s1 <- get ;;
     deps <- (if loader (this s1)
              then forEach_acc (p_import parsed) (import_link url_resolve href) ([], md.2)
              else ret ([], md.2)) ;;
     all <- Promise_all deps.2 ;;
     t <- then_ all (Some (cb_depHrefs deps.1)) None ;;
     c <- then_ t None (Some cb_rethrow) ;;
     let m := {| href := href; htmlLoaded := htmlLoaded;
                 metadataLoaded := md.1; depsLoaded := c |} in
     modify (set_this (set_html (λ h, <[href := m]> h))) ;;;
     ret (Own m)) s
    = (Ok (Own {| href := href; htmlLoaded := htmlLoaded;
                  metadataLoaded := md.1; depsLoaded := c |}), s')
    ∧ (∀ p o, promises s !! p = Some (Settled o) → promises s' !! p = Some (Settled o))
    ∧ (∀ p h, history s !! p = Some h →
              ∃ h', history s' !! p = Some h' ∧ h_origin h' = h_origin h)
    ∧ jobs s `prefix_of` jobs s'.
Proof.
  rewrite (bind_ok _ _ s s s) by reflexivity.
  destruct (bind_run _ (λ deps,
      all <- Promise_all deps.2 ;;
      t <- then_ all (Some (cb_depHrefs deps.1)) None ;;
      c <- then_ t None (Some cb_rethrow) ;;
      let m := {| href := href; htmlLoaded := htmlLoaded;
                  metadataLoaded := md.1; depsLoaded := c |} in
      modify (set_this (set_html (λ h, <[href := m]> h))) ;;;
      ret (Own m)) s (total_import_links href (p_import parsed) ([], md.2) s))
    as (deps & _ & ->).
  pose proof (preserves_import_links href (p_import parsed) ([], md.2) s s) as X1.
  pose proof (grows_import_links href (p_import parsed) ([], md.2) s s) as [_ G1].
  set (s2 := (_ s).2) in *. clearbody s2.
  destruct (bind_run (Promise_all deps.2) (λ all,
      t <- then_ all (Some (cb_depHrefs deps.1)) None ;;
      c <- then_ t None (Some cb_rethrow) ;;
      let m := {| href := href; htmlLoaded := htmlLoaded;
                  metadataLoaded := md.1; depsLoaded := c |} in
      modify (set_this (set_html (λ h, <[href := m]> h))) ;;;
      ret (Own m)) s2 (total_Promise_all _)) as (all & _ & ->).
  pose proof (preserves_Promise_all deps.2 s2) as X2.
  pose proof (grows_Promise_all deps.2 s2) as [_ G2].
  set (s3 := (_ s2).2) in *. clearbody s3.
  destruct (bind_run (then_ all (Some (cb_depHrefs deps.1)) None) (λ t,
      c <- then_ t None (Some cb_rethrow) ;;
      let m := {| href := href; htmlLoaded := htmlLoaded;
                  metadataLoaded := md.1; depsLoaded := c |} in
      modify (set_this (set_html (λ h, <[href := m]> h))) ;;;
      ret (Own m)) s3 (total_then_ _ _ _)) as (t & _ & ->).
  pose proof (preserves_then_ all (Some (cb_depHrefs deps.1)) None s3) as X3.
  pose proof (grows_then_ all (Some (cb_depHrefs deps.1)) None s3) as [_ G3].
  set (s4 := (_ s3).2) in *. clearbody s4.
  destruct (bind_run (then_ t None (Some cb_rethrow)) (λ c,
      let m := {| href := href; htmlLoaded := htmlLoaded;
                  metadataLoaded := md.1; depsLoaded := c |} in
      modify (set_this (set_html (λ h, <[href := m]> h))) ;;;
      ret (Own m)) s4 (total_then_ _ _ _)) as (c & _ & ->).
  pose proof (preserves_then_ t None (Some cb_rethrow) s4) as X4.
  pose proof (grows_then_ t None (Some cb_rethrow) s4) as [_ G4].
  set (s5 := (_ s4).2) in *. clearbody s5.
  exists c,
    (set_this (set_html (λ h, <[href := {| href := href; htmlLoaded := htmlLoaded;
                                           metadataLoaded := md.1; depsLoaded := c |}]> h))
       s5).
  split; [reflexivity|].
  assert (ext s s5) as X by (etrans; [exact X1|]; etrans; [exact X2|]; by etrans).
  cbn [promises history jobs set_this]. split; [|split].
  - intros p o. apply X.
  - intros p h H. destruct (ext_history _ _ X _ _ H) as (h' & ? & ? & _). eauto.
  - etrans; [exact G1|]. etrans; [exact G2|]. by etrans.
Qed.

(** With no [script] property, [metadataLoaded] is the promise made at line
    111: it is fulfilled with [EMPTY_METADATA] from the start. *)
Lemma _parseHTML_without_script_property htmlImport href parsed s :
  js_in href (html (this s)) = false →
  importParse htmlImport = inr parsed →
  p_script parsed = None →
  ∃ m s', parseHTML htmlImport href s = (Ok (Own m), s')
        ∧ promises s' !! metadataLoaded m
          = Some (Settled (Fulfilled (VObj EMPTY_METADATA))).
Proof.
  intros Hin Hp Hs. unfold _parseHTML.
  rewrite (bind_ok _ _ s s s) by reflexivity. rewrite Hin.
  erewrite bind_ok by reflexivity. erewrite bind_ok by reflexivity.
  rewrite Hp. erewrite bind_ok by reflexivity. erewrite bind_ok by reflexivity.
  rewrite Hs. erewrite bind_ok by reflexivity.
  match goal with |- ∃ m s', ?k ?s4 = _ ∧ _ =>
    pose proof (_parseHTML_tail href parsed (length (promises s) + 1)
                  (length (promises s), @nil value) s4) as (c & s' & E & Hset & _)
  end.
  cbn [fst snd] in E.
  eexists _, s'. split.
  - etrans; [|exact E]. cbn. rewrite !length_app. reflexivity.
  - cbn [metadataLoaded]. apply Hset. cbn.
    apply lookup_app_Some_l, lookup_alloc.
Qed.

Lemma Promise_all_nil s :
  ∃ s', Promise_all [] s = (Ok (length (promises s)), s')
      ∧ promises s' = promises s ++ [Settled (Fulfilled (VArray []))]
      ∧ jobs s' = jobs s
      ∧ html (this s') = html (this s).
Proof.
  unfold Promise_all. rewrite (bind_ok _ _ s s s) by reflexivity.
  erewrite bind_ok by reflexivity. erewrite bind_ok by reflexivity.
  erewrite bind_ok by reflexivity.
  unfold all_check. erewrite bind_ok; last first.
  { erewrite bind_ok by reflexivity. cbn [alls set_alls set_history set_promises].
    rewrite lookup_alloc. cbn [forallb a_values replicate length a_target].
    unfold settle. erewrite bind_ok by reflexivity.
    cbn [promises set_alls set_history set_promises]. rewrite lookup_alloc.
    erewrite bind_ok by reflexivity. reflexivity. }
  eexists. split; [reflexivity|]. cbn.
  rewrite insert_app_r_alt by lia. rewrite Nat.sub_diag. done.
Qed.

(** With an empty list of scripts, [metadataLoaded] is the [then] of line
    156 on [Promise.all([])]: its job is queued with the empty array. *)
Lemma _processScripts_nil href s :
  ∃ s', _processScripts jsParse url_resolve [] href s
        = (Ok (length (promises s) + 1), s')
      ∧ promises s' !! length (promises s) = Some (Settled (Fulfilled (VArray [])))
      ∧ jobs s' = jobs s ++ [JReact (RThen (Some cb_reduce) None (length (promises s) + 1))
                                     (Fulfilled (VArray []))]
      ∧ html (this s') = html (this s).
Proof.
  unfold _processScripts. erewrite bind_ok by reflexivity.
  destruct (Promise_all_nil s) as (s1 & E & Hp & Hj & Hh).
  erewrite bind_ok by exact E.
  unfold then_. erewrite bind_ok by reflexivity.
  unfold perform_then. erewrite bind_ok; last first.
  { erewrite bind_ok by reflexivity. cbn [promises set_history set_promises].
    rewrite Hp. rewrite lookup_app_l by (rewrite length_app; simpl; lia).
    rewrite lookup_alloc. reflexivity. }
  eexists. split.
  { rewrite Hp, length_app. reflexivity. }
  cbn. rewrite Hp, Hj, Hh. split; [|done].
  rewrite lookup_app_l by (rewrite length_app; simpl; lia). apply lookup_alloc.
Qed.

Lemma _parseHTML_with_no_script htmlImport href parsed s :
  js_in href (html (this s)) = false →
  importParse htmlImport = inr parsed →
  p_script parsed = Some [] →
  ∃ m s' a,
    parseHTML htmlImport href s = (Ok (Own m), s')
    ∧ promises s' !! a = Some (Settled (Fulfilled (VArray [])))
    ∧ JReact (RThen (Some cb_reduce) None (metadataLoaded m)) (Fulfilled (VArray []))
      ∈ jobs s'.
Proof.
  intros Hin Hp Hs. unfold _parseHTML.
  rewrite (bind_ok _ _ s s s) by reflexivity. rewrite Hin.
  erewrite bind_ok by reflexivity. erewrite bind_ok by reflexivity.
  rewrite Hp. erewrite bind_ok by reflexivity. erewrite bind_ok by reflexivity.
  rewrite Hs.
  match goal with |- context [_processScripts _ _ _ _ ;; _] => idtac | _ => idtac end.
  match goal with |- ∃ m s' a, bind (bind ?ps ?k1) ?k ?s3 = _ ∧ _ =>
    destruct (_processScripts_nil href s3) as (s4 & E & Hall & Hj & _);
    rewrite (bind_ok (bind ps k1) k s3 (length (promises s3) + 1,
                                         [VPromise (length (promises s3) + 1)]) s4)
      by (erewrite bind_ok by exact E; reflexivity);
    pose proof (_parseHTML_tail href parsed (length (promises s) + 1)
                  (length (promises s3) + 1, [VPromise (length (promises s3) + 1)]) s4)
      as (c & s' & E' & Hset & _ & Hjobs)
  end.
  cbn [fst snd] in E'.
  eexists _, s', _. split; [|split].
  - etrans; [|exact E']. cbn. rewrite !length_app. reflexivity.
  - apply Hset, Hall.
  - cbn [metadataLoaded]. destruct Hjobs as [k ->]. rewrite Hj.
    apply elem_of_app. left. apply elem_of_app. right. apply list_elem_of_here.
Qed.

(** Running that job fulfils [metadataLoaded] with [EMPTY_METADATA] itself:
    [reduce] over no result returns its initial value. *)
Lemma reduce_job_fulfils_with_EMPTY_METADATA t rs s :
  promises s !! t = Some (Pending rs) →
  promises (run_job' (JReact (RThen (Some cb_reduce) None t) (Fulfilled (VArray []))) s).2
    !! t = Some (Settled (Fulfilled (VObj EMPTY_METADATA))).
Proof.
  intros Ht. cbn [run_job]. unfold complete. rewrite call_reduce_nil.
  cbn [note_returned]. erewrite bind_ok by reflexivity.
  cbn [resolve]. unfold settle. erewrite bind_ok by reflexivity.
  cbn [promises set_cur]. rewrite Ht.
  erewrite bind_ok by reflexivity.
  match goal with |- promises (?m ?s0).2 !! _ = _ =>
    assert (preserves m) as X
      by (apply preserves_forEach; intros; apply preserves_enqueue);
    apply (ext_settled _ _ (X s0))
  end.
  cbn. apply list_lookup_insert_eq. by eapply lookup_lt_Some.
Qed.

(** The tree callbacks write onto the object they are given and hand the
    same object on. *)
Lemma tree_imports_writes_in_place (m : HTMLMonomer) r o l s :
  objs s !! r = Some o →
  ∃ t s', call importParse jsParse url_resolve (cb_tree_imports m (VObj r)) (VArray l) s
          = (Ok (VPromise t), s')
        ∧ objs s' = <[r := with_href (href m) (with_imports l o)]> (objs s)
        ∧ (aligned s →
           ∃ h, history s' !! t = Some h ∧
                h_origin h = OThen (htmlLoaded m) (Some (cb_tree_html (VObj r))) None).
Proof.
  intros Hr. cbn [call].
  erewrite bind_ok by (by apply write_obj_ok).
  erewrite bind_ok; last first.
  { apply write_obj_ok. cbn. apply list_lookup_insert_eq. by eapply lookup_lt_Some. }
  match goal with |- context [bind (then_ ?p ?f ?x) ?k ?s2] =>
    destruct (bind_run (then_ p f x) k s2 (total_then_ _ _ _)) as (t & Et & ->);
    pose proof (then__frame p f x s2) as (Ho & _);
    pose proof (then__spec p f x s2) as Hspec
  end.
  eexists _, _. split; [reflexivity|]. split.
  - rewrite Ho. cbn. by rewrite list_insert_insert_eq.
  - intros Ha. destruct Hspec as (s3 & E3 & Hh & _); [exact Ha|].
    rewrite E3 in Et |- *. cbn [snd] in *. injection Et as <-. eauto.
Qed.

Lemma tree_html_writes_in_place r o parsedHtml s :
  objs s !! r = Some o → o_elements o = Some [] →
  call importParse jsParse url_resolve (cb_tree_html (VObj r)) (VParsed parsedHtml) s
  = (Ok (VObj r), set_objs (λ l, <[r := with_html parsedHtml o]> l) s).
Proof.
  intros Hr He. cbn [call].
  erewrite bind_ok by (by apply write_obj_ok).
  erewrite bind_ok; last first.
  { apply read_obj_ok. cbn. apply list_lookup_insert_eq. by eapply lookup_lt_Some. }
  cbn [o_elements with_html]. rewrite He. reflexivity.
Qed.

End Scriptless.

(** A document without script nodes gets [EMPTY_METADATA] itself as its
    metadata, by either way of having no script; the last two tree
    callbacks, run for one document and then for another on that object,
    leave on it what was written for the second. *)
Lemma scriptless_metadata_is_EMPTY_METADATA
    (importParse : string → exn + Parsed) (jsParse : string → bool → exn + ParsedJs)
    (url_resolve : string → string → string) :
  (∀ htmlImport href parsed s,
      js_in href (html (this s)) = false →
      importParse htmlImport = inr parsed →
      p_script parsed = None →
      ∃ m s', _parseHTML importParse jsParse url_resolve htmlImport href s
              = (Ok (Own m), s')
            ∧ promises s' !! metadataLoaded m
              = Some (Settled (Fulfilled (VObj EMPTY_METADATA))))
  ∧ (∀ htmlImport href parsed s,
      js_in href (html (this s)) = false →
      importParse htmlImport = inr parsed →
      p_script parsed = Some [] →
      ∃ m s', _parseHTML importParse jsParse url_resolve htmlImport href s
              = (Ok (Own m), s')
            ∧ JReact (RThen (Some cb_reduce) None (metadataLoaded m))
                     (Fulfilled (VArray [])) ∈ jobs s'
            ∧ ∀ s'' rs,
                promises s'' !! metadataLoaded m = Some (Pending rs) →
                promises (run_job importParse jsParse url_resolve
                            (JReact (RThen (Some cb_reduce) None (metadataLoaded m))
                                    (Fulfilled (VArray []))) s'').2
                  !! metadataLoaded m
                = Some (Settled (Fulfilled (VObj EMPTY_METADATA))))
  ∧ (∀ (m1 m2 : HTMLMonomer) l1 l2 parsed1 parsed2 o s,
      objs s !! EMPTY_METADATA = Some o →
      o_elements o = Some [] →
      ∃ t1 s1 s2 t2 s3 s4,
        call importParse jsParse url_resolve (cb_tree_imports m1 (VObj EMPTY_METADATA))
          (VArray l1) s = (Ok (VPromise t1), s1)
        ∧ call importParse jsParse url_resolve (cb_tree_html (VObj EMPTY_METADATA))
            (VParsed parsed1) s1 = (Ok (VObj EMPTY_METADATA), s2)
        ∧ call importParse jsParse url_resolve (cb_tree_imports m2 (VObj EMPTY_METADATA))
            (VArray l2) s2 = (Ok (VPromise t2), s3)
        ∧ call importParse jsParse url_resolve (cb_tree_html (VObj EMPTY_METADATA))
            (VParsed parsed2) s3 = (Ok (VObj EMPTY_METADATA), s4)
        ∧ objs s2 !! EMPTY_METADATA
          = Some {| o_elements := Some []; o_modules := o_modules o;
                    o_imports := Some l1; o_href := Some (href m1);
                    o_html := Some parsed1 |}
        ∧ objs s4 !! EMPTY_METADATA
          = Some {| o_elements := Some []; o_modules := o_modules o;
                    o_imports := Some l2; o_href := Some (href m2);
                    o_html := Some parsed2 |}).
Proof.
  split; [|split].
  - intros. by eapply _parseHTML_without_script_property.
  - intros htmlImport href parsed s Hin Hp Hs.
    destruct (_parseHTML_with_no_script importParse jsParse url_resolve
                htmlImport href parsed s Hin Hp Hs) as (m & s' & a & E & _ & Hj).
    exists m, s'. split; [done|]. split; [done|].
    intros s'' rs. apply reduce_job_fulfils_with_EMPTY_METADATA.
  - intros m1 m2 l1 l2 parsed1 parsed2 o s Ho He.
    assert (EMPTY_METADATA < length (objs s)) as Hlen by (by eapply lookup_lt_Some).
    destruct (tree_imports_writes_in_place importParse jsParse url_resolve
                m1 _ _ l1 s Ho) as (t1 & s1 & E1 & Ho1 & _).
    assert (objs s1 !! EMPTY_METADATA
            = Some (with_href (href m1) (with_imports l1 o))) as Ho1'.
    { rewrite Ho1. by apply list_lookup_insert_eq. }
    pose proof (tree_html_writes_in_place importParse jsParse url_resolve
                  _ _ parsed1 s1 Ho1' He) as E2.
    set (s2 := set_objs _ s1) in E2.
    assert (objs s2 !! EMPTY_METADATA
            = Some {| o_elements := Some []; o_modules := o_modules o;
                      o_imports := Some l1; o_href := Some (href m1);
                      o_html := Some parsed1 |}) as Ho2.
    { subst s2. cbn [objs set_objs]. rewrite list_lookup_insert_eq.
      - unfold with_html, with_href, with_imports. cbn. by rewrite He.
      - rewrite Ho1, length_insert. done. }
    destruct (tree_imports_writes_in_place importParse jsParse url_resolve
                m2 _ _ l2 s2 Ho2) as (t2 & s3 & E3 & Ho3 & _).
    assert (EMPTY_METADATA < length (objs s2)) as Hlen2 by (by eapply lookup_lt_Some).
    match type of Ho3 with _ = <[_ := ?x]> _ =>
      assert (objs s3 !! EMPTY_METADATA = Some x) as Ho3'
        by (rewrite Ho3; by apply list_lookup_insert_eq)
    end.
    pose proof (tree_html_writes_in_place importParse jsParse url_resolve
                  _ _ parsed2 s3 Ho3' eq_refl) as E4.
    eexists t1, s1, s2, t2, s3, _.
    split; [exact E1|]. split; [exact E2|]. split; [exact E3|]. split; [exact E4|].
    split; [exact Ho2|].
    cbn [objs set_objs]. rewrite list_lookup_insert_eq; [done|].
    rewrite Ho3, length_insert. done.
Qed.

(** ** Failures of the document parser *)

Lemma js_in_empty {V} k : js_in k (∅ : gmap string V) = inherited k.
Proof.
  unfold js_in. rewrite bool_decide_eq_false_2; [done|].
  rewrite lookup_empty. by intros [? ?].
Qed.

Lemma occurrences_snoc k l : occurrences k (l ++ [k]) = occurrences k l + 1.
Proof.
  rewrite occurrences_app. unfold occurrences at 2.
  rewrite filter_cons_True by done. by rewrite filter_nil.
Qed.

Lemma docs_leaf_settle p o : keeps same_docs (settle p o).
Proof. docs. Qed.

Section ParseFailure.

Variable importParse : string → exn + Parsed.
Variable jsParse : string → bool → exn + ParsedJs.
Variable url_resolve : string → string → string.

(** What [_parseHTML] does with a text that [importParse] rejects, at an
    address that is not in the table. *)
Lemma _parseHTML_parse_failure htmlImport href err s :
  js_in href (html (this s)) = false →
  importParse htmlImport = inl err →
  ∃ s', _parseHTML importParse jsParse url_resolve htmlImport href s = (Throw err, s')
      ∧ this s' = this s
      ∧ parses s' = parses s ++ [href]
      ∧ requests s' = requests s
      ∧ jobs s' = jobs s
      ∧ promises s' = promises s ++ [Settled (Fulfilled (VObj EMPTY_METADATA))].
Proof.
  intros Hin Hp. unfold _parseHTML.
  rewrite (bind_ok _ _ s s s) by reflexivity. rewrite Hin.
  erewrite bind_ok by reflexivity. erewrite bind_ok by reflexivity.
  rewrite Hp. eexists. split; [reflexivity|]. done.
Qed.

(** The constructor on a root document that does not parse throws the
    parser's error: there is no instance, no document is registered and the
    loader was not called. *)
Theorem constructor_rethrows_parse_failure htmlImport attachAST href loader err :
  inherited href = false →
  importParse htmlImport = inl err →
  ∃ s, Monomers_new importParse jsParse url_resolve htmlImport attachAST href loader
       = (Throw err, s)
     ∧ html (this s) = ∅ ∧ root (this s) = Undefined
     ∧ parses s = [href] ∧ requests s = [].
Proof.
  intros Hi Hp. unfold Monomers_new.
  destruct (_parseHTML_parse_failure htmlImport href err (initial loader attachAST))
    as (s' & E & Ht & Hl & Hr & _);
    [change (js_in href (∅ : gmap string HTMLMonomer) = false); by rewrite js_in_empty|done|].
  exists s'. erewrite bind_throw by exact E.
  rewrite Ht, Hl, Hr. done.
Qed.

(** A document whose text does not parse is not memoised: the next resolve
    of the same address calls the parser again, and fails again. *)
Theorem failed_parse_is_parsed_again htmlImport href err s :
  js_in href (html (this s)) = false →
  importParse htmlImport = inl err →
  ∃ s1 s2,
    _parseHTML importParse jsParse url_resolve htmlImport href s = (Throw err, s1)
    ∧ _parseHTML importParse jsParse url_resolve htmlImport href s1 = (Throw err, s2)
    ∧ occurrences href (parses s2) = occurrences href (parses s) + 2
    ∧ html (this s2) = html (this s).
Proof.
  intros Hin Hp.
  destruct (_parseHTML_parse_failure htmlImport href err s Hin Hp)
    as (s1 & E1 & Ht1 & Hl1 & _).
  destruct (_parseHTML_parse_failure htmlImport href err s1) as (s2 & E2 & Ht2 & Hl2 & _);
    [by rewrite Ht1|done|].
  exists s1, s2. split; [done|]. split; [done|].
  rewrite Hl2, Hl1, !occurrences_snoc, Ht2, Ht1. split; [lia|done].
Qed.

(** The job of the callback of lines 132-134, for a fetched text that does
    not parse: the dependency promise is rejected with the parser's error
    and the table of documents is as before. *)
Theorem import_of_unparsable_document_rejects resolvedUrl content err t rs s :
  promises s !! t = Some (Pending rs) →
  js_in resolvedUrl (html (this s)) = false →
  importParse content = inl err →
  let s' := (run_job importParse jsParse url_resolve
               (JReact (RThen (Some (cb_import resolvedUrl)) None t)
                       (Fulfilled (VString content))) s).2 in
  promises s' !! t = Some (Settled (Rejected err))
  ∧ html (this s') = html (this s).
Proof.
  intros Ht Hin Hp s'. subst s'. cbn [run_job]. unfold complete. cbn [call].
  destruct (_parseHTML_parse_failure content resolvedUrl err
              (set_cur (λ _, Some t) s)) as (s1 & E & Hthis & _ & _ & _ & Hps); [done..|].
  erewrite bind_throw by exact E.
  pose proof (preserves_settle t (Rejected err) s1) as X.
  pose proof (docs_leaf_settle t (Rejected err) s1) as [D _].
  split.
  - unfold settle. rewrite (bind_ok _ _ s1 s1 s1) by reflexivity.
    rewrite Hps. cbn [promises set_cur]. rewrite (lookup_app_Some_l _ _ _ _ Ht).
    erewrite bind_ok by reflexivity.
    match goal with |- promises (?m ?s0).2 !! _ = _ =>
      assert (preserves m) as Y
        by (apply preserves_forEach; intros; apply preserves_enqueue);
      apply (ext_settled _ _ (Y s0))
    end.
    cbn [promises set_promises]. apply list_lookup_insert_eq.
    eapply lookup_lt_Some. rewrite Hps. apply lookup_app_Some_l. exact Ht.
  - rewrite D. by rewrite Hthis.
Qed.

End ParseFailure.

Lemma insert_alloc {A} (l : list A) x y : <[length l := y]> (l ++ [x]) = l ++ [y].
Proof. rewrite insert_app_r_alt by lia. by rewrite Nat.sub_diag. Qed.

(** [then] on a pending promise: a new pending promise, and one more
    reaction on the promise. *)
Lemma then__on_pending p f r rs s :
  promises s !! p = Some (Pending rs) →
  ∃ s', then_ p f r s = (Ok (length (promises s)), s')
      ∧ promises s' = <[p := Pending (rs ++ [RThen f r (length (promises s))])]>
                        (promises s ++ [Pending []])
      ∧ requests s' = requests s ∧ this s' = this s ∧ jobs s' = jobs s.
Proof.
  intros Hp. unfold then_. erewrite bind_ok by reflexivity.
  unfold perform_then. erewrite bind_ok; last first.
  { erewrite bind_ok by reflexivity. cbn [promises set_history set_promises].
    rewrite (lookup_app_l_Some _ _ _ _ Hp). reflexivity. }
  eexists. split; [reflexivity|]. done.
Qed.

(** ** Scripts *)

Section Scripts.

Variable jsParse : string → bool → exn + ParsedJs.
Variable url_resolve : string → string → string.

(** A script with a [src], on an instance without loader: nothing is
    fetched, parsed or registered, and the script's promise is already
    fulfilled with [EMPTY_METADATA]. *)
Theorem external_script_without_loader_is_empty script href s :
  truthy_str (getAttribute script "src") = true →
  loader (this s) = false →
  ∃ s', _processScript jsParse url_resolve script href s
        = (Ok (VPromise (length (promises s))), s')
      ∧ promises s' = promises s ++ [Settled (Fulfilled (VObj EMPTY_METADATA))]
      ∧ requests s' = requests s ∧ this s' = this s
      ∧ objs s' = objs s ∧ jobs s' = jobs s.
Proof.
  intros Hsrc Hl. unfold _processScript. rewrite Hsrc. cbn [negb].
  rewrite (bind_ok _ _ s s s) by reflexivity. rewrite Hl.
  erewrite bind_ok by reflexivity. eexists. split; [reflexivity|]. done.
Qed.

(** An inline script without a child node ([<script></script>]): line 165
    reads [.value] of [undefined]. An inline script whose text [jsParse]
    rejects throws what [jsParse] threw. Nothing is registered either way. *)
Lemma inline_script_failure script href e s :
  truthy_str (getAttribute script "src") = false →
  (childNodes script = [] ∧ e = JsTypeError "Cannot read property 'value' of undefined")
  ∨ (∃ body rest, childNodes script = body :: rest
                  ∧ jsParse body (attachAST (this s)) = inl e) →
  _processScript jsParse url_resolve script href s = (Throw e, s).
Proof.
  intros Hsrc [[Hc ->]|(body & rest & Hc & Hp)]; unfold _processScript;
    rewrite Hsrc, Hc; [reflexivity|].
  cbn [negb]. erewrite bind_ok by reflexivity.
  rewrite (bind_ok _ _ s s s) by reflexivity. rewrite Hp. reflexivity.
Qed.

(** A script with a [src], on an instance with a loader: one request, for
    the [src] resolved against the document's address; the script's
    promise is pending until the loader answers, and nothing is registered
    yet. *)
Theorem external_script_is_requested_once script href src s :
  getAttribute script "src" = Some src → src ≠ "" →
  loader (this s) = true →
  ∃ s', _processScript jsParse url_resolve script href s
        = (Ok (VPromise (length (promises s) + 2)), s')
      ∧ requests s' = requests s ++ [(length (promises s), url_resolve href src)]
      ∧ promises s' = promises s ++
          [Pending [RThen (Some (cb_script script href)) None (length (promises s) + 1)];
           Pending [RThen None (Some cb_rethrow) (length (promises s) + 2)];
           Pending []]
      ∧ this s' = this s ∧ jobs s' = jobs s.
Proof.
  intros Hsrc Hne Hl. unfold _processScript. rewrite Hsrc.
  cbn [truthy_str]. rewrite bool_decide_eq_false_2 by done. cbn [negb default].
  rewrite (bind_ok _ _ s s s) by reflexivity. rewrite Hl.
  erewrite bind_ok by reflexivity.
  match goal with
  | |- context [bind (then_ ?p ?f ?r) _ ?s1] =>
      destruct (then__on_pending p f r [] s1) as (s2 & E2 & Hp2 & Hr2 & Ht2 & Hj2)
  end.
  { cbn. apply lookup_alloc. }
  erewrite bind_ok by exact E2. cbn in Hp2, Hr2, Ht2, Hj2.
  rewrite insert_app_l, insert_alloc, length_app in Hp2
    by (rewrite length_app; simpl; lia).
  cbn [length] in Hp2. rewrite <- app_assoc in Hp2. cbn [app] in Hp2.
  match goal with
  | |- context [bind (then_ ?p ?f ?r) _ s2] =>
      destruct (then__on_pending p f r [] s2) as (s3 & E3 & Hp3 & Hr3 & Ht3 & Hj3)
  end.
  { rewrite Hp2. cbn. rewrite length_app. cbn [length].
    rewrite lookup_app_r by lia.
    replace (length (promises s) + 1 - length (promises s)) with 1 by lia. done. }
  erewrite bind_ok by exact E3.
  exists s3. split.
  { cbn. rewrite Hp2, !length_app. cbn. do 3 f_equal; lia. }
  rewrite Hr3, Hr2, Ht3, Ht2, Hj3, Hj2. split; [done|]. split; [|done].
  rewrite Hp3, Hp2. cbn. rewrite !length_app. cbn [length].
  rewrite <- app_assoc. cbn [app].
  rewrite insert_app_r_alt by lia.
  replace (length (promises s) + 1 - length (promises s)) with 1 by lia.
  cbn. do 6 f_equal; lia.
Qed.

End Scripts.

(** ** A document whose first script fails *)

Section ScriptFailure.

Variable importParse : string → exn + Parsed.
Variable jsParse : string → bool → exn + ParsedJs.
Variable url_resolve : string → string → string.

(** If the first script of a document is an inline script that is empty or
    that [jsParse] rejects, [_parseHTML] throws (the TypeError of
    [childNodes[0].value], or what [jsParse] threw) before the document is
    registered: the table, the registry of elements and the loader's log
    are as before, and the later scripts are not looked at. *)
Theorem failing_first_script_leaves_document_unregistered
    htmlImport href parsed script rest e s :
  js_in href (html (this s)) = false →
  importParse htmlImport = inr parsed →
  p_script parsed = Some (script :: rest) →
  truthy_str (getAttribute script "src") = false →
  (childNodes script = [] ∧ e = JsTypeError "Cannot read property 'value' of undefined")
  ∨ (∃ body more, childNodes script = body :: more
                  ∧ jsParse body (attachAST (this s)) = inl e) →
  ∃ s', _parseHTML importParse jsParse url_resolve htmlImport href s = (Throw e, s')
      ∧ this s' = this s ∧ requests s' = requests s ∧ jobs s' = jobs s
      ∧ parses s' = parses s ++ [href].
Proof.
  intros Hin Hp Hs Hsrc Hfail. unfold _parseHTML.
  rewrite (bind_ok _ _ s s s) by reflexivity. rewrite Hin.
  erewrite bind_ok by reflexivity. erewrite bind_ok by reflexivity.
  rewrite Hp. erewrite bind_ok by reflexivity. erewrite bind_ok by reflexivity.
  rewrite Hs.
  erewrite bind_throw; last first.
  { erewrite bind_throw; [reflexivity|].
    unfold _processScripts. erewrite bind_throw; [reflexivity|].
    cbn [forEach_acc]. erewrite bind_throw; [reflexivity|].
    erewrite bind_throw; [reflexivity|].
    apply inline_script_failure; [done|exact Hfail]. }
  eexists. split; [reflexivity|]. done.
Qed.

End ScriptFailure.

(** ** Addresses that name a property of [Object.prototype] *)

Section PrototypeKeys.

Variable importParse : string → exn + Parsed.
Variable jsParse : string → bool → exn + ParsedJs.
Variable url_resolve : string → string → string.

(** [this.html] is created as [{}]. For a root address such as
    [constructor] or [toString] the test [href in this.html] of line 106
    holds from the start: the constructor parses nothing, registers
    nothing, and [root] is what [Object.prototype] has under that name.
    [metadataTree()] then throws the TypeError of calling [then] on
    [undefined]. *)
Theorem prototype_named_root_is_never_parsed htmlImport attachAST href loader :
  inherited href = true →
  ∃ s, Monomers_new importParse jsParse url_resolve htmlImport attachAST href loader
       = (Ok tt, s)
     ∧ root (this s) = Builtin ∧ html (this s) = ∅ ∧ parses s = []
     ∧ promises s = []
     ∧ ∃ s', metadataTree s
             = (Throw (JsTypeError "Cannot read property 'then' of undefined"), s').
Proof.
  intros Hi. unfold Monomers_new.
  assert (js_in href (html (this (initial loader attachAST))) = true) as Hin.
  { change (js_in href (∅ : gmap string HTMLMonomer) = true). by rewrite js_in_empty. }
  erewrite bind_ok; last first.
  { unfold _parseHTML.
    rewrite (bind_ok _ _ (initial loader attachAST) (initial loader attachAST)
               (initial loader attachAST)) by reflexivity.
    rewrite Hin.
    unfold js_get. cbn [html this initial]. rewrite lookup_empty, Hi. reflexivity. }
  eexists. split; [reflexivity|]. cbn. do 4 (split; [done|]).
  eexists. reflexivity.
Qed.

End PrototypeKeys.

(** ** Fetched scripts *)

Lemma getAttribute_attrs_None l name :
  toLowerCase name ∉ (λ a, toLowerCase (attr_name a)) <$> l →
  getAttribute_attrs l name = None.
Proof.
  induction l as [|b l IH]; simpl; [done|].
  rewrite not_elem_of_cons. intros [Hb Hl].
  rewrite decide_False by done. by apply IH.
Qed.

Lemma getAttribute_removeAttribute l name :
  NoDup ((λ a, toLowerCase (attr_name a)) <$> l) →
  getAttribute_attrs (removeAttribute_attrs l name) name = None.
Proof.
  induction l as [|a l IH]; simpl; [done|]. intros H. apply NoDup_cons in H as [Ha Hl].
  destruct (decide (toLowerCase (attr_name a) = toLowerCase name)) as [Heq|Hne].
  - apply getAttribute_attrs_None. by rewrite <- Heq.
  - simpl. rewrite decide_False by done. by apply IH.
Qed.

Lemma forEach_enqueue_frame rs o s :
  requests (forEach rs (λ r, enqueue (JReact r o)) s).2 = requests s
  ∧ this (forEach rs (λ r, enqueue (JReact r o)) s).2 = this s.
Proof.
  revert s. induction rs as [|r rs IH]; intros s; [done|].
  cbn [forEach].
  change ((enqueue (JReact r o) ;;; forEach rs (λ r, enqueue (JReact r o))) s)
    with (forEach rs (λ r, enqueue (JReact r o)) (set_jobs (λ q, q ++ [JReact r o]) s)).
  destruct (IH (set_jobs (λ q, q ++ [JReact r o]) s)) as [-> ->]. done.
Qed.

Section FetchedScript.

Variable importParse : string → exn + Parsed.
Variable jsParse : string → bool → exn + ParsedJs.
Variable url_resolve : string → string → string.

(** The job of the callback of lines 187-193, for a script element whose
    attributes have names that are distinct also when case is ignored (as
    those of a parse5 element are): the text the
    loader delivered is handed to [jsParse] as the text of an inline
    script; if [jsParse] rejects it the promise of the [then] is rejected
    with that error, and the loader is not called again. *)
Theorem fetched_script_with_syntax_error_rejects script href content e t rs s :
  NoDup ((λ a, toLowerCase (attr_name a)) <$> attrs script) →
  promises s !! t = Some (Pending rs) →
  jsParse content (attachAST (this s)) = inl e →
  let s' := (run_job importParse jsParse url_resolve
               (JReact (RThen (Some (cb_script script href)) None t)
                       (Fulfilled (VString content))) s).2 in
  promises s' !! t = Some (Settled (Rejected e))
  ∧ requests s' = requests s ∧ this s' = this s.
Proof.
  intros Hnd Ht Hp s'. subst s'. cbn [run_job]. unfold complete. cbn [call].
  erewrite (inline_script_failure jsParse url_resolve _ href e); first last.
  - right. eexists content, []. split; [reflexivity|exact Hp].
  - unfold getAttribute. cbn [attrs]. by rewrite getAttribute_removeAttribute.
  - unfold settle.
    rewrite (bind_ok _ _ (set_cur (λ _, Some t) s) (set_cur (λ _, Some t) s)
               (set_cur (λ _, Some t) s)) by reflexivity.
    cbn [promises set_cur]. rewrite Ht.
    erewrite bind_ok by reflexivity.
    match goal with |- promises (?m ?s0).2 !! _ = _ ∧ _ =>
      assert (preserves m) as Y
        by (apply preserves_forEach; intros; apply preserves_enqueue);
      assert (requests (m s0).2 = requests s0 ∧ this (m s0).2 = this s0) as [Hr Hth];
      [|split; [apply (ext_settled _ _ (Y s0))|rewrite Hr, Hth; done]]
    end.
    + apply forEach_enqueue_frame.
    + cbn [promises set_promises set_cur]. apply list_lookup_insert_eq.
      by eapply lookup_lt_Some.
Qed.

End FetchedScript.

(** ** [attachDomModule] *)

Lemma attachDomModule_loop_name l e : e_is (attachDomModule_loop l e) = e_is e.
Proof. induction l as [|d l IH]; simpl; [done|]. by case_decide. Qed.

Lemma attachDomModule_loop_twice l e :
  attachDomModule_loop l (attachDomModule_loop l e) = attachDomModule_loop l e.
Proof.
  induction l as [|d l IH]; simpl; [done|].
  destruct (decide (getAttribute d "id" = Some (e_is e))) as [Hd|Hd].
  - simpl. by rewrite decide_True.
  - rewrite decide_False by (by rewrite attachDomModule_loop_name). exact IH.
Qed.

(** Attaching twice is attaching once, and the element keeps its name. *)
Theorem attachDomModule_is_idempotent (parsedImport : Parsed) (element : Element) :
  attachDomModule parsedImport (attachDomModule parsedImport element)
  = attachDomModule parsedImport element
  ∧ e_is (attachDomModule parsedImport element) = e_is element.
Proof.
  unfold attachDomModule. split.
  - apply attachDomModule_loop_twice.
  - apply attachDomModule_loop_name.
Qed.

(** ** Duplicate element definitions *)

Lemma alloc_elements_spec names : ∀ acc s,
  forEach_acc names (λ acc name,
      e <- alloc_element {| e_is := name; domModule := None |} ;;
      ret (acc ++ [VElement e])) acc s
  = (Ok (acc ++ (VElement <$> seq (length (elems s)) (length names))),
     set_elems (λ l, l ++ (parsed_element <$> names)) s).
Proof.
  induction names as [|n names IH]; intros acc s.
  - unfold set_elems. simpl. rewrite !app_nil_r. by destruct s.
  - cbn [forEach_acc]. erewrite bind_ok; last first.
    { erewrite bind_ok by reflexivity. reflexivity. }
    rewrite IH. cbn [elems set_elems length seq fmap list_fmap].
    rewrite length_app, <- app_assoc. cbn [length app].
    rewrite Nat.add_1_r. f_equal.
    unfold set_elems. cbn. by rewrite <- app_assoc.
Qed.

Lemma js_in_insert_iff {V} k k' (v : V) (m : gmap string V) :
  js_in k (<[k' := v]> m) = bool_decide (k = k') || js_in k m.
Proof.
  unfold js_in. destruct (decide (k = k')) as [->|Hne].
  - rewrite lookup_insert_eq. rewrite !bool_decide_eq_true_2 by eauto. done.
  - rewrite lookup_insert_ne by done. by rewrite (bool_decide_eq_false_2 (k = k')).
Qed.

(** The loop of lines 167-173 over elements whose names are new and
    distinct registers them all. *)
Lemma register_fresh_elements pre : ∀ base rest s,
  NoDup pre →
  Forall (λ k, js_in k (elements (this s)) = false) pre →
  (∀ i k, pre !! i = Some k → elems s !! (base + i) = Some (parsed_element k)) →
  ∃ s1, forEach ((VElement <$> seq base (length pre)) ++ rest) register_element s
        = forEach rest register_element s1
      ∧ elems s1 = elems s ∧ modules (this s1) = modules (this s)
      ∧ html (this s1) = html (this s) ∧ requests s1 = requests s
      ∧ (∀ k, js_in k (elements (this s1))
              = js_in k (elements (this s)) || bool_decide (k ∈ pre))
      ∧ (∀ k, k ∉ pre → elements (this s1) !! k = elements (this s) !! k)
      ∧ (∀ i k, pre !! i = Some k → elements (this s1) !! k = Some (base + i))
      ∧ promises s1 = promises s ∧ objs s1 = objs s ∧ jobs s1 = jobs s.
Proof.
  induction pre as [|n pre IH]; intros base rest s Hnd Hfresh Hel.
  - exists s. simpl. do 5 (split; [done|]). split; [|done]. intros k.
    by rewrite orb_false_r.
  - apply NoDup_cons in Hnd as [Hn Hnd]. apply Forall_cons in Hfresh as [Hfn Hfresh].
    cbn [length seq fmap list_fmap app forEach].
    pose proof (Hel 0 n eq_refl) as H0. rewrite Nat.add_0_r in H0.
    erewrite bind_ok by (by apply (register_element_fresh base (parsed_element n))).
    cbn [e_is parsed_element].
    destruct (IH (S base) rest (set_this (set_elements (λ m, <[n := base]> m)) s))
      as (s1 & E & He & Hm & Hh & Hr & Hin & Hout & Hat & Hp & Ho & Hj); [done| | |].
    { apply Forall_forall. intros k Hk. cbn.
      rewrite js_in_insert_iff, (proj1 (Forall_forall _ _) Hfresh k Hk).
      rewrite bool_decide_eq_false_2; [done|]. by intros ->. }
    { intros i k Hk. cbn. rewrite <- Nat.add_succ_r. by apply Hel. }
    exists s1. split; [exact E|]. do 4 (split; [done|]).
    split; [|split; [|split; [|done]]].
    + intros k. rewrite Hin. cbn. rewrite js_in_insert_iff.
      destruct (decide (k = n)) as [->|Hne].
      * rewrite bool_decide_eq_true_2 by done.
        rewrite (bool_decide_eq_true_2 (_ ∈ n :: _)) by apply list_elem_of_here.
        by rewrite !orb_true_r.
      * rewrite bool_decide_eq_false_2 by done. rewrite orb_false_l. f_equal.
        apply bool_decide_ext. rewrite elem_of_cons. split; [by right|by intros [?|?]].
    + intros k Hk. apply not_elem_of_cons in Hk as [Hkn Hk].
      rewrite (Hout k Hk). cbn. by rewrite lookup_insert_ne.
    + intros [|i] k Hk; cbn in Hk.
      * injection Hk as <-. rewrite (Hout n Hn). cbn.
        by rewrite lookup_insert_eq, Nat.add_0_r.
      * rewrite (Hat i k Hk). f_equal. lia.
Qed.

Section Duplicates.

Variable jsParse : string → bool → exn + ParsedJs.
Variable url_resolve : string → string → string.

(** An inline script that defines an element under a name that is already
    registered, or that it has itself defined before, throws
    [Duplicate element definition: <name>] at the first such name. The
    elements the script defined before that name stay registered: nothing
    is rolled back. The modules of the script are not looked at. *)
Theorem duplicate_element_definition_throws
    script href body more r pre name post s :
  truthy_str (getAttribute script "src") = false →
  childNodes script = body :: more →
  jsParse body (attachAST (this s)) = inr r →
  js_elements r = Some (pre ++ name :: post) →
  NoDup pre →
  Forall (λ k, js_in k (elements (this s)) = false) pre →
  js_in name (elements (this s)) = true ∨ name ∈ pre →
  ∃ s', _processScript jsParse url_resolve script href s
        = (Throw (JsError ("Duplicate element definition: " +:+ name)), s')
      ∧ (∀ k, js_in k (elements (this s'))
              = js_in k (elements (this s)) || bool_decide (k ∈ pre))
      ∧ modules (this s') = modules (this s)
      ∧ html (this s') = html (this s) ∧ requests s' = requests s.
Proof.
  intros Hsrc Hc Hp Hes Hnd Hfresh Hdup. unfold _processScript.
  rewrite Hsrc, Hc. cbn [negb]. erewrite bind_ok by reflexivity.
  rewrite (bind_ok _ _ s s s) by reflexivity. rewrite Hp.
  erewrite bind_ok by reflexivity.
  unfold alloc_ParsedJs. rewrite Hes.
  erewrite bind_ok; last first.
  { erewrite bind_ok; last first.
    { erewrite bind_ok by apply alloc_elements_spec. reflexivity. }
    erewrite bind_ok by reflexivity. reflexivity. }
  erewrite bind_ok by (apply read_obj_ok, lookup_alloc).
  cbn [o_elements app].
  set (s0 := set_objs _ _).
  destruct (register_fresh_elements pre (length (elems s))
              (VElement <$> seq (length (elems s) + length pre) (S (length post))) s0)
    as (s1 & E & He & Hm & Hh & Hr & Hin & _); [done|exact Hfresh| |].
  { intros i k Hk. subst s0. cbn [elems set_objs set_elems].
    rewrite lookup_app_r by lia. rewrite Nat.add_comm, Nat.add_sub.
    rewrite list_lookup_fmap, lookup_app_l by (by eapply lookup_lt_Some).
    by rewrite Hk. }
  rewrite length_app in *. cbn [length] in *.
  rewrite seq_app, fmap_app.
  assert (forEach (VElement <$> seq (length (elems s) + length pre) (S (length post)))
            register_element s1
          = (Throw (JsError ("Duplicate element definition: " +:+ name)), s1)) as Edup.
  { cbn [seq fmap list_fmap forEach]. apply bind_throw.
    apply (register_element_duplicate _ (parsed_element name)).
    - rewrite He. subst s0. cbn [elems set_objs set_elems].
      rewrite lookup_app_r by lia. rewrite Nat.add_comm, Nat.add_sub.
      rewrite list_lookup_fmap. rewrite list_lookup_middle by done. done.
    - cbn [e_is parsed_element]. rewrite Hin. subst s0. cbn [this set_objs set_elems].
      destruct Hdup as [->|Hpre]; [done|].
      rewrite bool_decide_eq_true_2 by done. apply orb_true_r. }
  exists s1. split.
  - erewrite bind_throw; [reflexivity|]. rewrite E. exact Edup.
  - subst s0. cbn in *. done.
Qed.

(** An inline script whose elements have new, distinct names and which
    names no module: every element is registered under its name, as the
    monomer [jsParse] made for it, and the parse result itself is
    returned. Nothing else changes. *)
Theorem inline_script_registers_its_elements script href body more r names s :
  truthy_str (getAttribute script "src") = false →
  childNodes script = body :: more →
  jsParse body (attachAST (this s)) = inr r →
  js_elements r = Some names →
  js_modules r = None ∨ js_modules r = Some [] →
  NoDup names →
  Forall (λ k, js_in k (elements (this s)) = false) names →
  ∃ s', _processScript jsParse url_resolve script href s
        = (Ok (VObj (length (objs s))), s')
      ∧ objs s' = objs s ++
          [{| o_elements := Some (VElement <$> seq (length (elems s)) (length names));
              o_modules := map VModule <$> js_modules r;
              o_imports := None; o_href := None; o_html := None |}]
      ∧ elems s' = elems s ++ (parsed_element <$> names)
      ∧ (∀ i k, names !! i = Some k →
                elements (this s') !! k = Some (length (elems s) + i))
      ∧ (∀ k, k ∉ names → elements (this s') !! k = elements (this s) !! k)
      ∧ modules (this s') = modules (this s) ∧ html (this s') = html (this s)
      ∧ requests s' = requests s ∧ promises s' = promises s ∧ jobs s' = jobs s.
Proof.
  intros Hsrc Hc Hp Hes Hms Hnd Hfresh. unfold _processScript.
  rewrite Hsrc, Hc. cbn [negb]. erewrite bind_ok by reflexivity.
  rewrite (bind_ok _ _ s s s) by reflexivity. rewrite Hp.
  erewrite bind_ok by reflexivity.
  unfold alloc_ParsedJs. rewrite Hes.
  erewrite bind_ok; last first.
  { erewrite bind_ok; last first.
    { erewrite bind_ok by apply alloc_elements_spec. reflexivity. }
    erewrite bind_ok by reflexivity. reflexivity. }
  erewrite bind_ok by (apply read_obj_ok, lookup_alloc).
  cbn [o_elements o_modules app].
  set (s0 := set_objs _ _).
  destruct (register_fresh_elements names (length (elems s)) [] s0)
    as (s1 & E & He & Hm & Hh & Hr & Hin & Hout & Hat & Hps & Ho & Hj);
    [done|exact Hfresh| |].
  { intros i k Hk. subst s0. cbn [elems set_objs set_elems].
    rewrite lookup_app_r by lia. rewrite Nat.add_comm, Nat.add_sub.
    rewrite list_lookup_fmap. by rewrite Hk. }
  rewrite app_nil_r in E. cbn [forEach] in E.
  erewrite bind_ok by exact E.
  erewrite bind_ok; last first.
  { destruct Hms as [->| ->]; reflexivity. }
  exists s1. split; [reflexivity|].
  rewrite Ho, He, Hm, Hh, Hr, Hps, Hj. subst s0. cbn.
  do 3 (split; [done|]). split; [exact Hout|]. done.
Qed.

End Duplicates.

(** ** Runs of an instance without loader *)

#[global] Instance quiet_preorder : PreOrder quiet.
Proof.
  split; [by intros s Hl|].
  intros s1 s2 s3 H1 H2 Hl. destruct (H1 Hl) as [Hl2 Hr2].
  destruct (H2 Hl2) as [Hl3 Hr3]. split; [done|congruence].
Qed.

Ltac quiet_leaf := intros ? ?; split; simpl; repeat case_match; done.
Ltac quiet_auto := repeat keeps_step quiet quiet_leaf.

Lemma quiet_then_ p f r : keeps quiet (then_ p f r).
Proof. quiet_auto. Qed.
Lemma quiet_settle p o : keeps quiet (settle p o).
Proof. quiet_auto. Qed.
Lemma quiet_Promise_resolve x : keeps quiet (Promise_resolve x).
Proof. quiet_auto. Qed.
Lemma quiet_Promise_all l : keeps quiet (Promise_all l).
Proof. quiet_auto. Qed.
Lemma quiet_register_element v : keeps quiet (register_element v).
Proof. unfold register_element. quiet_auto. Qed.
Lemma quiet_register_module v : keeps quiet (register_module v).
Proof. unfold register_module. quiet_auto. Qed.
Lemma quiet_tree_child l acc h : keeps quiet (tree_child l acc h).
Proof. quiet_auto. Qed.
Lemma quiet_write_obj v f : keeps quiet (write_obj v f).
Proof. unfold write_obj. quiet_auto. Qed.
Lemma quiet_attachDomModule_heap p v : keeps quiet (attachDomModule_heap p v).
Proof. unfold attachDomModule_heap. quiet_auto. Qed.

Section Quiet.

Variable importParse : string → exn + Parsed.
Variable jsParse : string → bool → exn + ParsedJs.
Variable url_resolve : string → string → string.

Lemma quiet__processScript script href :
  keeps quiet (_processScript jsParse url_resolve script href).
Proof.
  unfold _processScript. destruct (negb _).
  - unfold alloc_ParsedJs.
    repeat first [apply quiet_register_element | apply quiet_register_module
                 | keeps_step quiet quiet_leaf].
  - apply (keeps_get_bind quiet). intros s Hl. rewrite Hl.
    assert (keeps quiet (p <- Promise_resolve (VObj EMPTY_METADATA) ;; ret (VPromise p)))
      as K by quiet_auto.
    exact (K s Hl).
Qed.

Lemma quiet__processScripts scripts href :
  keeps quiet (_processScripts jsParse url_resolve scripts href).
Proof.
  unfold _processScripts.
  repeat first [apply quiet__processScript | apply quiet_Promise_all | apply quiet_then_
               | keeps_step quiet quiet_leaf].
Qed.

Lemma quiet__parseHTML htmlImport href :
  keeps quiet (_parseHTML importParse jsParse url_resolve htmlImport href).
Proof.
  unfold _parseHTML. apply (keeps_get_bind' quiet). intros s0.
  destruct (js_in href (html (this s0))); [apply (keeps_ret quiet)|].
  apply (keeps_bind quiet); [apply quiet_Promise_resolve|]. intros metadataLoaded0.
  apply (keeps_bind quiet); [quiet_auto|]. intros _.
  apply (keeps_bind quiet); [quiet_auto|]. intros parsed.
  apply (keeps_bind quiet); [apply quiet_Promise_resolve|]. intros htmlLoaded.
  apply (keeps_bind quiet).
  { destruct (p_script parsed); [|apply (keeps_ret quiet)].
    apply (keeps_bind quiet); [apply quiet__processScripts|].
    intros. apply (keeps_ret quiet). }
  intros md. apply (keeps_get_bind quiet). intros s Hl. rewrite Hl.
  match goal with
  | |- _ ∧ requests (?m s).2 = _ =>
      assert (keeps quiet m) as K;
      [|exact (K s Hl)]
  end.
  repeat first [apply quiet_Promise_all | apply quiet_then_ | keeps_step quiet quiet_leaf].
Qed.

Lemma quiet_call cb arg : keeps quiet (call importParse jsParse url_resolve cb arg).
Proof.
  destruct cb; simpl;
    repeat first [apply quiet__parseHTML | apply quiet__processScript
                 | apply quiet_Promise_all | apply quiet_then_ | apply quiet_tree_child
                 | apply quiet_write_obj | apply quiet_attachDomModule_heap
                 | keeps_step quiet quiet_leaf].
Qed.

Lemma quiet_complete t (m : M value) : keeps quiet m → keeps quiet (complete t m).
Proof.
  intros Hm s. unfold complete.
  specialize (Hm (set_cur (λ _, Some t) s)).
  destruct (m _) as [[x|e] s']; simpl in *.
  - etrans; [exact Hm|]. assert (keeps quiet (note_returned t x ;;; resolve t x)) as K
      by quiet_auto.
    apply K.
  - etrans; [exact Hm|]. apply quiet_settle.
Qed.

Lemma quiet_run_job j : keeps quiet (run_job importParse jsParse url_resolve j).
Proof.
  destruct j as [[f r t|t|a i] [v|e]|t q]; simpl.
  - destruct f; [apply quiet_complete, quiet_call|apply quiet_settle].
  - destruct r as [[]|]; [apply quiet_complete; simpl; quiet_auto|apply quiet_settle].
  - quiet_auto.
  - apply quiet_settle.
  - quiet_auto.
  - quiet_auto.
  - quiet_auto.
Qed.

Lemma quiet_transition s s' :
  transition importParse jsParse url_resolve s s' → quiet s s'.
Proof.
  intros [H|p o H].
  - unfold step in H. destruct (jobs s) as [|j rest]; [done|]. injection H as <-.
    intros Hl.
    destruct (quiet_run_job j (set_jobs (λ _, rest) s) Hl) as [H1 H2]. done.
  - unfold deliver in H. destruct (promises s !! p) as [[rs|]|]; try done.
    case_bool_decide; [|done]. injection H as <-. apply quiet_settle.
Qed.

(** On an instance without loader, no turn of the job queue calls the
    loader, and neither does [metadataTree()]: the log of requests stays as
    it is. Started from the constructor, it stays empty. *)
Theorem without_loader_nothing_is_requested s :
  loader (this s) = false →
  (∀ s', reaches importParse jsParse url_resolve s s' →
         requests s' = requests s ∧ loader (this s') = false)
  ∧ requests (metadataTree s).2 = requests s
  ∧ ∀ htmlImport href, requests (_parseHTML importParse jsParse url_resolve
                                   htmlImport href s).2 = requests s.
Proof.
  intros Hl. split; [|split].
  - intros s' Hr.
    assert (quiet s s') as Q.
    { clear Hl. induction Hr as [|s1 s2 s3 H12 _ IH]; [reflexivity|].
      etrans; [by apply quiet_transition|]. apply IH. }
    by destruct (Q Hl).
  - assert (keeps quiet metadataTree) as K by (unfold metadataTree; quiet_auto).
    by destruct (K s Hl).
  - intros htmlImport href. by destruct (quiet__parseHTML htmlImport href s Hl).
Qed.

(** Along a run, the registry of modules stays as it is and a registered
    element name stays registered. From the constructor on the registry of
    modules is therefore empty, whatever the scripts define. *)
Theorem registries_along_a_run htmlImport attachAST href loader s :
  reaches importParse jsParse url_resolve
    (Monomers_new importParse jsParse url_resolve htmlImport attachAST href loader).2 s →
  modules (this s) = ∅
  ∧ ∀ s' name, js_in name (elements (this s)) = true →
               reaches importParse jsParse url_resolve s s' →
               js_in name (elements (this s')) = true.
Proof.
  intros Hr. split.
  - rewrite (ext_modules _ _ (reaches_ext _ _ _ _ _ Hr)).
    unfold Monomers_new.
    pose proof (preserves__parseHTML importParse jsParse url_resolve htmlImport href
                  (initial loader attachAST)) as X.
    unfold bind. destruct (_parseHTML _ _ _ _ _ _) as [[n|e] s0]; cbn [snd] in *.
    + cbn. apply (ext_modules _ _ X).
    + apply (ext_modules _ _ X).
  - intros s' name Hin Hr'. by apply (ext_elements _ _ (reaches_ext _ _ _ _ _ Hr')).
Qed.

End Quiet.

(** ** The loop over the import links *)

Section ImportLinks.

Variable url_resolve : string → string → string.

Lemma import_link_spec href hs ds link s :
  ∃ s', import_link url_resolve href (hs, ds) link s
        = (Ok match link_target url_resolve href link with
              | Some u => (hs ++ [u], ds ++ [VPromise (length (promises s) + 1)])
              | None => (hs, ds)
              end, s')
      ∧ requests s' = requests s ++
          match link_target url_resolve href link with
          | Some u => [(length (promises s), u)]
          | None => []
          end
      ∧ promises s' = promises s ++
          match link_target url_resolve href link with
          | Some u => [Pending [RThen (Some (cb_import u)) None (length (promises s) + 1)];
                       Pending []]
          | None => []
          end
      ∧ this s' = this s ∧ jobs s' = jobs s.
Proof.
  unfold import_link, link_target. destruct (truthy_str _).
  - unfold loader_request. erewrite bind_ok; last first.
    { erewrite bind_ok by reflexivity. erewrite bind_ok by reflexivity. reflexivity. }
    match goal with
    | |- context [bind (then_ ?p ?f ?r) _ ?s1] =>
        destruct (then__on_pending p f r [] s1) as (s2 & E2 & Hp2 & Hr2 & Ht2 & Hj2)
    end.
    { cbn. apply lookup_alloc. }
    erewrite bind_ok by exact E2. cbn in Hp2, Hr2, Ht2, Hj2.
    rewrite insert_app_l, insert_alloc, length_app in Hp2
      by (rewrite length_app; simpl; lia).
    cbn [length] in Hp2. rewrite <- app_assoc in Hp2. cbn [app] in Hp2.
    exists s2. split.
    { cbn. rewrite length_app. done. }
    done.
  - exists s. rewrite !app_nil_r. done.
Qed.

(** With a loader, the loop of lines 127-137 asks the loader once for every
    link that has a non-empty [href], in document order, also when two
    links resolve to the same address; links without [href] are skipped.
    [depHrefs] receives the same addresses in the same order. Each link
    costs two promises (the request and its [then]); no document is parsed
    and no job is queued by the loop itself. *)
Theorem every_import_link_is_requested href links hs ds s :
  let targets := omap (link_target url_resolve href) links in
  ∃ deps s',
    forEach_acc links (import_link url_resolve href) (hs, ds) s
    = (Ok (hs ++ targets, ds ++ deps), s')
    ∧ (requests s').*2 = (requests s).*2 ++ targets
    ∧ length deps = length targets
    ∧ length (promises s') = length (promises s) + 2 * length targets
    ∧ promises s `prefix_of` promises s'
    ∧ this s' = this s ∧ jobs s' = jobs s ∧ parses s' = parses s.
Proof.
  intros targets. subst targets. revert hs ds s.
  induction links as [|link links IH]; intros hs ds s.
  - exists [], s. cbn. rewrite !app_nil_r. repeat split; try done; lia.
  - cbn [forEach_acc omap list_omap].
    destruct (import_link_spec href hs ds link s) as (s1 & E & Hr & Hp & Ht & Hj).
    assert (parses s1 = parses s) as Hl.
    { pose proof (docs_import_link url_resolve href (hs, ds) link s) as [_ D].
      by rewrite E in D. }
    erewrite bind_ok by exact E.
    destruct (link_target url_resolve href link) as [u|].
    + destruct (IH (hs ++ [u]) (ds ++ [VPromise (length (promises s) + 1)]) s1)
        as (deps & s' & E' & Hr' & Hd' & Hlen' & Hpre' & Ht' & Hj' & Hl').
      exists (VPromise (length (promises s) + 1) :: deps), s'.
      rewrite E', <- !app_assoc. split; [done|].
      rewrite Hr', Hr, fmap_app, <- app_assoc. split; [done|].
      cbn [length]. split; [by rewrite Hd'|].
      rewrite Hlen', Hp, length_app. cbn [length]. split; [lia|].
      split; [etrans; [|exact Hpre']; rewrite Hp; by apply prefix_app_r|].
      rewrite Ht', Hj', Hl', Ht, Hj, Hl. done.
    + rewrite app_nil_r in Hr, Hp.
      destruct (IH hs ds s1)
        as (deps & s' & E' & Hr' & Hd' & Hlen' & Hpre' & Ht' & Hj' & Hl').
      exists deps, s'. rewrite E', Hr', Hlen', Ht', Hj', Hl', Hr, Hp, Ht, Hj, Hl.
      repeat split; try done. by rewrite <- Hp.
Qed.

End ImportLinks.

(** ** The reduction of the scripts' metadata *)

Section Reduce.

Variable importParse : string → exn + Parsed.
Variable jsParse : string → bool → exn + ParsedJs.
Variable url_resolve : string → string → string.

Lemma reduce_from r1 e1 m1 rs : ∀ os o1 s,
  objs s !! r1 = Some o1 → o_elements o1 = Some e1 → o_modules o1 = Some m1 →
  Forall2 (λ r o, objs s !! r = Some o ∧ is_Some (o_elements o) ∧ is_Some (o_modules o))
    rs os →
  ∃ s', forEach_acc (VObj <$> rs) (λ m1 m2,
            o1 <- read_obj m1 ;;
            o2 <- read_obj m2 ;;
            match reduceMetadata o1 o2 with
            | inr o => r <- alloc_obj o ;; ret (VObj r)
            | inl e => throw e
            end) (VObj r1) s
        = (Ok (VObj (match rs with [] => r1 | _ => length (objs s) + length rs - 1 end)), s')
      ∧ objs s' = objs s ++ drop (length (objs s)) (objs s')
      ∧ length (objs s') = length (objs s) + length rs
      ∧ objs s' !! (match rs with [] => r1 | _ => length (objs s) + length rs - 1 end)
        = Some (match rs with
                | [] => o1
                | _ => metadata_object
                         (e1 ++ concat ((λ o, default [] (o_elements o)) <$> os))
                         (m1 ++ concat ((λ o, default [] (o_modules o)) <$> os))
                end)
      ∧ this s' = this s ∧ promises s' = promises s ∧ jobs s' = jobs s.
Proof.
  revert r1 e1 m1. induction rs as [|r rs IH]; intros r1 e1 m1 os o1 s H1 He1 Hm1 HF.
  - exists s. cbn. rewrite drop_all, app_nil_r, Nat.add_0_r. done.
  - apply Forall2_cons_inv_l in HF as (o & os' & (Hr & [e He] & [m Hm]) & HF & ->).
    cbn [fmap list_fmap forEach_acc].
    erewrite bind_ok; last first.
    { erewrite bind_ok by (by apply read_obj_ok).
      erewrite bind_ok by (by apply read_obj_ok).
      unfold reduceMetadata. rewrite He1, Hm1, He, Hm. cbn [js_concat].
      erewrite bind_ok by reflexivity. reflexivity. }
    set (o' := metadata_object (e1 ++ e) (m1 ++ m)).
    set (s1 := set_objs (λ l, l ++ [o']) s).
    destruct (IH (length (objs s)) (e1 ++ e) (m1 ++ m) os' o' s1)
      as (s' & E & Hpre & Hlen & Hres & Ht & Hp & Hj).
    { apply lookup_alloc. }
    { done. }
    { done. }
    { eapply Forall2_impl; [exact HF|]. intros r0 o0 (H0 & ? & ?).
      split; [|done]. by apply lookup_app_Some_l. }
    exists s'. rewrite E.
    assert (length (objs s1) = length (objs s) + 1) as Hl1
      by (subst s1; cbn; by rewrite length_app).
    rewrite Hl1 in *. cbn [length].
    split.
    { do 3 f_equal. destruct rs; simpl; lia. }
    split.
    { rewrite <- (take_drop (length (objs s)) (objs s')) at 1. f_equal.
      rewrite Hpre. subst s1. cbn [objs set_objs].
      rewrite <- app_assoc, take_app_length. done. }
    split; [lia|]. split; [|by rewrite Ht, Hp, Hj].
    cbn [fmap list_fmap concat]. rewrite He, Hm. cbn [default].
    rewrite !app_assoc.
    destruct rs as [|r' rs].
    + apply Forall2_nil_inv_l in HF as ->. cbn [fmap list_fmap concat].
      rewrite !app_nil_r. rewrite Nat.add_sub. exact Hres.
    + replace (length (objs s) + S (length (r' :: rs)) - 1)
        with (length (objs s) + 1 + length (r' :: rs) - 1) by lia.
      exact Hres.
Qed.

(** The callback of lines 156-158 on the script results [rs], each an
    object that carries both lists: with at least one script, the result
    is a new object whose [elements] and [modules] are those of
    [EMPTY_METADATA] followed by those of the scripts, in script order;
    [EMPTY_METADATA] and every other object are left as they were. *)
Theorem reduce_concatenates_in_script_order r rs o os o0 e0 m0 s :
  objs s !! EMPTY_METADATA = Some o0 →
  o_elements o0 = Some e0 → o_modules o0 = Some m0 →
  Forall2 (λ r o, objs s !! r = Some o ∧ is_Some (o_elements o) ∧ is_Some (o_modules o))
    (r :: rs) (o :: os) →
  ∃ s', call importParse jsParse url_resolve cb_reduce (VArray (VObj <$> r :: rs)) s
        = (Ok (VObj (length (objs s) + length rs)), s')
      ∧ objs s' !! (length (objs s) + length rs)
        = Some (metadata_object
                  (e0 ++ concat ((λ o, default [] (o_elements o)) <$> o :: os))
                  (m0 ++ concat ((λ o, default [] (o_modules o)) <$> o :: os)))
      ∧ (∀ i x, objs s !! i = Some x → objs s' !! i = Some x)
      ∧ this s' = this s ∧ promises s' = promises s ∧ jobs s' = jobs s.
Proof.
  intros H0 He0 Hm0 HF. cbn [call].
  destruct (reduce_from EMPTY_METADATA e0 m0 (r :: rs) (o :: os) o0 s H0 He0 Hm0 HF)
    as (s' & E & Hpre & Hlen & Hres & Ht & Hp & Hj).
  exists s'. cbn [length] in *.
  replace (length (objs s) + S (length rs) - 1) with (length (objs s) + length rs) in *
    by lia.
  split; [exact E|]. split; [exact Hres|]. split; [|done].
  intros i x Hi. rewrite Hpre. by apply lookup_app_Some_l.
Qed.

End Reduce.

(** ** The loop over the imports of a tree node, once more *)

Lemma seen_mark_all hrefs : ∀ d h,
  seen (mark_all d hrefs) h = seen d h || bool_decide (h ∈ hrefs).
Proof.
  induction hrefs as [|k hrefs IH]; intros d h; cbn [mark_all].
  - by rewrite orb_false_r.
  - rewrite IH. destruct (decide (h = k)) as [->|Hne].
    + rewrite (bool_decide_eq_true_2 (k ∈ k :: hrefs)) by apply list_elem_of_here.
      rewrite orb_true_r. destruct (seen d k) eqn:Hs; [by rewrite Hs|].
      by rewrite seen_insert_true, decide_True.
    + assert (bool_decide (h ∈ k :: hrefs) = bool_decide (h ∈ hrefs)) as ->.
      { apply bool_decide_ext. rewrite elem_of_cons. split; [by intros [?|?]|by right]. }
      destruct (seen d k); [done|]. by rewrite seen_insert_true, decide_False.
Qed.

Lemma then__unfold p f r s :
  then_ p f r s
  = (Ok (length (promises s)),
     (perform_then p (RThen f r (length (promises s)))
        (alloc_promise (Pending []) (OThen p f r) s).2).2).
Proof.
  unfold then_, perform_then, bind, get, alloc_promise, modify, enqueue, ret.
  cbn [fst snd promises set_history set_promises].
  by destruct ((promises s ++ [Pending []]) !! p) as [[rs|o]|].
Qed.

(** After the loop of lines 212-226 over [hrefs], the addresses marked in
    [loadedHrefs] are those marked before and those of [hrefs], and no
    other. *)
Theorem tree_loop_marks_every_address (loadedHrefs : nat) (hrefs : list string)
    (s : State) (d : gmap string bool) :
  visited s !! loadedHrefs = Some d →
  aligned s →
  ∃ depMetadata s' d',
    forEach_acc hrefs (tree_child loadedHrefs) [] s = (Ok depMetadata, s')
    ∧ visited s' !! loadedHrefs = Some d'
    ∧ ∀ h, seen d' h = true ↔ seen d h = true ∨ h ∈ hrefs.
Proof.
  intros Hd Ha.
  destruct (tree_children_spec loadedHrefs hrefs [] s d Hd Ha)
    as (ps & s' & E & Hd' & _).
  exists ps, s', (mark_all d hrefs). split; [exact E|]. split; [exact Hd'|].
  intros h. rewrite seen_mark_all, orb_true_iff, bool_decide_eq_true. done.
Qed.

(** Lines 213-222, for an address that is not marked: the build of its
    subtree is a [then] on the entry pushed just before it, whatever that
    entry is. On a pending entry the build waits; on an entry that is
    already settled (such as the placeholder [Promise.resolve({})]) its job
    is queued at once, as it is for the first entry of the list, which is
    chained on a fresh [Promise.resolve(true)]. *)
Theorem build_is_chained_on_previous_entry loadedHrefs depMetadata href s d :
  visited s !! loadedHrefs = Some d →
  seen d href = false →
  Forall (λ q, q < length (promises s)) depMetadata →
  let build := length (promises s) + 1 in
  let reaction := RThen (Some (cb_tree_next href loadedHrefs)) None build in
  ∃ s', tree_child loadedHrefs depMetadata href s = (Ok (depMetadata ++ [build]), s')
      ∧ promises s' !! build = Some (Pending [])
      ∧ match last depMetadata with
        | None => jobs s' = jobs s ++ [JReact reaction (Fulfilled (VBool true))]
        | Some previous =>
            match promises s !! previous with
            | Some (Pending rs) =>
                promises s' !! previous = Some (Pending (rs ++ [reaction]))
                ∧ jobs s' = jobs s
            | Some (Settled o) => jobs s' = jobs s ++ [JReact reaction o]
            | None => True
            end
        end.
Proof.
  intros Hd Hseen Hold build reaction. subst build reaction. unfold tree_child.
  erewrite bind_ok by (by apply loadedHrefs_get_ok). rewrite Hseen. cbn [negb].
  erewrite bind_ok by reflexivity. erewrite bind_ok by reflexivity.
  erewrite bind_ok by apply then__unfold.
  cbn [promises set_promises set_history set_visited alloc_promise snd].
  rewrite !length_app. cbn [length].
  set (s0 := set_history _ (set_promises _ (set_history _ _))).
  assert (promises s0 = promises s ++ [Settled (Fulfilled (VBool true)); Pending []]) as Hp0.
  { subst s0. cbn. by rewrite <- app_assoc. }
  assert (jobs s0 = jobs s) as Hj0 by done.
  clearbody s0.
  assert (promises s0 !! (length (promises s) + 1) = Some (Pending [])) as Hnew.
  { rewrite Hp0, lookup_app_r by lia.
    by replace (length (promises s) + 1 - length (promises s)) with 1 by lia. }
  eexists. split; [reflexivity|].
  unfold perform_then. rewrite (bind_ok _ _ s0 s0 s0) by reflexivity.
  destruct (last depMetadata) as [q|] eqn:Hlast; cbn [default].
  - destruct (promises s !! q) as [[rs|o]|] eqn:Hq.
    + rewrite Hp0, (lookup_app_Some_l _ _ _ _ Hq). cbn.
      assert (q < length (promises s)) by (by eapply lookup_lt_Some).
      rewrite list_lookup_insert_ne by lia. split; [exact Hnew|].
      split; [|done]. apply list_lookup_insert_eq.
      rewrite Hp0, length_app. lia.
    + rewrite Hp0, (lookup_app_Some_l _ _ _ _ Hq). cbn. rewrite <- ?Hp0, Hj0. done.
    + exfalso. apply lookup_ge_None in Hq.
      apply last_Some_elem_of in Hlast.
      pose proof (proj1 (Forall_forall _ _) Hold q Hlast) as Hlt. simpl in Hlt. lia.
  - rewrite Hp0, lookup_app_r by lia. rewrite Nat.sub_diag. cbn.
    rewrite <- ?Hp0, Hj0. done.
Qed.

(** For an address that was never marked but names a property of
    [Object.prototype] (such as [constructor]), [loadedHrefs[href]] of line
    213 is the inherited property, which is truthy: the address counts as
    visited, its subtree is never built and [{}] stands for it; the
    dictionary is not written. *)
Theorem prototype_named_import_is_a_placeholder loadedHrefs depMetadata href s d :
  visited s !! loadedHrefs = Some d →
  d !! href = None →
  inherited href = true →
  ∃ s', tree_child loadedHrefs depMetadata href s
        = (Ok (depMetadata ++ [length (promises s)]), s')
      ∧ promises s' = promises s ++ [Settled (Fulfilled (VObj (length (objs s))))]
      ∧ objs s' = objs s ++ [empty_object]
      ∧ visited s' = visited s ∧ jobs s' = jobs s.
Proof.
  intros Hd Hk Hi. unfold tree_child.
  erewrite bind_ok by (by apply loadedHrefs_get_ok).
  unfold seen, js_get. rewrite Hk, Hi. cbn [negb].
  erewrite bind_ok by reflexivity. erewrite bind_ok by reflexivity.
  eexists. split; [reflexivity|]. done.
Qed.

Lemma then__on_settled p f r o s :
  promises s !! p = Some (Settled o) →
  ∃ s', then_ p f r s = (Ok (length (promises s)), s')
      ∧ promises s' = promises s ++ [Pending []]
      ∧ jobs s' = jobs s ++ [JReact (RThen f r (length (promises s))) o]
      ∧ requests s' = requests s ∧ this s' = this s.
Proof.
  intros Hp. rewrite then__unfold. eexists. split; [reflexivity|].
  unfold perform_then, alloc_promise. cbn [snd].
  match goal with |- context [bind get ?k ?s0] =>
    rewrite (bind_ok get k s0 s0 s0) by reflexivity
  end.
  cbn [promises set_history set_promises].
  rewrite (lookup_app_Some_l _ _ _ _ Hp). done.
Qed.

Section NoLoader.

Variable importParse : string → exn + Parsed.
Variable jsParse : string → bool → exn + ParsedJs.
Variable url_resolve : string → string → string.

(** Without a loader the import links of a document are not looked at
    (line 126): for a document without scripts, whatever its links, the
    node is registered with five new promises, the list handed on by
    [depsLoaded] is empty, and its job is queued at once. *)
Theorem import_links_are_ignored_without_loader htmlImport href parsed s :
  js_in href (html (this s)) = false →
  importParse htmlImport = inr parsed →
  p_script parsed = None →
  loader (this s) = false →
  let n := length (promises s) in
  let m := {| href := href; htmlLoaded := n + 1; metadataLoaded := n;
              depsLoaded := n + 4 |} in
  ∃ s', _parseHTML importParse jsParse url_resolve htmlImport href s = (Ok (Own m), s')
      ∧ html (this s') = <[href := m]> (html (this s))
      ∧ jobs s' = jobs s ++ [JReact (RThen (Some (cb_depHrefs [])) None (n + 3))
                                     (Fulfilled (VArray []))]
      ∧ promises s' = promises s ++
          [Settled (Fulfilled (VObj EMPTY_METADATA)); Settled (Fulfilled (VParsed parsed));
           Settled (Fulfilled (VArray []));
           Pending [RThen None (Some cb_rethrow) (n + 4)]; Pending []]
      ∧ requests s' = requests s.
Proof.
  intros Hin Hp Hs Hl n m. subst n m. unfold _parseHTML.
  rewrite (bind_ok _ _ s s s) by reflexivity. rewrite Hin.
  erewrite bind_ok by reflexivity. erewrite bind_ok by reflexivity.
  rewrite Hp. erewrite bind_ok by reflexivity. erewrite bind_ok by reflexivity.
  rewrite Hs. erewrite bind_ok by reflexivity.
  match goal with |- context [bind get ?k ?s0] =>
    rewrite (bind_ok get k s0 s0 s0) by reflexivity; set (s1 := s0)
  end.
  assert (loader (this s1) = false) as -> by exact Hl.
  erewrite bind_ok by reflexivity. cbn [fst snd].
  assert (promises s1 = promises s ++ [Settled (Fulfilled (VObj EMPTY_METADATA));
                                       Settled (Fulfilled (VParsed parsed))]) as Hp1.
  { subst s1. cbn. by rewrite <- app_assoc. }
  assert (jobs s1 = jobs s ∧ this s1 = this s ∧ requests s1 = requests s)
    as (Hj1 & Ht1 & Hr1) by done.
  clearbody s1.
  destruct (Promise_all_nil s1) as (s2 & E2 & Hp2 & Hj2 & Hh2).
  erewrite bind_ok by exact E2.
  destruct (then__on_settled (length (promises s1)) (Some (cb_depHrefs [])) None
              (Fulfilled (VArray [])) s2) as (s3 & E3 & Hp3 & Hj3 & Hr3 & Ht3).
  { rewrite Hp2. apply lookup_alloc. }
  erewrite bind_ok by exact E3.
  destruct (then__on_pending (length (promises s2)) None (Some cb_rethrow) [] s3)
    as (s4 & E4 & Hp4 & Hr4 & Ht4 & Hj4).
  { rewrite Hp3. apply lookup_alloc. }
  erewrite bind_ok by exact E4.
  assert (requests s2 = requests s1) as Hr2.
  { pose proof (quiet_Promise_all [] s1) as Q. rewrite E2 in Q.
    destruct Q as [_ Q]; [by rewrite Ht1|exact Q]. }
  assert (length (promises s2) = length (promises s) + 3) as L2
    by (rewrite Hp2, Hp1, !length_app; simpl; lia).
  assert (length (promises s3) = length (promises s) + 4) as L3
    by (rewrite Hp3, length_app, L2; simpl; lia).
  assert (length (promises s1) = length (promises s) + 2) as L1
    by (rewrite Hp1, length_app; simpl; lia).
  assert (∀ h : History,
            length (promises (set_parses (λ l, l ++ [href])
              (set_history (λ h0, h0 ++ [h])
                 (set_promises (λ ps, ps ++ [Settled (Fulfilled (VObj EMPTY_METADATA))]) s))))
            = length (promises s) + 1) as L0
    by (intros; cbn; rewrite length_app; simpl; lia).
  rewrite L0, L3.
  eexists. split; [reflexivity|].
  cbn [html this jobs promises requests set_this set_html modify snd].
  rewrite Ht4, Ht3, Hj4, Hj3, Hj2, Hj1, Hr4, Hr3, Hr2, Hr1, ?L1, ?L2.
  split; [by rewrite Hh2, Ht1|].
  split; [done|]. split; [|done].
  rewrite Hp4, L3, L2, Hp3.
  rewrite insert_app_l by (rewrite length_app, L2; simpl; lia).
  rewrite <- L2, insert_alloc, ?L2.
  rewrite Hp2, Hp1, <- !app_assoc. done.
Qed.

(** The job of the callback of lines 219-221 for an address that has no
    node in the table: [this.html[href]] is not a node, so
    [_metadataTree] throws a TypeError and the build promise is rejected
    with it. *)
Theorem build_of_unregistered_address_rejects href loadedHrefs v t rs s :
  html (this s) !! href = None →
  promises s !! t = Some (Pending rs) →
  let s' := (run_job importParse jsParse url_resolve
               (JReact (RThen (Some (cb_tree_next href loadedHrefs)) None t)
                       (Fulfilled v)) s).2 in
  promises s' !! t
  = Some (Settled (Rejected (JsTypeError
      (if inherited href then "Cannot read property 'then' of undefined"
       else "Cannot read property 'metadataLoaded' of undefined"))))
  ∧ html (this s') = html (this s) ∧ visited s' = visited s.
Proof.
  intros Hk Ht s'. subst s'. cbn [run_job]. unfold complete. cbn [call].
  rewrite (bind_ok _ _ (set_cur (λ _, Some t) s) (set_cur (λ _, Some t) s)
             (set_cur (λ _, Some t) s)) by reflexivity.
  unfold js_get. cbn [this set_cur]. rewrite Hk.
  assert (∀ e, promises (settle t (Rejected e) (set_cur (λ _, Some t) s)).2 !! t
               = Some (Settled (Rejected e))
             ∧ html (this (settle t (Rejected e) (set_cur (λ _, Some t) s)).2)
               = html (this s)
             ∧ visited (settle t (Rejected e) (set_cur (λ _, Some t) s)).2 = visited s)
    as Hsettle.
  { intros e. unfold settle.
    rewrite (bind_ok _ _ (set_cur (λ _, Some t) s) (set_cur (λ _, Some t) s)
               (set_cur (λ _, Some t) s)) by reflexivity.
    cbn [promises set_cur]. rewrite Ht. erewrite bind_ok by reflexivity.
    match goal with |- promises (?m ?s0).2 !! _ = _ ∧ _ =>
      assert (preserves m) as Y
        by (apply preserves_forEach; intros; apply preserves_enqueue);
      pose proof (forEach_enqueue_frame rs (Rejected e) s0) as [_ Hth];
      assert (visited (m s0).2 = visited s0) as Hv
    end.
    { generalize (set_promises (λ ps, <[t:=Settled (Rejected e)]> ps)
                    (set_cur (λ _, Some t) s)).
      clear. induction rs as [|r rs IH]; intros s0; [done|].
      cbn [forEach].
      change ((enqueue (JReact r (Rejected e)) ;;;
               forEach rs (λ r, enqueue (JReact r (Rejected e)))) s0)
        with (forEach rs (λ r, enqueue (JReact r (Rejected e)))
                (set_jobs (λ q, q ++ [JReact r (Rejected e)]) s0)).
      by rewrite IH. }
    split; [|by rewrite Hth, Hv].
    apply (ext_settled _ _ (Y _)). cbn [promises set_promises set_cur].
    apply list_lookup_insert_eq. by eapply lookup_lt_Some. }
  destruct (inherited href); cbn [_metadataTree]; apply Hsettle.
Qed.

End NoLoader.

(** ** The last callback of the tree *)

Lemma attachDomModule_heap_ok parsedHtml x e s :
  elems s !! x = Some e →
  attachDomModule_heap parsedHtml (VElement x) s
  = (Ok tt, set_elems (λ l, <[x := attachDomModule parsedHtml e]> l) s).
Proof.
  intros Hx. unfold attachDomModule_heap.
  destruct (p_dom_module parsedHtml) eqn:E.
  - unfold attachDomModule. rewrite E. cbn. unfold ret, set_elems.
    rewrite list_insert_id by done. by destruct s.
  - unfold element_is. erewrite bind_ok; last first.
    { erewrite bind_ok by reflexivity. rewrite Hx. reflexivity. }
    unfold modify, set_elems. cbn [elems]. by rewrite Hx.
Qed.

Lemma attach_all parsedHtml rs : ∀ s,
  Forall (λ x, x < length (elems s)) rs →
  ∃ s', forEach (VElement <$> rs) (attachDomModule_heap parsedHtml) s = (Ok tt, s')
      ∧ (∀ x e, elems s !! x = Some e →
                elems s' !! x = Some (if bool_decide (x ∈ rs)
                                      then attachDomModule parsedHtml e else e))
      ∧ objs s' = objs s ∧ this s' = this s ∧ promises s' = promises s
      ∧ jobs s' = jobs s ∧ visited s' = visited s.
Proof.
  induction rs as [|x rs IH]; intros s Hv.
  - exists s. cbn. split; [done|]. split; [|done]. intros x e Hx. done.
  - apply Forall_cons in Hv as [Hx Hv].
    destruct (lookup_lt_is_Some_2 _ _ Hx) as [e He].
    cbn [fmap list_fmap forEach].
    erewrite bind_ok by (by apply attachDomModule_heap_ok).
    destruct (IH (set_elems (λ l, <[x := attachDomModule parsedHtml e]> l) s))
      as (s' & E & Hel & Ho & Ht & Hp & Hj & Hvi).
    { cbn. by rewrite length_insert. }
    exists s'. split; [exact E|]. split; [|done].
    intros y ey Hy. destruct (decide (y = x)) as [->|Hne].
    + assert (ey = e) as -> by congruence.
      rewrite (bool_decide_eq_true_2 (x ∈ x :: rs)) by apply list_elem_of_here.
      erewrite Hel; last first.
      { cbn. apply list_lookup_insert_eq. done. }
      case_bool_decide; [|done]. f_equal.
      unfold attachDomModule. apply attachDomModule_loop_twice.
    + erewrite Hel; last first.
      { cbn. by rewrite list_lookup_insert_ne. }
      f_equal. assert (bool_decide (y ∈ x :: rs) = bool_decide (y ∈ rs)) as ->; [|done].
      apply bool_decide_ext. rewrite elem_of_cons. split; [by intros [?|?]|by right].
Qed.

Section TreeHtml.

Variable importParse : string → exn + Parsed.
Variable jsParse : string → bool → exn + ParsedJs.
Variable url_resolve : string → string → string.

(** The callback of lines 230-238 on the metadata object of a document and
    the document's parsed text: it sets [html] on that object, binds to
    every element of its [elements] list the first dom-module of the
    document that carries the element's name (an element without such a
    dom-module is left as it is), and returns the same object; no other
    element and no other object is touched. *)
Theorem tree_html_attaches_dom_modules r o rs parsedHtml s :
  objs s !! r = Some o →
  o_elements o = Some (VElement <$> rs) →
  Forall (λ x, x < length (elems s)) rs →
  ∃ s', call importParse jsParse url_resolve (cb_tree_html (VObj r)) (VParsed parsedHtml) s
        = (Ok (VObj r), s')
      ∧ objs s' = <[r := with_html parsedHtml o]> (objs s)
      ∧ (∀ x e, elems s !! x = Some e →
                elems s' !! x = Some (if bool_decide (x ∈ rs)
                                      then attachDomModule parsedHtml e else e))
      ∧ this s' = this s ∧ promises s' = promises s ∧ jobs s' = jobs s.
Proof.
  intros Hr He Hv. cbn [call].
  erewrite bind_ok by (by apply write_obj_ok).
  erewrite bind_ok; last first.
  { apply read_obj_ok. cbn. apply list_lookup_insert_eq. by eapply lookup_lt_Some. }
  cbn [o_elements with_html]. rewrite He.
  destruct (attach_all parsedHtml rs (set_objs (λ l, <[r := with_html parsedHtml o]> l) s))
    as (s' & E & Hel & Ho & Ht & Hp & Hj & _); [exact Hv|].
  erewrite bind_ok by exact E.
  exists s'. split; [reflexivity|]. rewrite Ho, Ht, Hp, Hj. done.
Qed.

End TreeHtml.

(** ** The statements above, on example inputs *)

Lemma constructor_rethrows_parse_failure_witness :
  ∃ s, Monomers_new no_document no_script absolute "A" false "A" true
       = (Throw (Opaque "syntax error"), s)
     ∧ html (this s) = ∅ ∧ root (this s) = Undefined
     ∧ parses s = ["A"] ∧ requests s = [].
Proof.
  apply (constructor_rethrows_parse_failure no_document no_script absolute
           "A" false "A" true (Opaque "syntax error")); reflexivity.
Defined.

Lemma failed_parse_is_parsed_again_witness :
  ∃ s1 s2,
    _parseHTML no_document no_script absolute "A" "A" (initial true false)
    = (Throw (Opaque "syntax error"), s1)
    ∧ _parseHTML no_document no_script absolute "A" "A" s1
      = (Throw (Opaque "syntax error"), s2)
    ∧ occurrences "A" (parses s2) = occurrences "A" (parses (initial true false)) + 2
    ∧ html (this s2) = html (this (initial true false)).
Proof.
  apply (failed_parse_is_parsed_again no_document no_script absolute
           "A" "A" (Opaque "syntax error") (initial true false)); reflexivity.
Defined.

Lemma import_of_unparsable_document_rejects_witness :
  let s' := (run_job no_document no_script absolute
               (JReact (RThen (Some (cb_import "B")) None 0)
                       (Fulfilled (VString "B"))) awaiting).2 in
  promises s' !! 0 = Some (Settled (Rejected (Opaque "syntax error")))
  ∧ html (this s') = html (this awaiting).
Proof.
  apply (import_of_unparsable_document_rejects no_document no_script absolute
           "B" "B" (Opaque "syntax error") 0 [] awaiting); reflexivity.
Defined.

Lemma external_script_without_loader_is_empty_witness :
  ∃ s', _processScript no_script absolute external_script "A" (initial false false)
        = (Ok (VPromise (length (promises (initial false false)))), s')
      ∧ promises s' = promises (initial false false)
                      ++ [Settled (Fulfilled (VObj EMPTY_METADATA))]
      ∧ requests s' = requests (initial false false)
      ∧ this s' = this (initial false false)
      ∧ objs s' = objs (initial false false) ∧ jobs s' = jobs (initial false false).
Proof.
  apply (external_script_without_loader_is_empty no_script absolute external_script
           "A" (initial false false)); reflexivity.
Defined.

Lemma external_script_is_requested_once_witness :
  ∃ s', _processScript no_script absolute external_script "A" (initial true false)
        = (Ok (VPromise (length (promises (initial true false)) + 2)), s')
      ∧ requests s' = requests (initial true false)
                      ++ [(length (promises (initial true false)), absolute "A" "a.js")]
      ∧ promises s' = promises (initial true false) ++
          [Pending [RThen (Some (cb_script external_script "A")) None
                      (length (promises (initial true false)) + 1)];
           Pending [RThen None (Some cb_rethrow)
                      (length (promises (initial true false)) + 2)];
           Pending []]
      ∧ this s' = this (initial true false) ∧ jobs s' = jobs (initial true false).
Proof.
  apply (external_script_is_requested_once no_script absolute external_script
           "A" "a.js" (initial true false)); [reflexivity|discriminate|reflexivity].
Defined.

Lemma failing_first_script_witness :
  ∃ s', _parseHTML (λ _, inr empty_script_document) no_script absolute "A" "A"
          (initial true false)
        = (Throw (JsTypeError "Cannot read property 'value' of undefined"), s')
      ∧ this s' = this (initial true false)
      ∧ requests s' = requests (initial true false)
      ∧ jobs s' = jobs (initial true false)
      ∧ parses s' = parses (initial true false) ++ ["A"].
Proof.
  apply (failing_first_script_leaves_document_unregistered
           (λ _, inr empty_script_document) no_script absolute "A" "A"
           empty_script_document {| attrs := []; childNodes := [] |} []
           (JsTypeError "Cannot read property 'value' of undefined")
           (initial true false));
    [reflexivity..|left; split; reflexivity].
Defined.

Lemma prototype_named_root_witness :
  ∃ s, Monomers_new no_document no_script absolute "<html>" false "constructor" true
       = (Ok tt, s)
     ∧ root (this s) = Builtin ∧ html (this s) = ∅ ∧ parses s = []
     ∧ promises s = []
     ∧ ∃ s', metadataTree s
             = (Throw (JsTypeError "Cannot read property 'then' of undefined"), s').
Proof.
  apply (prototype_named_root_is_never_parsed no_document no_script absolute
           "<html>" false "constructor" true); reflexivity.
Defined.

Lemma fetched_script_with_syntax_error_witness :
  let s' := (run_job no_document no_script absolute
               (JReact (RThen (Some (cb_script external_script "A")) None 0)
                       (Fulfilled (VString "function ("))) awaiting).2 in
  promises s' !! 0 = Some (Settled (Rejected (Opaque "syntax error")))
  ∧ requests s' = requests awaiting ∧ this s' = this awaiting.
Proof.
  apply (fetched_script_with_syntax_error_rejects no_document no_script absolute
           external_script "A" "function (" (Opaque "syntax error") 0 [] awaiting);
    [apply NoDup_singleton|reflexivity|reflexivity].
Defined.

Lemma duplicate_element_definition_witness :
  ∃ s', _processScript (λ _ _, inr twice_defined) absolute (inline_script "define") "A"
          (initial true false)
        = (Throw (JsError ("Duplicate element definition: " +:+ "x-a")), s')
      ∧ (∀ k, js_in k (elements (this s'))
              = js_in k (elements (this (initial true false)))
                || bool_decide (k ∈ ["x-a"]))
      ∧ modules (this s') = modules (this (initial true false))
      ∧ html (this s') = html (this (initial true false))
      ∧ requests s' = requests (initial true false).
Proof.
  apply (duplicate_element_definition_throws (λ _ _, inr twice_defined) absolute
           (inline_script "define") "A" "define" [] twice_defined ["x-a"] "x-a" []
           (initial true false));
    [reflexivity|reflexivity|reflexivity|reflexivity|apply NoDup_singleton
    |repeat constructor|right; apply list_elem_of_here].
Defined.

Lemma without_loader_nothing_is_requested_witness :
  (∀ s', reaches no_document no_script absolute (initial false false) s' →
         requests s' = requests (initial false false) ∧ loader (this s') = false)
  ∧ requests (metadataTree (initial false false)).2 = requests (initial false false)
  ∧ ∀ htmlImport href, requests (_parseHTML no_document no_script absolute
                                   htmlImport href (initial false false)).2
                       = requests (initial false false).
Proof.
  apply (without_loader_nothing_is_requested no_document no_script absolute
           (initial false false)); reflexivity.
Defined.

Lemma registries_along_a_run_witness :
  let s := drain (parser_of twice_site) (λ t _, parser_of element_scripts t) absolute 1000
             (Monomers_new (parser_of twice_site) (λ t _, parser_of element_scripts t)
                absolute "A" false "A" true).2 in
  modules (this s) = ∅
  ∧ ∀ s' name, js_in name (elements (this s)) = true →
               reaches (parser_of twice_site) (λ t _, parser_of element_scripts t)
                 absolute s s' →
               js_in name (elements (this s')) = true.
Proof.
  intros s.
  apply (registries_along_a_run (parser_of twice_site)
           (λ t _, parser_of element_scripts t) absolute "A" false "A" true s).
  apply reaches_drain.
Defined.

Lemma reduce_concatenates_witness :
  ∃ s', call no_document no_script absolute cb_reduce (VArray (VObj <$> [1]))
          one_script_heap
        = (Ok (VObj (length (objs one_script_heap) + length (@nil nat))), s')
      ∧ objs s' !! (length (objs one_script_heap) + length (@nil nat))
        = Some (metadata_object
                  ([] ++ concat ((λ o, default [] (o_elements o))
                                   <$> [metadata_object [VElement 0] [VModule "m"]]))
                  ([] ++ concat ((λ o, default [] (o_modules o))
                                   <$> [metadata_object [VElement 0] [VModule "m"]])))
      ∧ (∀ i x, objs one_script_heap !! i = Some x → objs s' !! i = Some x)
      ∧ this s' = this one_script_heap ∧ promises s' = promises one_script_heap
      ∧ jobs s' = jobs one_script_heap.
Proof.
  apply (reduce_concatenates_in_script_order no_document no_script absolute
           1 [] (metadata_object [VElement 0] [VModule "m"]) []
           (metadata_object [] []) [] [] one_script_heap);
    [reflexivity|reflexivity|reflexivity|].
  repeat constructor; eexists; reflexivity.
Defined.

Lemma tree_loop_marks_witness :
  ∃ depMetadata s' d',
    forEach_acc ["B"; "C"; "B"] (tree_child 0) [] in_tree = (Ok depMetadata, s')
    ∧ visited s' !! 0 = Some d'
    ∧ ∀ h, seen d' h = true ↔ seen ∅ h = true ∨ h ∈ ["B"; "C"; "B"].
Proof.
  apply (tree_loop_marks_every_address 0 ["B"; "C"; "B"] in_tree ∅); reflexivity.
Defined.

Lemma build_is_chained_witness :
  let build := length (promises in_tree) + 1 in
  let reaction := RThen (Some (cb_tree_next "B" 0)) None build in
  ∃ s', tree_child 0 [0] "B" in_tree = (Ok ([0] ++ [build]), s')
      ∧ promises s' !! build = Some (Pending [])
      ∧ match last [0] with
        | None => jobs s' = jobs in_tree ++ [JReact reaction (Fulfilled (VBool true))]
        | Some previous =>
            match promises in_tree !! previous with
            | Some (Pending rs) =>
                promises s' !! previous = Some (Pending (rs ++ [reaction]))
                ∧ jobs s' = jobs in_tree
            | Some (Settled o) => jobs s' = jobs in_tree ++ [JReact reaction o]
            | None => True
            end
        end.
Proof.
  apply (build_is_chained_on_previous_entry 0 [0] "B" in_tree ∅);
    [reflexivity|reflexivity|].
  repeat constructor.
Defined.

Lemma prototype_named_import_witness :
  ∃ s', tree_child 0 [] "constructor" in_tree
        = (Ok ([] ++ [length (promises in_tree)]), s')
      ∧ promises s' = promises in_tree
                      ++ [Settled (Fulfilled (VObj (length (objs in_tree))))]
      ∧ objs s' = objs in_tree ++ [empty_object]
      ∧ visited s' = visited in_tree ∧ jobs s' = jobs in_tree.
Proof.
  apply (prototype_named_import_is_a_placeholder 0 [] "constructor" in_tree ∅);
    reflexivity.
Defined.

Lemma import_links_are_ignored_witness :
  let n := length (promises (initial false false)) in
  let m := {| href := "A"; htmlLoaded := n + 1; metadataLoaded := n;
              depsLoaded := n + 4 |} in
  ∃ s', _parseHTML (λ _, inr linking_document) no_script absolute "A" "A"
          (initial false false) = (Ok (Own m), s')
      ∧ html (this s') = <[ "A" := m ]> (html (this (initial false false)))
      ∧ jobs s' = jobs (initial false false)
                  ++ [JReact (RThen (Some (cb_depHrefs [])) None (n + 3))
                             (Fulfilled (VArray []))]
      ∧ promises s' = promises (initial false false) ++
          [Settled (Fulfilled (VObj EMPTY_METADATA));
           Settled (Fulfilled (VParsed linking_document));
           Settled (Fulfilled (VArray []));
           Pending [RThen None (Some cb_rethrow) (n + 4)]; Pending []]
      ∧ requests s' = requests (initial false false).
Proof.
  apply (import_links_are_ignored_without_loader (λ _, inr linking_document) no_script
           absolute "A" "A" linking_document (initial false false)); reflexivity.
Defined.

Lemma build_of_unregistered_address_witness :
  let s' := (run_job no_document no_script absolute
               (JReact (RThen (Some (cb_tree_next "B" 0)) None 0)
                       (Fulfilled (VBool true))) awaiting).2 in
  promises s' !! 0
  = Some (Settled (Rejected (JsTypeError
      (if inherited "B" then "Cannot read property 'then' of undefined"
       else "Cannot read property 'metadataLoaded' of undefined"))))
  ∧ html (this s') = html (this awaiting) ∧ visited s' = visited awaiting.
Proof.
  apply (build_of_unregistered_address_rejects no_document no_script absolute
           "B" 0 (VBool true) 0 [] awaiting); reflexivity.
Defined.

Lemma inline_script_registers_its_elements_witness :
  ∃ s', _processScript (λ _ _, inr two_elements) absolute (inline_script "define") "A"
          (initial true false)
        = (Ok (VObj (length (objs (initial true false)))), s')
      ∧ objs s' = objs (initial true false) ++
          [{| o_elements := Some (VElement <$> seq (length (elems (initial true false)))
                                                   (length ["x-a"; "x-b"]));
              o_modules := map VModule <$> js_modules two_elements;
              o_imports := None; o_href := None; o_html := None |}]
      ∧ elems s' = elems (initial true false) ++ (parsed_element <$> ["x-a"; "x-b"])
      ∧ (∀ i k, ["x-a"; "x-b"] !! i = Some k →
                elements (this s') !! k = Some (length (elems (initial true false)) + i))
      ∧ (∀ k, k ∉ ["x-a"; "x-b"] →
              elements (this s') !! k = elements (this (initial true false)) !! k)
      ∧ modules (this s') = modules (this (initial true false))
      ∧ html (this s') = html (this (initial true false))
      ∧ requests s' = requests (initial true false)
      ∧ promises s' = promises (initial true false)
      ∧ jobs s' = jobs (initial true false).
Proof.
  apply (inline_script_registers_its_elements (λ _ _, inr two_elements) absolute
           (inline_script "define") "A" "define" [] two_elements ["x-a"; "x-b"]
           (initial true false));
    [reflexivity|reflexivity|reflexivity|reflexivity|left; reflexivity| |].
  - apply (bool_decide_unpack _). vm_compute. exact I.
  - repeat constructor.
Defined.

Lemma tree_html_attaches_dom_modules_witness :
  ∃ s', call no_document no_script absolute (cb_tree_html (VObj 1))
          (VParsed dom_module_document) one_element_heap
        = (Ok (VObj 1), s')
      ∧ objs s' = <[1 := with_html dom_module_document
                           (metadata_object [VElement 0] [VModule "m"])]>
                    (objs one_element_heap)
      ∧ (∀ x e, elems one_element_heap !! x = Some e →
                elems s' !! x = Some (if bool_decide (x ∈ [0])
                                      then attachDomModule dom_module_document e else e))
      ∧ this s' = this one_element_heap ∧ promises s' = promises one_element_heap
      ∧ jobs s' = jobs one_element_heap.
Proof.
  apply (tree_html_attaches_dom_modules no_document no_script absolute
           1 (metadata_object [VElement 0] [VModule "m"]) [0] dom_module_document
           one_element_heap); [reflexivity|reflexivity|].
  repeat constructor.
Defined.

(** ** The tree callbacks along a run *)

#[global] Instance keeps_tree_inv_preorder : PreOrder keeps_tree_inv.
Proof. split; [intros s H; exact H|]. intros s1 s2 s3 H1 H2 H. by apply H2, H1. Qed.

#[global] Instance stable_preorder : PreOrder stable.
Proof.
  split; [by intros s|]. intros s1 s2 s3 [H1 H2] [H3 H4]. split; eauto.
Qed.

Lemma ext_stable s s' : ext s s' → stable s s'.
Proof. intros E. split; apply E. Qed.

Lemma node_stable s s' m : stable s s' → node s m → node s' m.
Proof. intros [_ H] [k Hk]. exists k. by apply H. Qed.

Lemma aggregate_of_stable s s' m v : stable s s' → aggregate_of s m v → aggregate_of s' m v.
Proof. intros St [Hn Hp]. split; [by eapply node_stable|by apply St]. Qed.

Lemma tree_reaction_ok_stable s s' q f :
  stable s s' → tree_reaction_ok s q f → tree_reaction_ok s' q f.
Proof.
  intros St. destruct f; simpl; try done.
  - intros [? ?]. split; [by eapply node_stable|done].
  - intros [? ?]. split; [by eapply aggregate_of_stable|done].
  - by apply aggregate_of_stable.
  - intros (m & ? & ?). exists m. split; [by eapply aggregate_of_stable|done].
Qed.

Lemma tree_job_ok_stable s s' f o :
  stable s s' → tree_job_ok s f o → tree_job_ok s' f o.
Proof.
  intros St. destruct f; simpl; try done.
  - intros [? ?]. split; [by eapply node_stable|by apply St].
  - intros [? ?]. split; [by eapply aggregate_of_stable|by apply St].
  - by apply aggregate_of_stable.
  - intros (m & ? & ?). exists m. split; [by eapply aggregate_of_stable|by apply St].
Qed.

(** A reaction that was well bound on [q] is run well bound when [q] is
    settled. *)
Lemma tree_reaction_job s q f o :
  tree_reaction_ok s q f → promises s !! q = Some (Settled o) → tree_job_ok s f o.
Proof.
  destruct f; simpl; try done.
  - by intros [? ->] ?.
  - by intros [? ->] ?.
  - intros (m & ? & ->) ?. by exists m.
Qed.

Lemma settle_pending q o rs s :
  promises s !! q = Some (Pending rs) →
  settle q o s
  = (Ok tt, set_jobs (λ j, j ++ ((λ r, JReact r o) <$> rs))
              (set_promises (λ ps, <[q := Settled o]> ps) s)).
Proof.
  intros Hq. unfold settle. rewrite (bind_ok _ _ s s s) by reflexivity. rewrite Hq.
  erewrite bind_ok by reflexivity.
  generalize (set_promises (λ ps, <[q := Settled o]> ps) s). clear.
  induction rs as [|r rs IH]; intros s.
  - cbn. unfold ret, set_jobs. rewrite app_nil_r. by destruct s.
  - cbn [forEach fmap list_fmap].
    change ((enqueue (JReact r o) ;;; forEach rs (λ r, enqueue (JReact r o))) s)
      with (forEach rs (λ r, enqueue (JReact r o)) (set_jobs (λ q, q ++ [JReact r o]) s)).
    rewrite IH. f_equal. unfold set_jobs. cbn. by rewrite <- app_assoc.
Qed.

Lemma settle_not_pending q o s :
  (∀ rs, promises s !! q ≠ Some (Pending rs)) → settle q o s = (Ok tt, s).
Proof.
  intros Hq. unfold settle. rewrite (bind_ok _ _ s s s) by reflexivity.
  destruct (promises s !! q) as [[rs|]|] eqn:E; try done. by destruct (Hq rs).
Qed.

Lemma inv_settle q o : keeps keeps_tree_inv (settle q o).
Proof.
  intros s (Hr & Hj & Hroot).
  destruct (promises s !! q) as [[rs|o0]|] eqn:Hq.
  2,3: by (rewrite settle_not_pending; [done|intros rs0; congruence]).
  rewrite (settle_pending _ _ _ _ Hq). cbn [snd].
  set (s' := set_jobs _ _).
  assert (stable s s') as St.
  { split; [|done]. intros p o1 Hp. subst s'. cbn.
    rewrite list_lookup_insert_ne; [done|]. intros ->. congruence. }
  assert (promises s' !! q = Some (Settled o)) as Hq'.
  { subst s'. cbn. apply list_lookup_insert_eq. by eapply lookup_lt_Some. }
  split; [|split].
  - intros q' rs' f r t Hq'' Hin.
    assert (q' ≠ q) as Hne by (intros ->; congruence).
    apply (tree_reaction_ok_stable s); [done|]. eapply Hr; [|done].
    subst s'. cbn in Hq''. by rewrite list_lookup_insert_ne in Hq''.
  - intros f r t o1 Hin. subst s'. cbn [jobs set_jobs set_promises] in Hin.
    apply elem_of_app in Hin as [Hin|Hin].
    + eapply tree_job_ok_stable; [exact St|]. by eapply Hj.
    + apply list_elem_of_fmap in Hin as (r0 & [= <- <-] & Hin).
      eapply tree_reaction_job; [|exact Hq'].
      eapply tree_reaction_ok_stable; [exact St|]. by eapply Hr.
  - intros m Hm. eapply node_stable; [exact St|]. by apply Hroot.
Qed.

Lemma inv_alloc_promise st o :
  (∀ rs, st = Pending rs → rs = []) → keeps keeps_tree_inv (alloc_promise st o).
Proof.
  intros Hst s (Hr & Hj & Hroot). cbn [alloc_promise snd].
  set (s' := set_history _ _).
  assert (stable s s') as St.
  { split; [|done]. intros p o1 Hp. subst s'. cbn. by apply lookup_app_Some_l. }
  split; [|split].
  - intros q rs f r t Hq Hin. subst s'. cbn in Hq.
    apply lookup_app_Some in Hq as [Hq|[_ Hq]].
    + eapply tree_reaction_ok_stable; [exact St|]. by eapply Hr.
    + apply list_lookup_singleton_Some in Hq as [_ ->].
      rewrite (Hst rs eq_refl) in Hin. by apply elem_of_nil in Hin.
  - intros f r t o1 Hin. eapply tree_job_ok_stable; [exact St|]. by eapply Hj.
  - intros m Hm. eapply node_stable; [exact St|]. by apply Hroot.
Qed.

(** Registering a reaction: a callback of the tree builder has to be well
    bound where it is registered. *)
Lemma inv_perform_then q r0 s :
  tree_inv s →
  (∀ f r t, r0 = RThen (Some f) r t → tree_reaction_ok s q f) →
  tree_inv (perform_then q r0 s).2.
Proof.
  intros (Hr & Hj & Hroot) Hok. unfold perform_then.
  rewrite (bind_ok _ _ s s s) by reflexivity.
  destruct (promises s !! q) as [[rs|o]|] eqn:Hq; [| |done].
  - cbn [modify snd]. set (s' := set_promises _ _).
    assert (stable s s') as St.
    { split; [|done]. intros p o1 Hp. subst s'. cbn.
      rewrite list_lookup_insert_ne; [done|]. intros ->. congruence. }
    split; [|split].
    + intros q' rs' f r t Hq' Hin. subst s'. cbn in Hq'.
      destruct (decide (q' = q)) as [->|Hne].
      * rewrite list_lookup_insert_eq in Hq' by (by eapply lookup_lt_Some).
        injection Hq' as <-. apply elem_of_app in Hin as [Hin|Hin].
        -- eapply tree_reaction_ok_stable; [exact St|]. by eapply Hr.
        -- apply list_elem_of_singleton in Hin.
           eapply tree_reaction_ok_stable; [exact St|]. by eapply Hok.
      * rewrite list_lookup_insert_ne in Hq' by done.
        eapply tree_reaction_ok_stable; [exact St|]. by eapply Hr.
    + intros f r t o1 Hin. eapply tree_job_ok_stable; [exact St|]. by eapply Hj.
    + intros m Hm. eapply node_stable; [exact St|]. by apply Hroot.
  - unfold enqueue. cbn [modify snd]. split; [|split].
    + intros q' rs' f r t Hq' Hin. by eapply Hr.
    + intros f r t o1 Hin. cbn in Hin. apply elem_of_app in Hin as [Hin|Hin].
      * by eapply Hj.
      * apply list_elem_of_singleton in Hin. injection Hin as <- <-.
        eapply (tree_reaction_job s q); [by eapply Hok|done].
    + done.
Qed.

Lemma inv_perform_then_plain q r0 :
  (∀ f r t, r0 = RThen (Some f) r t → ∀ s q, tree_reaction_ok s q f) →
  keeps keeps_tree_inv (perform_then q r0).
Proof. intros H s Hs. apply inv_perform_then; [done|]. intros. by eapply H. Qed.

Lemma inv_then_ q f r s :
  tree_inv s →
  (∀ g, f = Some g → tree_reaction_ok s q g) →
  tree_inv (then_ q f r s).2.
Proof.
  intros Hs Hok. rewrite then__unfold. cbn [snd].
  apply inv_perform_then.
  - apply (inv_alloc_promise (Pending []) _ (λ rs H, eq_sym (f_equal
             (λ x, match x with Pending l => l | _ => [] end) H)) s Hs).
  - intros g r' t [= -> _ _].
    eapply tree_reaction_ok_stable; [|by apply Hok].
    split; [|done]. intros p o Hp. cbn. by apply lookup_app_Some_l.
Qed.

Lemma inv_then_plain q f r :
  (∀ g, f = Some g → ∀ s q, tree_reaction_ok s q g) →
  keeps keeps_tree_inv (then_ q f r).
Proof. intros H s Hs. apply inv_then_; [done|]. intros. by eapply H. Qed.

Lemma inv_enqueue_thenable t q : keeps keeps_tree_inv (enqueue (JThenable t q)).
Proof.
  intros s (Hr & Hj & Hroot). split; [done|split; [|done]].
  intros f r t0 o Hin. cbn in Hin. apply elem_of_app in Hin as [Hin|Hin].
  - by eapply Hj.
  - apply list_elem_of_singleton in Hin. discriminate.
Qed.

Ltac inv_leaf :=
  idtac;
  first [ apply inv_alloc_promise; intros ? [=]; done
        | intros ? ?; assumption ].

Ltac inv_step :=
  first [ apply inv_settle
        | apply inv_perform_then_plain; intros ? ? ? [=]; done
        | apply inv_then_plain; intros ? [= <-] ? ?; exact I
        | apply inv_then_plain; intros ? [=]; done
        | apply inv_enqueue_thenable
        | keeps_step keeps_tree_inv inv_leaf ].

Ltac inv_auto := repeat inv_step.

Lemma inv_Promise_resolve x : keeps keeps_tree_inv (Promise_resolve x).
Proof. inv_auto. Qed.
Lemma inv_resolve t x : keeps keeps_tree_inv (resolve t x).
Proof. inv_auto. Qed.
Lemma inv_Promise_all l : keeps keeps_tree_inv (Promise_all l).
Proof. inv_auto. Qed.
Lemma inv_loader_request u : keeps keeps_tree_inv (loader_request u).
Proof. inv_auto. Qed.
Lemma inv_register_element v : keeps keeps_tree_inv (register_element v).
Proof. unfold register_element. inv_auto. Qed.
Lemma inv_register_module v : keeps keeps_tree_inv (register_module v).
Proof. unfold register_module. inv_auto. Qed.
Lemma inv_tree_child l acc h : keeps keeps_tree_inv (tree_child l acc h).
Proof. inv_auto. Qed.
Lemma inv_write_obj v f : keeps keeps_tree_inv (write_obj v f).
Proof. unfold write_obj. inv_auto. Qed.
Lemma inv_attachDomModule_heap p v : keeps keeps_tree_inv (attachDomModule_heap p v).
Proof. unfold attachDomModule_heap. inv_auto. Qed.

Lemma tree_inv_stable_same s s' :
  stable s s' → promises s' = promises s → jobs s' = jobs s →
  root (this s') = root (this s) → tree_inv s → tree_inv s'.
Proof.
  intros St Hp Hj Hroot (Hr & Hjs & Hro). split; [|split].
  - intros q rs f r t Hq Hin. rewrite Hp in Hq.
    eapply tree_reaction_ok_stable; [exact St|]. by eapply Hr.
  - intros f r t o Hin. rewrite Hj in Hin.
    eapply tree_job_ok_stable; [exact St|]. by eapply Hjs.
  - intros m Hm. rewrite Hroot in Hm. eapply node_stable; [exact St|]. by apply Hro.
Qed.

Lemma inv_register_document href m s :
  js_in href (html (this s)) = false → tree_inv s →
  tree_inv (set_this (set_html (λ h, <[href := m]> h)) s).
Proof.
  intros Hin. apply tree_inv_stable_same; try done.
  split; [done|]. intros k m' Hk. cbn. rewrite lookup_insert_ne; [done|].
  intros ->. apply js_in_false_lookup in Hin. congruence.
Qed.

Lemma inv_bind_fresh {A B} (m : M A) (k : A → M B) href :
  keeps keeps_tree_inv m → keeps same_docs m →
  (∀ a s, js_in href (html (this s)) = false → tree_inv s → tree_inv (k a s).2) →
  ∀ s, js_in href (html (this s)) = false → tree_inv s → tree_inv (bind m k s).2.
Proof.
  intros Hm Hd Hk s Hin Hs. unfold bind.
  specialize (Hm s Hs). specialize (Hd s). destruct Hd as [Hd _].
  destruct (m s) as [[a|e] s']; cbn [fst snd] in *; [|done].
  apply Hk; [by rewrite Hd|done].
Qed.

Section TreeInvariant.

Variable importParse : string → exn + Parsed.
Variable jsParse : string → bool → exn + ParsedJs.
Variable url_resolve : string → string → string.

Lemma inv__processScript script href :
  keeps keeps_tree_inv (_processScript jsParse url_resolve script href).
Proof.
  unfold _processScript, alloc_ParsedJs.
  repeat first [apply inv_register_element | apply inv_register_module
               | apply inv_loader_request | apply inv_Promise_resolve | inv_step].
Qed.

Lemma inv__processScripts scripts href :
  keeps keeps_tree_inv (_processScripts jsParse url_resolve scripts href).
Proof.
  unfold _processScripts.
  repeat first [apply inv__processScript | apply inv_Promise_all | inv_step].
Qed.

Lemma inv_import_link href acc link :
  keeps keeps_tree_inv (import_link url_resolve href acc link).
Proof.
  unfold import_link. repeat first [apply inv_loader_request | inv_step].
Qed.

Lemma inv__parseHTML htmlImport href :
  keeps keeps_tree_inv (_parseHTML importParse jsParse url_resolve htmlImport href).
Proof.
  apply (keeps_get_bind keeps_tree_inv). intros s0.
  destruct (js_in href (html (this s0))) eqn:Hin; [by intros ?|].
  unfold keeps_tree_inv. revert s0 Hin. apply inv_bind_fresh;
    [apply inv_Promise_resolve|apply docs_Promise_resolve|].
  intros m0 s Hin Hs. unfold bind at 1, modify at 1. cbn [fst snd].
  assert (js_in href (html (this (set_parses (λ l, l ++ [href]) s))) = false) as Hin' by done.
  assert (tree_inv (set_parses (λ l, l ++ [href]) s)) as Hs' by exact Hs.
  revert Hin' Hs'. generalize (set_parses (λ l, l ++ [href]) s). clear s Hin Hs.
  apply inv_bind_fresh.
  { destruct (importParse htmlImport); inv_auto. }
  { destruct (importParse htmlImport); docs. }
  intros parsed. apply inv_bind_fresh;
    [apply inv_Promise_resolve|apply docs_Promise_resolve|].
  intros htmlLoaded. apply inv_bind_fresh.
  { destruct (p_script parsed); repeat first [apply inv__processScripts | inv_step]. }
  { destruct (p_script parsed); repeat first [apply docs__processScripts | docs_step]. }
  intros md s Hin Hs. rewrite (bind_ok _ _ s s s) by reflexivity.
  revert Hs. apply (inv_bind_fresh _ _ href); [| |clear Hin|exact Hin].
  { destruct (loader (this s)); repeat first [apply inv_import_link | inv_step]. }
  { destruct (loader (this s)); repeat first [apply docs_import_link | docs_step]. }
  clear s. intros deps. apply inv_bind_fresh; [apply inv_Promise_all|apply docs_Promise_all|].
  intros all. apply inv_bind_fresh;
    [apply inv_then_plain; intros ? [= <-] ? ?; exact I|apply docs_then_|].
  intros t. apply inv_bind_fresh;
    [apply inv_then_plain; intros ? [=]|apply docs_then_|].
  intros c s Hin Hs. unfold bind, modify, ret. cbn [fst snd].
  by apply inv_register_document.
Qed.

Lemma inv__metadataTree n lh s :
  tree_inv s → (∀ m, n = Own m → node s m) → tree_inv (_metadataTree n lh s).2.
Proof.
  intros Hs Hn. destruct n as [m| |]; cbn [_metadataTree]; [|done..].
  apply inv_then_; [done|]. intros g [= <-]. split; [by apply Hn|done].
Qed.

Lemma ext_run {A} (m : M A) s : preserves m → stable s (m s).2.
Proof. intros H. apply ext_stable, H. Qed.

(** A callback that is run well bound leaves every callback well bound. *)
Lemma inv_call f arg s :
  tree_inv s → tree_job_ok s f (Fulfilled arg) →
  tree_inv (call importParse jsParse url_resolve f arg s).2.
Proof.
  intros Hs Hok. destruct f; cbn [call].
  - destruct arg; try done.
    match goal with |- tree_inv (?m s).2 =>
      assert (keeps keeps_tree_inv m) as K; [|exact (K s Hs)] end.
    repeat first [apply inv__parseHTML | inv_step].
  - done.
  - destruct arg; try done.
    match goal with |- tree_inv (?m s).2 =>
      assert (keeps keeps_tree_inv m) as K; [|exact (K s Hs)] end.
    inv_auto.
  - destruct arg; try done. by apply inv__processScript.
  - (* cb_tree_metadata *)
    destruct Hok as [Hn Hp].
    match goal with |- tree_inv (bind (then_ ?q ?g ?r) ?k s).2 =>
      pose proof (inv_then_ q g r s Hs) as H;
      unfold bind; destruct (then_ q g r s) as [[a|e] s']; cbn [snd] in *
    end.
    + apply H. intros g [= <-]. by split.
    + apply H. intros g [= <-]. by split.
  - (* cb_tree_deps *)
    destruct arg; try done. destruct Hok as [Hag _].
    match goal with |- tree_inv (bind ?m1 ?k1 s).2 =>
      assert (keeps keeps_tree_inv m1) as K1
        by (apply (keeps_forEach_acc keeps_tree_inv); intros; apply inv_tree_child);
      assert (preserves m1) as P1
        by (apply preserves_forEach_acc; intros; apply preserves_tree_child);
      pose proof (K1 s Hs) as Hs1; pose proof (ext_run m1 s P1) as St1;
      unfold bind at 1; destruct (m1 s) as [[ps|e] s1]; cbn [snd] in *; [|done]
    end.
    match goal with |- tree_inv (bind (Promise_all ?l2) ?k2 s1).2 =>
      pose proof (inv_Promise_all l2 s1 Hs1) as Hs2;
      pose proof (ext_run (Promise_all l2) s1 (preserves_Promise_all l2)) as St2;
      unfold bind at 1; destruct (Promise_all l2 s1) as [[all|e] s2];
      cbn [snd] in *; [|done]
    end.
    match goal with |- tree_inv (bind (then_ ?q ?g ?r) ?k s2).2 =>
      pose proof (inv_then_ q g r s2 Hs2) as H;
      unfold bind; destruct (then_ q g r s2) as [[a|e] s']; cbn [snd] in *
    end.
    + apply H. intros g [= <-]. cbn.
      eapply aggregate_of_stable; [|exact Hag]. by etrans.
    + apply H. intros g [= <-]. cbn.
      eapply aggregate_of_stable; [|exact Hag]. by etrans.
  - (* cb_tree_next *)
    rewrite (bind_ok _ _ s s s) by reflexivity.
    match goal with |- tree_inv (bind (_metadataTree ?n ?lh) ?k s).2 =>
      pose proof (inv__metadataTree n lh s Hs) as H;
      unfold bind; destruct (_metadataTree n lh s) as [[a|e] s']; cbn [snd] in *
    end.
    + apply H. intros m Hm.
      match type of Hm with js_get _ ?h = _ =>
        exists h; unfold js_get in Hm;
        destruct (html (this s) !! h); [congruence|by destruct (inherited h)]
      end.
    + apply H. intros m Hm.
      match type of Hm with js_get _ ?h = _ =>
        exists h; unfold js_get in Hm;
        destruct (html (this s) !! h); [congruence|by destruct (inherited h)]
      end.
  - (* cb_tree_imports *)
    destruct arg; try done. cbn in Hok.
    match goal with |- tree_inv (bind ?m1 ?k1 s).2 =>
      pose proof (inv_write_obj _ _ s Hs : tree_inv (m1 s).2) as Hs1;
      pose proof (ext_run m1 s) as St1;
      unfold bind at 1; destruct (m1 s) as [[u|e] s1]; cbn [snd] in *; [|done]
    end.
    match goal with |- tree_inv (bind ?m2 ?k2 s1).2 =>
      pose proof (inv_write_obj _ _ s1 Hs1 : tree_inv (m2 s1).2) as Hs2;
      pose proof (ext_run m2 s1) as St2;
      unfold bind at 1; destruct (m2 s1) as [[u2|e] s2]; cbn [snd] in *; [|done]
    end.
    assert (stable s s2) as St.
    { etrans; [apply St1|apply St2]; by apply preserves_write_obj. }
    match goal with |- tree_inv (bind (then_ ?q ?g ?r) ?k s2).2 =>
      pose proof (inv_then_ q g r s2 Hs2) as H;
      unfold bind; destruct (then_ q g r s2) as [[a|e] s']; cbn [snd] in *
    end.
    + apply H. intros g [= <-]. cbn. exists htmlMonomer.
      split; [|done]. by eapply aggregate_of_stable.
    + apply H. intros g [= <-]. cbn. exists htmlMonomer.
      split; [|done]. by eapply aggregate_of_stable.
  - (* cb_tree_html *)
    destruct arg; try done.
    match goal with |- tree_inv (?m s).2 =>
      assert (keeps keeps_tree_inv m) as K; [|exact (K s Hs)] end.
    repeat first [apply inv_write_obj | apply inv_attachDomModule_heap | inv_step].
Qed.

Lemma inv_set_cur f s : tree_inv s → tree_inv (set_cur f s).
Proof. done. Qed.

Lemma tree_job_ok_set_cur g s f o : tree_job_ok s f o → tree_job_ok (set_cur g s) f o.
Proof. done. Qed.

Lemma inv_complete t (m : M value) s :
  tree_inv s → tree_inv (m (set_cur (λ _, Some t) s)).2 → tree_inv (complete t m s).2.
Proof.
  intros Hs Hm. unfold complete.
  destruct (m _) as [[x|e] s']; cbn [snd] in *.
  - assert (keeps keeps_tree_inv (note_returned t x ;;; resolve t x)) as K
      by (repeat first [apply inv_resolve | inv_step]).
    by apply K.
  - by apply inv_settle.
Qed.

Lemma inv_run_job j s :
  tree_inv s →
  (∀ f r t o, j = JReact (RThen (Some f) r t) o → tree_job_ok s f o) →
  tree_inv (run_job importParse jsParse url_resolve j s).2.
Proof.
  intros Hs Hj. destruct j as [[f r t|t|a i] [v|e]|t q]; cbn [run_job].
  - destruct f as [f|]; [|by apply inv_settle].
    apply inv_complete; [done|]. apply inv_call; [done|].
    apply tree_job_ok_set_cur. by eapply Hj.
  - destruct r as [[]|]; [|by apply inv_settle].
    apply inv_complete; [done|]. done.
  - by apply inv_resolve.
  - by apply inv_settle.
  - assert (keeps keeps_tree_inv (all_store a i v ;;; all_check a)) as K by inv_auto.
    by apply K.
  - match goal with |- tree_inv (?m s).2 =>
      assert (keeps keeps_tree_inv m) as K by inv_auto end.
    by apply K.
  - apply inv_perform_then; [done|]. intros f r t0 [=].
Qed.

Lemma inv_transition s s' :
  transition importParse jsParse url_resolve s s' → tree_inv s → tree_inv s'.
Proof.
  intros [H|p o H] Hs.
  - unfold step in H. destruct (jobs s) as [|j rest] eqn:Ej; [done|]. injection H as <-.
    apply inv_set_cur. unfold exec. destruct Hs as (Hr & Hjs & Hroot).
    apply inv_run_job.
    + split; [done|]. split; [|done]. intros f r t o Hin. cbn in Hin.
      eapply Hjs. rewrite Ej. by apply list_elem_of_further.
    + intros f r t o ->. eapply (Hjs f r t o). rewrite Ej. apply list_elem_of_here.
  - unfold deliver in H. destruct (promises s !! p) as [[rs|]|]; try done.
    case_bool_decide; [|done]. injection H as <-. by apply inv_settle.
Qed.

Lemma inv_metadataTree s : tree_inv s → tree_inv (metadataTree s).2.
Proof.
  intros Hs. unfold metadataTree. rewrite (bind_ok _ _ s s s) by reflexivity.
  erewrite bind_ok by reflexivity.
  apply inv__metadataTree; [done|]. intros m Hm. destruct Hs as (_ & _ & Hroot).
  by apply Hroot.
Qed.

Lemma inv_tree_run s s' :
  tree_run importParse jsParse url_resolve s s' → tree_inv s → tree_inv s'.
Proof.
  induction 1 as [|s1 s2 s3 H12 _ IH]; [done|]. intros Hs. apply IH.
  destruct H12 as [H|t H].
  - by eapply inv_transition.
  - pose proof (inv_metadataTree s1 Hs) as X. by rewrite H in X.
Qed.

(** What [_parseHTML] returns is what the table holds for the address. *)
Lemma _parseHTML_result htmlImport href s n s' :
  _parseHTML importParse jsParse url_resolve htmlImport href s = (Ok n, s') →
  n = js_get (html (this s')) href.
Proof.
  unfold _parseHTML. rewrite (bind_ok _ _ s s s) by reflexivity.
  destruct (js_in href (html (this s))); [by intros [= <- <-]|].
  do 10 (unfold bind at 1;
         match goal with |- context [match ?m ?st with _ => _ end] =>
           destruct (m st) as [[?|?] ?]; [|discriminate] end).
  intros [= <- <-]. unfold js_get. cbn. by rewrite lookup_insert_eq.
Qed.

Lemma inv_Monomers_new htmlImport attachAST href loader :
  tree_inv (Monomers_new importParse jsParse url_resolve htmlImport attachAST href loader).2.
Proof.
  unfold Monomers_new.
  assert (tree_inv (initial loader attachAST)) as H0.
  { split; [|split]; [intros q rs f r t Hq; by destruct q
                     |intros f r t o Hin; by apply elem_of_nil in Hin|done]. }
  pose proof (inv__parseHTML htmlImport href _ H0) as H1.
  pose proof (_parseHTML_result htmlImport href (initial loader attachAST)) as Hres.
  unfold bind. destruct (_parseHTML _ _ _ _ _ _) as [[n|e] s1]; cbn [snd] in *; [|done].
  destruct H1 as (Hr & Hj & _). split; [done|]. split; [done|].
  cbn. intros m ->. exists href. specialize (Hres _ _ eq_refl). unfold js_get in Hres.
  cbn. destruct (html (this s1) !! href); [congruence|by destruct (inherited href)].
Qed.

End TreeInvariant.

(** ** What one call of [_parseHTML] fetches, parses and registers *)

#[global] Instance same_parses_preorder : PreOrder same_parses.
Proof. split; [by intros s|]. intros s1 s2 s3 H1 H2. unfold same_parses in *. congruence. Qed.

#[global] Instance same_requests_preorder : PreOrder same_requests.
Proof.
  split; [by intros s|]. intros s1 s2 s3 [H1 H2] [H3 H4]. split; congruence.
Qed.

#[global] Instance settled_stay_preorder : PreOrder settled_stay.
Proof. split; [by intros s p o Hp|]. intros s1 s2 s3 H1 H2 p o Hp. by apply H2, H1. Qed.

Ltac frame_leaf :=
  idtac; intros ?; unfold same_parses, same_requests; simpl; repeat case_match; done.

Ltac parses_auto := repeat keeps_step same_parses frame_leaf.
Ltac requests_auto := repeat keeps_step same_requests frame_leaf.

Lemma keeps_settled {A} (m : M A) : preserves m → keeps settled_stay m.
Proof. intros H s p o. apply (H s). Qed.

Lemma parses_register_element v : keeps same_parses (register_element v).
Proof. unfold register_element. parses_auto. Qed.
Lemma parses_register_module v : keeps same_parses (register_module v).
Proof. unfold register_module. parses_auto. Qed.
Lemma requests_register_element v : keeps same_requests (register_element v).
Proof. unfold register_element. requests_auto. Qed.
Lemma requests_register_module v : keeps same_requests (register_module v).
Proof. unfold register_module. requests_auto. Qed.
Lemma requests_then_ q f r : keeps same_requests (then_ q f r).
Proof. requests_auto. Qed.
Lemma requests_Promise_all l : keeps same_requests (Promise_all l).
Proof. requests_auto. Qed.

Section OneCall.

Variable importParse : string → exn + Parsed.
Variable jsParse : string → bool → exn + ParsedJs.
Variable url_resolve : string → string → string.

Lemma parses__processScripts scripts address :
  keeps same_parses (_processScripts jsParse url_resolve scripts address).
Proof.
  unfold _processScripts, _processScript, alloc_ParsedJs.
  repeat first [apply parses_register_element | apply parses_register_module
               | keeps_step same_parses frame_leaf].
Qed.

(** A resolve of an address that has no node calls [importParse] once,
    whatever becomes of the call. *)
Lemma _parseHTML_logs_one_parse htmlImport address s :
  js_in address (html (this s)) = false →
  parses (_parseHTML importParse jsParse url_resolve htmlImport address s).2
  = parses s ++ [address].
Proof.
  intros Hin. unfold _parseHTML. rewrite (bind_ok _ _ s s s) by reflexivity.
  rewrite Hin. erewrite bind_ok by reflexivity. erewrite bind_ok by reflexivity.
  match goal with |- parses (?m ?st).2 = _ =>
    assert (keeps same_parses m) as K; [|exact (K st)] end.
  unfold import_link.
  repeat first [apply parses__processScripts | keeps_step same_parses frame_leaf].
Qed.

(** An inline script asks the loader for nothing. *)
Lemma inline_script_requests script address :
  truthy_str (getAttribute script "src") = false →
  keeps same_requests (_processScript jsParse url_resolve script address).
Proof.
  intros Hsrc. unfold _processScript, alloc_ParsedJs. rewrite Hsrc. cbn [negb].
  repeat first [apply requests_register_element | apply requests_register_module
               | keeps_step same_requests frame_leaf].
Qed.

Lemma external_script_requests script address s :
  truthy_str (getAttribute script "src") = true →
  loader (this s) = true →
  let s' := (_processScript jsParse url_resolve script address s).2 in
  requests s' = requests s ++
      [(length (promises s), url_resolve address (default "" (getAttribute script "src")))]
  ∧ loader (this s') = true.
Proof.
  intros Hsrc Hl s'. subst s'. unfold _processScript. rewrite Hsrc. cbn [negb].
  rewrite (bind_ok _ _ s s s) by reflexivity. rewrite Hl.
  erewrite bind_ok by reflexivity.
  match goal with |- requests (?m ?st).2 = _ ∧ _ =>
    assert (keeps same_requests m) as K by requests_auto;
    destruct (K st) as [-> ->]
  end.
  done.
Qed.

Lemma scripts_requests address scripts : ∀ acc s l s',
  loader (this s) = true →
  forEach_acc scripts (λ scriptPromises script,
      x <- _processScript jsParse url_resolve script address ;;
      ret (scriptPromises ++ [x])) acc s = (Ok l, s') →
  (requests s').*2 = (requests s).*2 ++ omap (script_target url_resolve address) scripts
  ∧ loader (this s') = true.
Proof.
  induction scripts as [|script scripts IH]; intros acc s l s' Hl.
  - intros [= <- <-]. cbn. by rewrite app_nil_r.
  - cbn [forEach_acc omap list_omap]. unfold bind at 1 2.
    destruct (_processScript jsParse url_resolve script address s) as [[x|e] s1] eqn:E1;
      [|discriminate].
    cbn [ret]. intros H. apply IH in H as [Hr Hl'].
    + split; [|done]. rewrite Hr. unfold script_target at 2.
      destruct (truthy_str (getAttribute script "src")) eqn:Hsrc.
      * pose proof (external_script_requests script address s Hsrc Hl) as [Hr1 _].
        rewrite E1 in Hr1. cbn [snd] in Hr1. rewrite Hr1, fmap_app, <- app_assoc. done.
      * pose proof (inline_script_requests script address Hsrc s) as [Hr1 _].
        rewrite E1 in Hr1. cbn [snd] in Hr1. by rewrite Hr1.
    + destruct (truthy_str (getAttribute script "src")) eqn:Hsrc.
      * pose proof (external_script_requests script address s Hsrc Hl) as [_ Hl1].
        by rewrite E1 in Hl1.
      * pose proof (inline_script_requests script address Hsrc s) as [_ Hl1].
        rewrite E1 in Hl1. cbn [snd] in Hl1. by rewrite Hl1.
Qed.

Lemma _processScripts_requests scripts address s p s' :
  loader (this s) = true →
  _processScripts jsParse url_resolve scripts address s = (Ok p, s') →
  (requests s').*2 = (requests s).*2 ++ omap (script_target url_resolve address) scripts
  ∧ loader (this s') = true.
Proof.
  intros Hl. unfold _processScripts. unfold bind at 1.
  match goal with |- context [match ?m s with _ => _ end] =>
    destruct (m s) as [[l|e] s1] eqn:E1; [|discriminate] end.
  apply scripts_requests in E1 as [Hr Hl1]; [|done].
  intros H.
  match type of H with ?m s1 = _ =>
    assert (keeps same_requests m) as K by requests_auto;
    destruct (K s1) as [Kr Kl]; rewrite H in Kr, Kl
  end.
  cbn [snd] in *. by rewrite Kr, Kl.
Qed.

Lemma links_requests address links : ∀ acc s,
  let r := forEach_acc links (import_link url_resolve address) acc s in
  (∃ deps, r.1 = Ok deps)
  ∧ (requests r.2).*2 = (requests s).*2 ++ omap (link_target url_resolve address) links
  ∧ loader (this r.2) = loader (this s).
Proof.
  induction links as [|link links IH]; intros [hs ds] s.
  - cbn. rewrite app_nil_r. eauto.
  - cbn [forEach_acc omap list_omap].
    destruct (import_link_spec url_resolve address hs ds link s)
      as (s1 & E & Hr & _ & Ht & _).
    erewrite bind_ok by exact E.
    match goal with |- context [forEach_acc links _ ?acc1 s1] =>
      destruct (IH acc1 s1) as (Hd & Hr' & Hl') end.
    split; [done|]. rewrite Hr', Hl', Hr, Ht. split; [|done].
    destruct (link_target url_resolve address link); [|by rewrite app_nil_r].
    by rewrite fmap_app, <- app_assoc.
Qed.

(** A resolve that returns, of an address that had no node, on an instance
    with a loader: what it has asked the loader for, and what it has
    registered. *)
Lemma _parseHTML_fresh htmlImport address parsed s n s' :
  js_in address (html (this s)) = false →
  importParse htmlImport = inr parsed →
  _parseHTML importParse jsParse url_resolve htmlImport address s = (Ok n, s') →
  ∃ m, n = Own m ∧ href m = address
     ∧ html (this s') !! address = Some m
     ∧ promises s' !! htmlLoaded m = Some (Settled (Fulfilled (VParsed parsed)))
     ∧ (loader (this s) = true →
        (requests s').*2
        = (requests s).*2
          ++ omap (script_target url_resolve address) (default [] (p_script parsed))
          ++ omap (link_target url_resolve address) (p_import parsed)).
Proof.
  intros Hin Hp. unfold _parseHTML. rewrite (bind_ok _ _ s s s) by reflexivity.
  rewrite Hin. erewrite bind_ok by reflexivity. erewrite bind_ok by reflexivity.
  rewrite Hp. erewrite bind_ok by reflexivity. erewrite bind_ok by reflexivity.
  set (s4 := set_history _ (set_promises _ (set_parses _ _))).
  assert (promises s4 !! (length (promises s) + 1)
          = Some (Settled (Fulfilled (VParsed parsed)))) as H4.
  { subst s4. cbn. rewrite <- app_assoc. rewrite lookup_app_r by lia.
    by replace (length (promises s) + 1 - length (promises s)) with 1 by lia. }
  assert (requests s4 = requests s ∧ loader (this s4) = loader (this s)) as [Hr4 Hl4]
    by done.
  assert (length (promises (set_parses (λ l, l ++ [address])
            (set_history (λ h, h ++ [{| h_origin := OValue; h_parent := cur s;
                                        h_follows := None |}])
               (set_promises (λ ps, ps ++ [Settled (Fulfilled (VObj EMPTY_METADATA))]) s))))
          = length (promises s) + 1) as ->
    by (cbn; rewrite length_app; simpl; lia).
  clearbody s4.
  (* the scripts *)
  unfold bind at 1.
  match goal with |- context [match ?m s4 with _ => _ end] =>
    assert (preserves m) as P5
      by (destruct (p_script parsed); [|apply preserves_ret];
          apply preserves_bind; [apply preserves__processScripts|intros; apply preserves_ret]);
    pose proof (keeps_settled m P5 s4 _ _ H4) as H5;
    destruct (m s4) as [[md|e] s5] eqn:E5; [|discriminate]
  end.
  cbn [snd] in H5. clear P5.
  assert (loader (this s) = true →
          (requests s5).*2 = (requests s).*2
             ++ omap (script_target url_resolve address) (default [] (p_script parsed))
          ∧ loader (this s5) = true) as R5.
  { intros Hl. rewrite <- Hr4. rewrite <- Hl4 in Hl.
    destruct (p_script parsed) as [scripts|]; cbn [default].
    - unfold bind at 1 in E5.
      destruct (_processScripts jsParse url_resolve scripts address s4)
        as [[p|e] s4'] eqn:E4'; [|discriminate].
      injection E5 as <- <-. by eapply _processScripts_requests.
    - injection E5 as <- <-. cbn. by rewrite app_nil_r. }
  (* the links *)
  rewrite (bind_ok _ _ s5 s5 s5) by reflexivity.
  unfold bind at 1.
  match goal with |- context [match ?m s5 with _ => _ end] =>
    assert (preserves m) as P6
      by (destruct (loader (this s5)); [|apply preserves_ret];
          apply preserves_forEach_acc; intros; apply preserves_import_link);
    pose proof (keeps_settled m P6 s5 _ _ H5) as H6;
    assert (loader (this s) = true →
            (requests (m s5).2).*2 = (requests s).*2
              ++ omap (script_target url_resolve address) (default [] (p_script parsed))
              ++ omap (link_target url_resolve address) (p_import parsed)) as R6;
    [|destruct (m s5) as [[deps|e] s6] eqn:E6; [|discriminate]]
  end.
  { intros Hl. destruct (R5 Hl) as [R5' L5]. rewrite L5.
    destruct (links_requests address (p_import parsed) ([], md.2) s5) as (_ & -> & _).
    by rewrite R5', <- app_assoc. }
  cbn [snd] in *. clear P6.
  (* Promise.all, then, catch *)
  unfold bind at 1.
  pose proof (keeps_settled _ (preserves_Promise_all deps.2) s6 _ _ H6) as H7.
  pose proof (requests_Promise_all deps.2 s6) as [R7 _].
  destruct (Promise_all deps.2 s6) as [[all|e] s7]; [|discriminate]. cbn [snd] in *.
  unfold bind at 1.
  pose proof (keeps_settled _ (preserves_then_ all (Some (cb_depHrefs deps.1)) None)
                s7 _ _ H7) as H8.
  pose proof (requests_then_ all (Some (cb_depHrefs deps.1)) None s7) as [R8 _].
  destruct (then_ all (Some (cb_depHrefs deps.1)) None s7) as [[t|e] s8]; [|discriminate].
  cbn [snd] in *.
  unfold bind at 1.
  pose proof (keeps_settled _ (preserves_then_ t None (Some cb_rethrow)) s8 _ _ H8) as H9.
  pose proof (requests_then_ t None (Some cb_rethrow) s8) as [R9 _].
  destruct (then_ t None (Some cb_rethrow) s8) as [[c|e] s9]; [|discriminate].
  cbn [snd] in *.
  intros [= <- <-]. eexists. split; [reflexivity|]. cbn.
  split; [done|]. split; [by rewrite lookup_insert_eq|]. split; [exact H9|].
  intros Hl. rewrite R9, R8, R7. by apply R6.
Qed.

End OneCall.

(** ** From the loop of the tree builder to the node's [imports] *)

#[global] Instance same_alls_preorder : PreOrder same_alls.
Proof. split; [by intros s|]. intros s1 s2 s3 H1 H2. unfold same_alls in *. congruence. Qed.

Ltac alls_leaf := idtac; intros ?; unfold same_alls; simpl; repeat case_match; done.

Lemma alls_tree_child l acc h : keeps same_alls (tree_child l acc h).
Proof. repeat keeps_step same_alls alls_leaf. Qed.

Lemma registered_exists s q r : registered s q r → is_Some (promises s !! q).
Proof. unfold registered. destruct (promises s !! q); [eauto|done]. Qed.

(** [then] registers its callback on the promise. *)
Lemma then__registered q f s :
  is_Some (promises s !! q) →
  ∃ s', then_ q (Some f) None s = (Ok (length (promises s)), s')
      ∧ registered s' q (RThen (Some f) None (length (promises s)))
      ∧ (∀ q' r, registered s q' r → registered s' q' r)
      ∧ objs s' = objs s ∧ elems s' = elems s ∧ this s' = this s
      ∧ visited s' = visited s ∧ alls s' = alls s.
Proof.
  intros [st Hq]. rewrite then__unfold. eexists. split; [reflexivity|].
  unfold perform_then, alloc_promise. cbn [snd].
  match goal with |- context [bind get ?k ?s0] =>
    rewrite (bind_ok get k s0 s0 s0) by reflexivity
  end.
  cbn [promises set_history set_promises]. rewrite (lookup_app_Some_l _ _ _ _ Hq).
  assert (q < length (promises s)) as Hlt by (by eapply lookup_lt_Some).
  destruct st as [rs|o]; cbn.
  - split.
    { unfold registered. cbn.
      rewrite list_lookup_insert_eq by (rewrite length_app; lia).
      apply elem_of_app. right. apply list_elem_of_here. }
    split; [|done]. intros q' r. unfold registered. cbn.
    destruct (decide (q' = q)) as [->|Hne].
    + rewrite list_lookup_insert_eq by (rewrite length_app; lia). rewrite Hq.
      intros Hin. apply elem_of_app. by left.
    + rewrite list_lookup_insert_ne by done.
      destruct (promises s !! q') as [st'|] eqn:Hq'; [|done].
      by rewrite (lookup_app_Some_l _ _ _ _ Hq').
  - split.
    { unfold registered. cbn. rewrite (lookup_app_Some_l _ _ _ _ Hq).
      apply elem_of_app. right. apply list_elem_of_here. }
    split; [|done]. intros q' r. unfold registered. cbn.
    destruct (promises s !! q') as [st'|] eqn:Hq'; [|done].
    rewrite (lookup_app_Some_l _ _ _ _ Hq'). destruct st'; [done|].
    intros Hin. apply elem_of_app. by left.
Qed.

Lemma perform_then_ok q r s : ∃ s', perform_then q r s = (Ok tt, s').
Proof.
  unfold perform_then. rewrite (bind_ok _ _ s s s) by reflexivity.
  destruct (promises s !! q) as [[rs|o]|]; eauto.
Qed.

(** The loop of [Promise.all] over promises: each gets the reaction that
    fills its slot. *)
Lemma all_loop a c n ps : ∀ i done s,
  alls s !! a = Some {| a_values := replicate n None; a_target := c; a_inputs := done |} →
  length done = i →
  Forall (λ p, p < c) ps → c < length (promises s) →
  ∃ s', forEach_index (VPromise <$> ps) i (λ i x,
            nextPromise <- Promise_resolve x ;;
            all_input a nextPromise ;;;
            perform_then nextPromise (RAll a i)) s = (Ok tt, s')
      ∧ alls s' !! a
        = Some {| a_values := replicate n None; a_target := c; a_inputs := done ++ ps |}
      ∧ length (alls s') = length (alls s)
      ∧ (∀ j p, ps !! j = Some p → registered s' p (RAll a (i + j)))
      ∧ (∀ q r, registered s q r → registered s' q r)
      ∧ promises s' !! c = promises s !! c
      ∧ length (promises s') = length (promises s).
Proof.
  induction ps as [|p ps IH]; intros i done s Ha Hi Hps Hc.
  - exists s. cbn. rewrite app_nil_r. repeat split; try done.
  - apply Forall_cons in Hps as [Hp Hps].
    cbn [fmap list_fmap forEach_index].
    set (s1 := set_alls (λ l, match l !! a with
                              | Some rec => <[a := {| a_values := a_values rec;
                                                      a_target := a_target rec;
                                                      a_inputs := a_inputs rec ++ [p] |}]> l
                              | None => l
                              end) s).
    assert ((nextPromise <- Promise_resolve (VPromise p) ;;
             all_input a nextPromise ;;;
             perform_then nextPromise (RAll a i)) s
            = (Ok tt, (perform_then p (RAll a i) s1).2)) as Ef.
    { change ((nextPromise <- Promise_resolve (VPromise p) ;;
               all_input a nextPromise ;;;
               perform_then nextPromise (RAll a i)) s)
        with (perform_then p (RAll a i) s1).
      destruct (perform_then_ok p (RAll a i) s1) as [sx ->]. done. }
    assert (alls s1 !! a = Some {| a_values := replicate n None; a_target := c;
                                   a_inputs := done ++ [p] |}) as Ha1.
    { subst s1. cbn. rewrite Ha. apply list_lookup_insert_eq. by eapply lookup_lt_Some. }
    assert (is_Some (promises s1 !! p)) as [st Hst]
      by (apply lookup_lt_is_Some; subst s1; cbn; lia).
    assert (promises s !! p = Some st) as Hst' by exact Hst.
    set (s2 := (perform_then p (RAll a i) s1).2).
    assert (alls s2 = alls s1 ∧ length (promises s2) = length (promises s1)
            ∧ promises s2 !! c = promises s1 !! c
            ∧ registered s2 p (RAll a i)
            ∧ (∀ q r, registered s1 q r → registered s2 q r)) as (Ha2 & Hl2 & Hc2 & Hr2 & Hk2).
    { subst s2. unfold perform_then. rewrite (bind_ok _ _ s1 s1 s1) by reflexivity.
      rewrite Hst. destruct st as [rs|o]; cbn.
      - rewrite length_insert. split; [done|]. split; [done|].
        split; [rewrite list_lookup_insert_ne by lia; done|].
        split.
        { unfold registered. cbn.
          rewrite list_lookup_insert_eq by (by eapply lookup_lt_Some).
          apply elem_of_app. right. apply list_elem_of_here. }
        intros q r. unfold registered. cbn.
        destruct (decide (q = p)) as [->|Hne].
        + rewrite list_lookup_insert_eq by (by eapply lookup_lt_Some). rewrite Hst'.
          intros Hin. apply elem_of_app. by left.
        + by rewrite list_lookup_insert_ne.
      - split; [done|]. split; [done|]. split; [done|]. split.
        { unfold registered. cbn. rewrite Hst'.
          apply elem_of_app. right. apply list_elem_of_here. }
        intros q r. unfold registered. cbn.
        destruct (promises s !! q) as [[rs'|o']|]; try done.
        intros Hin. apply elem_of_app. by left. }
    destruct (IH (S i) (done ++ [p]) s2) as (s' & E & Ha' & Hla & Hreg & Hkeep & Hc' & Hl').
    { by rewrite Ha2. }
    { rewrite length_app. cbn. lia. }
    { done. }
    { rewrite Hl2. subst s1. cbn. done. }
    exists s'. split.
    { erewrite bind_ok by exact Ef. exact E. }
    split; [by rewrite Ha', <- app_assoc|].
    split.
    { rewrite Hla, Ha2. subst s1. cbn. rewrite Ha. by rewrite length_insert. }
    split.
    { intros [|j] q Hq; cbn in Hq.
      - injection Hq as <-. rewrite Nat.add_0_r. by apply Hkeep.
      - replace (i + S j) with (S i + j) by lia. by apply Hreg. }
    split.
    { intros q r Hq. apply Hkeep, Hk2. exact Hq. }
    split; [by rewrite Hc', Hc2|]. by rewrite Hl', Hl2.
Qed.

Lemma Promise_all_promises ps s :
  Forall (λ p, p < length (promises s)) ps →
  ∃ s', Promise_all (VPromise <$> ps) s = (Ok (length (promises s)), s')
      ∧ alls s' !! length (alls s)
        = Some {| a_values := replicate (length ps) None;
                  a_target := length (promises s); a_inputs := ps |}
      ∧ (∀ j p, ps !! j = Some p → registered s' p (RAll (length (alls s)) j))
      ∧ (∀ q r, registered s q r → registered s' q r)
      ∧ is_Some (promises s' !! length (promises s))
      ∧ objs s' = objs s ∧ visited s' = visited s
      ∧ length (promises s') = S (length (promises s)).
Proof.
  intros Hps. unfold Promise_all. rewrite (bind_ok _ _ s s s) by reflexivity.
  erewrite bind_ok by reflexivity. erewrite bind_ok by reflexivity.
  rewrite length_fmap.
  set (s1 := set_alls _ _).
  destruct (all_loop (length (alls s)) (length (promises s)) (length ps) ps 0 [] s1)
    as (s2 & E & Ha2 & Hla & Hreg & Hkeep & Hc & Hl); [apply lookup_alloc|done|done| |].
  { subst s1. cbn. rewrite length_app. cbn. lia. }
  erewrite bind_ok by exact E.
  assert (objs s2 = objs s ∧ visited s2 = visited s) as [Ho2 Hv2].
  { assert (keeps (λ a b, objs b = objs a ∧ visited b = visited a)
              (forEach_index (VPromise <$> ps) 0 (λ i x,
                 nextPromise <- Promise_resolve x ;;
                 all_input (length (alls s)) nextPromise ;;;
                 perform_then nextPromise (RAll (length (alls s)) i)))) as K.
    { assert (PreOrder (λ a b : State, objs b = objs a ∧ visited b = visited a)) as PO.
      { split; [by intros ?|]. intros x y z [? ?] [? ?]. split; congruence. }
      repeat keeps_step (λ a b : State, objs b = objs a ∧ visited b = visited a)
        ltac:(idtac; intros ?; simpl; repeat case_match; done). }
    specialize (K s1). rewrite E in K. exact K. }
  cbn [app] in Ha2.
  assert (promises s2 !! length (promises s) = Some (Pending [])) as Hc2.
  { rewrite Hc. subst s1. cbn. apply lookup_alloc. }
  assert (∀ q r, registered s q r → registered s2 q r) as Hkeep'.
  { intros q r Hq. apply Hkeep. revert Hq. unfold registered. subst s1. cbn.
    destruct (promises s !! q) as [st|] eqn:Hq; [|done].
    by rewrite (lookup_app_Some_l _ _ _ _ Hq). }
  clear Hkeep.
  unfold all_check.
  destruct (forallb is_Some_b (replicate (length ps) (@None value))) eqn:Hall.
  - erewrite bind_ok; last first.
    { rewrite (bind_ok _ _ s2 s2 s2) by reflexivity.
      cbn [alls set_history set_promises]. rewrite Ha2. cbn [a_values a_target].
      rewrite Hall. rewrite (settle_pending _ _ _ _ Hc2). reflexivity. }
    destruct ps as [|p ps]; [|done]. eexists. split; [reflexivity|]. cbn.
    split; [exact Ha2|]. split; [by intros [|?] ?|]. split.
    { intros q r Hq. pose proof (registered_exists _ _ _ Hq) as Hex.
      apply lookup_lt_is_Some in Hex.
      apply Hkeep' in Hq. revert Hq. unfold registered. cbn.
      rewrite list_lookup_insert_ne by lia. rewrite app_nil_r. done. }
    assert (length (promises s2) = S (length (promises s))) as Hl'
      by (rewrite Hl; subst s1; cbn; rewrite length_app; cbn; lia).
    split; [apply lookup_lt_is_Some; rewrite length_insert; lia|].
    split; [done|]. split; [done|]. by rewrite length_insert.
  - erewrite bind_ok; last first.
    { rewrite (bind_ok _ _ s2 s2 s2) by reflexivity.
      cbn [alls set_history set_promises]. rewrite Ha2. cbn [a_values a_target].
      rewrite Hall. reflexivity. }
    eexists. split; [reflexivity|]. cbn. split; [exact Ha2|]. split; [exact Hreg|].
    split; [exact Hkeep'|]. split; [by rewrite Hc2|].
    split; [done|]. split; [done|].
    rewrite Hl. subst s1. cbn. rewrite length_app. cbn. lia.
Qed.

Lemma map_fmap {A B} (f : A → B) (l : list A) : map f l = f <$> l.
Proof. induction l as [|x l IH]; simpl; [done|]. by rewrite IH. Qed.

Lemma is_child_exists s lh h b p : aligned s → is_child s lh h b p → p < length (promises s).
Proof.
  intros Ha. destruct b; simpl.
  - intros (hp & src & H & _). rewrite <- Ha. by eapply lookup_lt_Some.
  - intros (o & H & _). by eapply lookup_lt_Some.
Qed.

Lemma children_kinds_length hrefs : ∀ d, length (children_kinds d hrefs) = length hrefs.
Proof.
  induction hrefs as [|h l IH]; intros d; simpl; [done|].
  destruct (seen d h); simpl; by rewrite IH.
Qed.

Section TreeChain.

Variable importParse : string → exn + Parsed.
Variable jsParse : string → bool → exn + ParsedJs.
Variable url_resolve : string → string → string.

(** The callback of lines 210-240 on the list [hrefs]: the promises of
    the loop, in order, are the inputs of one [Promise.all], each with
    the reaction that fills its slot, and the callback of lines 227-239
    is registered on the result. *)
Lemma tree_deps_spec (m : HTMLMonomer) lh v hrefs s d :
  visited s !! lh = Some d → aligned s →
  ∃ depMetadata p s',
    call importParse jsParse url_resolve (cb_tree_deps m lh v) (VStrings hrefs) s
    = (Ok (VPromise p), s')
    ∧ length depMetadata = length hrefs
    ∧ (∀ j h q, hrefs !! j = Some h → depMetadata !! j = Some q →
         if seen d h || bool_decide (h ∈ take j hrefs)
         then is_placeholder s' q
         else is_build s' lh h q)
    ∧ alls s' !! length (alls s)
      = Some {| a_values := replicate (length hrefs) None;
                a_target := p - 1; a_inputs := depMetadata |}
    ∧ (∀ j q, depMetadata !! j = Some q → registered s' q (RAll (length (alls s)) j))
    ∧ registered s' (p - 1) (RThen (Some (cb_tree_imports m v)) None p)
    ∧ visited s' !! lh = Some (mark_all d hrefs).
Proof.
  intros Hd Ha. cbn [call].
  destruct (tree_children_spec lh hrefs [] s d Hd Ha)
    as (ps & s1 & E1 & Hd1 & Ha1 & X1 & G1 & HF).
  cbn [app] in E1. erewrite bind_ok by exact E1.
  assert (alls s1 = alls s) as Hal1.
  { assert (keeps same_alls (forEach_acc hrefs (tree_child lh) [])) as K
      by (apply (keeps_forEach_acc same_alls); intros; apply alls_tree_child).
    specialize (K s). by rewrite E1 in K. }
  pose proof (Forall2_length _ _ _ HF) as Hlen.
  rewrite length_zip, children_kinds_length, Nat.min_id in Hlen.
  assert (Forall (λ p, p < length (promises s1)) ps) as Hps.
  { apply Forall_forall. intros p Hp.
    apply list_elem_of_lookup in Hp as [j Hj].
    destruct (Forall2_lookup_r _ _ _ _ _ HF Hj) as ([h b] & _ & Hc).
    by eapply is_child_exists. }
  rewrite map_fmap.
  destruct (Promise_all_promises ps s1 Hps)
    as (s2 & E2 & Hrec & Hreg & Hkeep & Hex & Ho2 & Hv2 & Hl2).
  erewrite bind_ok by exact E2.
  pose proof (preserves_Promise_all (VPromise <$> ps) s1) as X2.
  pose proof (grows_Promise_all (VPromise <$> ps) s1) as G2.
  rewrite E2 in X2, G2. cbn [snd] in X2, G2.
  destruct (then__registered (length (promises s1)) (cb_tree_imports m v) s2 Hex)
    as (s3 & E3 & Hr3 & Hk3 & Ho3 & _ & _ & Hv3 & Hal3).
  erewrite bind_ok by exact E3.
  pose proof (preserves_then_ (length (promises s1)) (Some (cb_tree_imports m v)) None s2) as X3.
  pose proof (grows_then_ (length (promises s1)) (Some (cb_tree_imports m v)) None s2) as G3.
  rewrite E3 in X3, G3. cbn [snd] in X3, G3.
  exists ps, (length (promises s2)), s3. rewrite Hl2. cbn [Nat.sub]. rewrite Nat.sub_0_r.
  split; [done|]. split; [done|]. split.
  { intros j h q Hj Hq.
    pose proof (children_kinds_lookup hrefs d j h Hj) as Hkind.
    assert (zip hrefs (children_kinds d hrefs) !! j
            = Some (h, negb (seen d h || bool_decide (h ∈ take j hrefs)))) as Hz.
    { rewrite lookup_zip_with, Hj. simpl. by rewrite Hkind. }
    pose proof (Forall2_lookup_lr _ _ _ _ _ _ HF Hz Hq) as Hc. simpl in Hc.
    assert (is_child s3 lh h (negb (seen d h || bool_decide (h ∈ take j hrefs))) q) as Hc3.
    { eapply is_child_ext; [| |exact Hc]; by etrans. }
    by destruct (seen d h || bool_decide (h ∈ take j hrefs)). }
  split; [by rewrite Hal3, <- Hal1, Hlen|].
  split; [intros j q Hq; rewrite <- Hal1; by apply Hk3, Hreg|].
  split; [by rewrite <- Hl2|]. by rewrite Hv3, Hv2.
Qed.

End TreeChain.

Section TreeChain2.

Variable importParse : string → exn + Parsed.
Variable jsParse : string → bool → exn + ParsedJs.
Variable url_resolve : string → string → string.

(** The job of a slot of [Promise.all]: the value goes into the slot;
    when that fills the last empty slot, the result is fulfilled with the
    slots in order and its reactions are queued with that array. *)
Lemma all_slot a j v rec s :
  alls s !! a = Some rec →
  let vals := <[j := Some v]> (a_values rec) in
  let s' := (run_job importParse jsParse url_resolve
               (JReact (RAll a j) (Fulfilled v)) s).2 in
  alls s' !! a = Some {| a_values := vals; a_target := a_target rec;
                         a_inputs := a_inputs rec |}
  ∧ (forallb is_Some_b vals = true →
     ∀ rs, promises s !! a_target rec = Some (Pending rs) →
       promises s' !! a_target rec
       = Some (Settled (Fulfilled (VArray (default VUndefined <$> vals))))
       ∧ jobs s' = jobs s ++ ((λ r, JReact r (Fulfilled (VArray (default VUndefined <$> vals))))
                               <$> rs))
  ∧ (forallb is_Some_b vals = false → promises s' = promises s ∧ jobs s' = jobs s).
Proof.
  intros Ha vals s'. subst s'. cbn [run_job]. unfold all_store.
  erewrite bind_ok by reflexivity. unfold all_check.
  match goal with |- context [bind get ?k ?s0] =>
    rewrite (bind_ok get k s0 s0 s0) by reflexivity
  end.
  assert (Hlt : a < length (alls s)) by (by eapply lookup_lt_Some).
  cbn [alls set_alls]. rewrite Ha.
  rewrite list_lookup_insert_eq by done.
  cbn [a_values a_target]. fold vals.
  destruct (forallb is_Some_b vals) eqn:Hall.
  - match goal with |- context [settle ?t ?o ?s0] =>
      destruct (promises s0 !! t) as [[rs|o']|] eqn:Ht
    end.
    + rewrite (settle_pending _ _ _ _ Ht). cbn. rewrite Ha.
      split; [by rewrite list_lookup_insert_eq by done|].
      split; [|done]. intros _ rs' Hrs. cbn in Ht. rewrite Hrs in Ht. injection Ht as <-.
      unfold all_values. cbn [a_values]. rewrite map_fmap.
      split; [|done]. apply list_lookup_insert_eq. by eapply lookup_lt_Some.
    + rewrite settle_not_pending by (intros rs0; congruence). cbn. rewrite Ha.
      split; [by rewrite list_lookup_insert_eq by done|].
      split; [|done]. intros _ rs' Hrs. cbn in Ht. congruence.
    + rewrite settle_not_pending by (intros rs0; congruence). cbn. rewrite Ha.
      split; [by rewrite list_lookup_insert_eq by done|].
      split; [|done]. intros _ rs' Hrs. cbn in Ht. congruence.
  - cbn. rewrite Ha. split; [by rewrite list_lookup_insert_eq by done|].
    split; [done|]. done.
Qed.

(** The callback of lines 227-239: the array it is given becomes the
    node's [imports], and the callback of lines 230-238 is registered on
    the document's [htmlLoaded] with the same object. *)
Lemma tree_imports_spec (m : HTMLMonomer) r o l s :
  objs s !! r = Some o →
  is_Some (promises s !! htmlLoaded m) →
  ∃ t s', call importParse jsParse url_resolve (cb_tree_imports m (VObj r)) (VArray l) s
          = (Ok (VPromise t), s')
        ∧ objs s' = <[r := with_href (href m) (with_imports l o)]> (objs s)
        ∧ registered s' (htmlLoaded m) (RThen (Some (cb_tree_html (VObj r))) None t)
        ∧ elems s' = elems s.
Proof.
  intros Hr Hex. cbn [call].
  erewrite bind_ok by (by apply write_obj_ok).
  erewrite bind_ok; last first.
  { apply write_obj_ok. cbn. apply list_lookup_insert_eq. by eapply lookup_lt_Some. }
  match goal with |- context [bind (then_ ?q _ _) _ ?s2] =>
    destruct (then__registered q (cb_tree_html (VObj r)) s2 Hex)
      as (s3 & E3 & Hr3 & _ & Ho3 & He3 & _)
  end.
  erewrite bind_ok by exact E3.
  eexists _, s3. split; [reflexivity|]. split; [|split; [exact Hr3|exact He3]].
  rewrite Ho3. cbn. by rewrite list_insert_insert_eq.
Qed.

(** Lines 207-209 and 209-210: the two [then]s that start the build of a
    node hand on what [metadataLoaded] was fulfilled with. *)
Lemma _metadataTree_spec (m : HTMLMonomer) lh s :
  is_Some (promises s !! metadataLoaded m) →
  ∃ s', _metadataTree (Own m) lh s = (Ok (length (promises s)), s')
      ∧ registered s' (metadataLoaded m)
          (RThen (Some (cb_tree_metadata m lh)) None (length (promises s)))
      ∧ objs s' = objs s.
Proof.
  intros Hex. cbn [_metadataTree].
  destruct (then__registered (metadataLoaded m) (cb_tree_metadata m lh) s Hex)
    as (s' & E & Hr & _ & Ho & _).
  exists s'. done.
Qed.

Lemma tree_metadata_spec (m : HTMLMonomer) lh v s :
  is_Some (promises s !! depsLoaded m) →
  ∃ s', call importParse jsParse url_resolve (cb_tree_metadata m lh) v s
        = (Ok (VPromise (length (promises s))), s')
      ∧ registered s' (depsLoaded m)
          (RThen (Some (cb_tree_deps m lh v)) None (length (promises s)))
      ∧ objs s' = objs s.
Proof.
  intros Hex. cbn [call].
  destruct (then__registered (depsLoaded m) (cb_tree_deps m lh v) s Hex)
    as (s' & E & Hr & _ & Ho & _).
  erewrite bind_ok by exact E. exists s'. done.
Qed.

End TreeChain2.

(** ** The last callback, entry by entry *)

Lemma forEach_app {A} (f : A → M unit) l1 l2 s s1 :
  forEach l1 f s = (Ok tt, s1) →
  forEach (l1 ++ l2) f s = forEach l2 f s1.
Proof.
  revert s. induction l1 as [|x l1 IH]; intros s.
  - cbn. unfold ret. by intros [= <-].
  - cbn [forEach app]. unfold bind at 1. intros H. unfold bind at 1.
    destruct (f x s) as [[[]|e] s0]; [|done]. by apply IH.
Qed.

Lemma attachDomModule_heap_undefined parsedHtml bad s :
  (∀ x, bad ≠ VElement x) →
  p_dom_module parsedHtml ≠ [] →
  attachDomModule_heap parsedHtml bad s
  = (Throw (JsTypeError "Cannot read property 'is' of undefined"), s).
Proof.
  intros Hbad Hne. unfold attachDomModule_heap.
  destruct (p_dom_module parsedHtml); [done|].
  apply bind_throw. unfold element_is.
  rewrite (bind_ok _ _ s s s) by reflexivity.
  destruct bad; try reflexivity. by destruct (Hbad r).
Qed.

Lemma attachDomModule_heap_no_dom_module parsedHtml l : ∀ s,
  p_dom_module parsedHtml = [] →
  forEach l (attachDomModule_heap parsedHtml) s = (Ok tt, s).
Proof.
  intros s Hnil. induction l as [|x l IH]; [done|].
  cbn [forEach]. erewrite bind_ok; [exact IH|].
  unfold attachDomModule_heap. by rewrite Hnil.
Qed.

Section TreeHtmlEntries.

Variable importParse : string → exn + Parsed.
Variable jsParse : string → bool → exn + ParsedJs.
Variable url_resolve : string → string → string.

Lemma tree_html_spec r o rs parsedHtml s :
  objs s !! r = Some o →
  o_elements o = Some (VElement <$> rs) →
  Forall (λ x, x < length (elems s)) rs →
  ∃ s', call importParse jsParse url_resolve (cb_tree_html (VObj r)) (VParsed parsedHtml) s
        = (Ok (VObj r), s')
      ∧ objs s' = <[r := with_html parsedHtml o]> (objs s)
      ∧ (∀ x e, elems s !! x = Some e →
                elems s' !! x = Some (if bool_decide (x ∈ rs)
                                      then attachDomModule parsedHtml e else e)).
Proof.
  intros Hr He Hv. cbn [call].
  erewrite bind_ok by (by apply write_obj_ok).
  erewrite bind_ok; last first.
  { apply read_obj_ok. cbn. apply list_lookup_insert_eq. by eapply lookup_lt_Some. }
  cbn [o_elements with_html]. rewrite He.
  destruct (attach_all parsedHtml rs (set_objs (λ l, <[r := with_html parsedHtml o]> l) s))
    as (s' & E & Hel & Ho & _); [exact Hv|].
  erewrite bind_ok by exact E.
  exists s'. split; [reflexivity|]. rewrite Ho. done.
Qed.

Lemma tree_html_undefined_entry r o pre bad post parsedHtml s :
  objs s !! r = Some o →
  o_elements o = Some ((VElement <$> pre) ++ bad :: post) →
  Forall (λ x, x < length (elems s)) pre →
  (∀ x, bad ≠ VElement x) →
  p_dom_module parsedHtml ≠ [] →
  ∃ s', call importParse jsParse url_resolve (cb_tree_html (VObj r)) (VParsed parsedHtml) s
        = (Throw (JsTypeError "Cannot read property 'is' of undefined"), s')
      ∧ (∀ x e, elems s !! x = Some e →
                elems s' !! x = Some (if bool_decide (x ∈ pre)
                                      then attachDomModule parsedHtml e else e)).
Proof.
  intros Hr He Hv Hbad Hne. cbn [call].
  erewrite bind_ok by (by apply write_obj_ok).
  erewrite bind_ok; last first.
  { apply read_obj_ok. cbn. apply list_lookup_insert_eq. by eapply lookup_lt_Some. }
  cbn [o_elements with_html]. rewrite He.
  destruct (attach_all parsedHtml pre (set_objs (λ l, <[r := with_html parsedHtml o]> l) s))
    as (s' & E & Hel & _); [exact Hv|].
  exists s'. split; [|exact Hel].
  apply bind_throw. rewrite (forEach_app _ _ _ _ _ E). cbn [forEach].
  apply bind_throw. by apply attachDomModule_heap_undefined.
Qed.

Lemma tree_html_no_dom_module r o parsedHtml s :
  objs s !! r = Some o →
  p_dom_module parsedHtml = [] →
  call importParse jsParse url_resolve (cb_tree_html (VObj r)) (VParsed parsedHtml) s
  = (Ok (VObj r), set_objs (λ l, <[r := with_html parsedHtml o]> l) s).
Proof.
  intros Hr Hnil. cbn [call].
  erewrite bind_ok by (by apply write_obj_ok).
  erewrite bind_ok; last first.
  { apply read_obj_ok. cbn. apply list_lookup_insert_eq. by eapply lookup_lt_Some. }
  cbn [o_elements with_html].
  destruct (o_elements o) as [es|].
  - erewrite bind_ok by (by apply attachDomModule_heap_no_dom_module). done.
  - erewrite bind_ok by reflexivity. done.
Qed.

End TreeHtmlEntries.

(** * Fetching and parsing, the imports of a node, binding, shared metadata *)

Lemma tree_run_reaches importParse jsParse url_resolve s s' :
  reaches importParse jsParse url_resolve s s' →
  tree_run importParse jsParse url_resolve s s'.
Proof.
  induction 1 as [|s1 s2 s3 H _ IH]; [apply rtc_refl|].
  eapply rtc_l; [by apply tt_step|exact IH].
Qed.

Lemma tree_run_open_site docs scripts address :
  tree_run (parser_of docs) (λ t _, parser_of scripts t) absolute
    (Monomers_new (parser_of docs) (λ t _, parser_of scripts t) absolute
       address false address true).2
    (open_site docs scripts address).
Proof. apply tree_run_reaches, reaches_drain. Qed.

Lemma _parseHTML_registers importParse jsParse url_resolve htmlImport address s n s' :
  _parseHTML importParse jsParse url_resolve htmlImport address s = (Ok n, s') →
  n = js_get (html (this s')) address ∧ js_in address (html (this s')) = true.
Proof.
  intros E. split; [by eapply _parseHTML_result|].
  destruct (js_in address (html (this s))) eqn:Hin.
  - rewrite _parseHTML_memo in E by done. by injection E as _ <-.
  - destruct (importParse htmlImport) as [err|parsed] eqn:Hp.
    + destruct (_parseHTML_parse_failure importParse jsParse url_resolve
                  htmlImport address err s Hin Hp) as (s0 & E0 & _).
      congruence.
    + destruct (_parseHTML_fresh importParse jsParse url_resolve
                  htmlImport address parsed s n s' Hin Hp E) as (m & _ & _ & Hm & _).
      by eapply js_in_own.
Qed.

(** C3, as the code has it. Nothing keeps the loader from being asked twice
    for an address: a document that is parsed and gets its node has the
    loader asked once for every script with a [src] and once for every
    import link with an [href], in this order, whatever was requested
    before. Parsing goes by the table of nodes: a resolve of an address
    that has no node calls [importParse], once, whether or not the resolve
    succeeds; a resolve of an address that has its node returns that node
    and changes nothing; a resolve that returns leaves the address with
    its node. So an address is parsed again at every resolve until one of
    them gets as far as storing the node, and from then on, along every
    run of the job queue and the loader's answers, it is never parsed
    again and its node is never replaced, however many links target it. *)
Theorem C3_fetched_per_link_parsed_until_registered
    (importParse : string → exn + Parsed) (jsParse : string → bool → exn + ParsedJs)
    (url_resolve : string → string → string) :
  (∀ htmlImport address parsed s n s',
      js_in address (html (this s)) = false →
      importParse htmlImport = inr parsed →
      loader (this s) = true →
      _parseHTML importParse jsParse url_resolve htmlImport address s = (Ok n, s') →
      (requests s').*2
      = (requests s).*2
        ++ omap (script_target url_resolve address) (default [] (p_script parsed))
        ++ omap (link_target url_resolve address) (p_import parsed))
  ∧ (∀ htmlImport address s,
      js_in address (html (this s)) = false →
      parses (_parseHTML importParse jsParse url_resolve htmlImport address s).2
      = parses s ++ [address])
  ∧ (∀ htmlImport address s,
      js_in address (html (this s)) = true →
      _parseHTML importParse jsParse url_resolve htmlImport address s
      = (Ok (js_get (html (this s)) address), s))
  ∧ (∀ htmlImport address s n s',
      _parseHTML importParse jsParse url_resolve htmlImport address s = (Ok n, s') →
      n = js_get (html (this s')) address ∧ js_in address (html (this s')) = true)
  ∧ (∀ s s' address m,
      html (this s) !! address = Some m →
      reaches importParse jsParse url_resolve s s' →
      occurrences address (parses s') = occurrences address (parses s)
      ∧ html (this s') !! address = Some m
      ∧ requests s `prefix_of` requests s').
Proof.
  split; [|split; [|split; [|split]]].
  - intros htmlImport address parsed s n s' Hin Hp Hl E.
    destruct (_parseHTML_fresh importParse jsParse url_resolve
                htmlImport address parsed s n s' Hin Hp E) as (m & _ & _ & _ & _ & H).
    by apply H.
  - intros. by apply _parseHTML_logs_one_parse.
  - intros. by apply _parseHTML_memo.
  - intros. by eapply _parseHTML_registers.
  - intros. by eapply registered_address_is_kept.
Qed.

Lemma C3_fetched_per_link_witness :
  (let r := _parseHTML (parser_of twice_site) (λ t _, parser_of element_scripts t)
              absolute "A" "A" (initial true false) in
   (requests r.2).*2
   = (requests (initial true false)).*2
     ++ omap (script_target absolute "A") (default [] (p_script (page ["a"] ["B"; "B"])))
     ++ omap (link_target absolute "A") (p_import (page ["a"] ["B"; "B"])))
  ∧ (let s := open_site twice_site element_scripts "A" in
     let s' := answers twice_site element_scripts [1; 0] s in
     occurrences "A" (parses s') = occurrences "A" (parses s)
     ∧ html (this s') !! "A"
       = Some {| href := "A"; htmlLoaded := 1; metadataLoaded := 4; depsLoaded := 11 |}
     ∧ requests s `prefix_of` requests s').
Proof.
  split.
  - intros r.
    apply (proj1 (C3_fetched_per_link_parsed_until_registered (parser_of twice_site)
                    (λ t _, parser_of element_scripts t) absolute)
             "A" "A" (page ["a"] ["B"; "B"]) (initial true false)
             (match r.1 with Ok n => n | Throw _ => Undefined end) r.2);
      by vm_compute.
  - intros s s'.
    apply (proj2 (proj2 (proj2 (proj2
             (C3_fetched_per_link_parsed_until_registered (parser_of twice_site)
                (λ t _, parser_of element_scripts t) absolute))))
             s s' "A" _ twice_site_registers_A).
    apply reaches_answers.
Defined.

(** C6, as the code has it. For the list of import addresses of a
    document, the loop of lines 212-226 makes, in order, one promise per
    address: the promise of the empty placeholder exactly when the address
    was already marked in [loadedHrefs] when the loop started or occurs
    earlier in the same list, and the promise of the build of its subtree
    otherwise. The callback around the loop hands exactly these promises,
    in this order, to [Promise.all] and registers on its result the
    callback of lines 227-239 for the same document and metadata object.
    Each slot of [Promise.all] takes what its promise is fulfilled with,
    the result is fulfilled with the slots in order once all are filled,
    and the callback writes that array as [imports] of the metadata
    object. So the second and every later occurrence of an address in a
    document is always the placeholder, and the first occurrence is a
    subtree only if the address was not visited earlier in the same
    top-level call: with [A] importing [B] twice the tree of [A] has the
    node of [B] and then a placeholder, and with [A] importing [B] and [C]
    and [B] importing [C] twice both entries under [B] are placeholders. *)
Theorem C6_repeated_import_is_a_placeholder
    (importParse : string → exn + Parsed) (jsParse : string → bool → exn + ParsedJs)
    (url_resolve : string → string → string) :
  (∀ loadedHrefs hrefs s d,
      visited s !! loadedHrefs = Some d →
      aligned s →
      ∃ depMetadata s',
        forEach_acc hrefs (tree_child loadedHrefs) [] s = (Ok depMetadata, s')
        ∧ length depMetadata = length hrefs
        ∧ ∀ j href p, hrefs !! j = Some href → depMetadata !! j = Some p →
            if seen d href || bool_decide (href ∈ take j hrefs)
            then is_placeholder s' p
            else is_build s' loadedHrefs href p)
  ∧ (∀ (m : HTMLMonomer) loadedHrefs metadata hrefs s d,
      visited s !! loadedHrefs = Some d →
      aligned s →
      ∃ depMetadata p s',
        call importParse jsParse url_resolve
          (cb_tree_deps m loadedHrefs metadata) (VStrings hrefs) s
        = (Ok (VPromise p), s')
        ∧ length depMetadata = length hrefs
        ∧ (∀ j href q, hrefs !! j = Some href → depMetadata !! j = Some q →
             if seen d href || bool_decide (href ∈ take j hrefs)
             then is_placeholder s' q
             else is_build s' loadedHrefs href q)
        ∧ alls s' !! length (alls s)
          = Some {| a_values := replicate (length hrefs) None;
                    a_target := p - 1; a_inputs := depMetadata |}
        ∧ (∀ j q, depMetadata !! j = Some q →
             registered s' q (RAll (length (alls s)) j))
        ∧ registered s' (p - 1) (RThen (Some (cb_tree_imports m metadata)) None p))
  ∧ (∀ a j v rec s,
      alls s !! a = Some rec →
      let vals := <[j := Some v]> (a_values rec) in
      let s' := (run_job importParse jsParse url_resolve
                   (JReact (RAll a j) (Fulfilled v)) s).2 in
      alls s' !! a = Some {| a_values := vals; a_target := a_target rec;
                             a_inputs := a_inputs rec |}
      ∧ (forallb is_Some_b vals = true →
         ∀ rs, promises s !! a_target rec = Some (Pending rs) →
           promises s' !! a_target rec
           = Some (Settled (Fulfilled (VArray (default VUndefined <$> vals))))
           ∧ jobs s' = jobs s
                       ++ ((λ r, JReact r (Fulfilled (VArray (default VUndefined <$> vals))))
                             <$> rs))
      ∧ (forallb is_Some_b vals = false → promises s' = promises s ∧ jobs s' = jobs s))
  ∧ (∀ (m : HTMLMonomer) r o importMetadata s,
      objs s !! r = Some o →
      is_Some (promises s !! htmlLoaded m) →
      ∃ t s',
        call importParse jsParse url_resolve
          (cb_tree_imports m (VObj r)) (VArray importMetadata) s
        = (Ok (VPromise t), s')
        ∧ objs s' = <[r := with_href (href m) (with_imports importMetadata o)]> (objs s)
        ∧ registered s' (htmlLoaded m) (RThen (Some (cb_tree_html (VObj r))) None t))
  ∧ (let run := build_tree twice_site element_scripts
                  (answers twice_site element_scripts [0; 1]
                     (open_site twice_site element_scripts "A")) in
     jobs run.2 = []
     ∧ ∃ t a nodeA b nodeB p,
         run.1 = Some t
         ∧ promises run.2 !! t = Some (Settled (Fulfilled (VObj a)))
         ∧ objs run.2 !! a = Some nodeA
         ∧ o_href nodeA = Some "A"
         ∧ o_imports nodeA = Some [VObj b; VObj p]
         ∧ objs run.2 !! b = Some nodeB
         ∧ o_href nodeB = Some "B"
         ∧ o_imports nodeB = Some []
         ∧ objs run.2 !! p = Some empty_object)
  ∧ (let run := build_tree visited_site element_scripts
                  (answers visited_site element_scripts [0; 1; 2; 3]
                     (open_site visited_site element_scripts "A")) in
     jobs run.2 = []
     ∧ ∃ t a nodeA b nodeB c nodeC p1 p2,
         run.1 = Some t
         ∧ promises run.2 !! t = Some (Settled (Fulfilled (VObj a)))
         ∧ objs run.2 !! a = Some nodeA
         ∧ o_href nodeA = Some "A"
         ∧ o_imports nodeA = Some [VObj b; VObj c]
         ∧ objs run.2 !! b = Some nodeB
         ∧ o_href nodeB = Some "B"
         ∧ o_imports nodeB = Some [VObj p1; VObj p2]
         ∧ objs run.2 !! p1 = Some empty_object
         ∧ objs run.2 !! p2 = Some empty_object
         ∧ objs run.2 !! c = Some nodeC
         ∧ o_href nodeC = Some "C"
         ∧ o_imports nodeC = Some []).
Proof.
  split; [|split; [|split; [|split; [|split]]]].
  - intros. by eapply tree_children_decided.
  - intros m lh metadata hrefs s d Hd Ha.
    destruct (tree_deps_spec importParse jsParse url_resolve m lh metadata hrefs s d Hd Ha)
      as (deps & p & s' & E & Hl & Hk & Hal & Hin & Hr & _).
    by exists deps, p, s'.
  - intros a j v rec s Ha. by apply all_slot.
  - intros m r o l s Hr Hex.
    destruct (tree_imports_spec importParse jsParse url_resolve m r o l s Hr Hex)
      as (t & s' & E & Ho & Hreg & _).
    by exists t, s'.
  - intros run. split; [by vm_compute|]. eexists _, _, _, _, _, _. conj_compute.
  - intros run. split; [by vm_compute|]. eexists _, _, _, _, _, _, _, _, _. conj_compute.
Qed.

Lemma C6_repeated_import_witness :
  (∃ depMetadata s',
     forEach_acc ["B"; "C"; "B"] (tree_child 0) [] (alloc_visited (initial true false)).2
     = (Ok depMetadata, s')
     ∧ length depMetadata = 3
     ∧ ∀ j href p, ["B"; "C"; "B"] !! j = Some href → depMetadata !! j = Some p →
         if seen ∅ href || bool_decide (href ∈ take j ["B"; "C"; "B"])
         then is_placeholder s' p
         else is_build s' 0 href p)
  ∧ (let s := (alloc_visited (open_site twice_site element_scripts "A")).2 in
     let m := {| href := "A"; htmlLoaded := 1; metadataLoaded := 4; depsLoaded := 11 |} in
     ∃ depMetadata p s',
       call (parser_of twice_site) (λ t _, parser_of element_scripts t) absolute
         (cb_tree_deps m 0 (VObj 1)) (VStrings ["B"; "B"]) s
       = (Ok (VPromise p), s')
       ∧ length depMetadata = 2
       ∧ (∀ j href q, ["B"; "B"] !! j = Some href → depMetadata !! j = Some q →
            if seen ∅ href || bool_decide (href ∈ take j ["B"; "B"])
            then is_placeholder s' q
            else is_build s' 0 href q)
       ∧ alls s' !! length (alls s)
         = Some {| a_values := replicate 2 None; a_target := p - 1;
                   a_inputs := depMetadata |}
       ∧ (∀ j q, depMetadata !! j = Some q → registered s' q (RAll (length (alls s)) j))
       ∧ registered s' (p - 1) (RThen (Some (cb_tree_imports m (VObj 1))) None p)).
Proof.
  split.
  - apply (proj1 (C6_repeated_import_is_a_placeholder (parser_of twice_site)
                    (λ t _, parser_of element_scripts t) absolute)
             0 ["B"; "C"; "B"] (alloc_visited (initial true false)).2 ∅); reflexivity.
  - intros s m.
    apply (proj1 (proj2 (C6_repeated_import_is_a_placeholder (parser_of twice_site)
                           (λ t _, parser_of element_scripts t) absolute))
             m 0 (VObj 1) ["B"; "B"] s ∅); by vm_compute.
Defined.

(** C8. [attachDomModule] binds to an element the first dom-module of the
    document whose [id] equals the element's name and looks no further,
    and leaves the element as it is when there is none. The callback of
    lines 230-238 applies it to the entries of the metadata's [elements],
    in order, with the dom-modules of the parsed document it is given:
    along every run that callback is queued with the resolved aggregate of
    a node and the outcome of that node's [htmlLoaded], which is the
    document's own parse; when every entry is an element, each is bound
    as above and nothing is thrown. But an entry that is not an element,
    put there by [reduceMetadata] for a script whose parse result has no
    [elements], makes [element.is] throw as soon as the document has a
    dom-module: the [forEach] stops there, the elements after it are not
    bound, and the tree is rejected. With two scripts, the first without
    [elements] and the second defining [x-a], and the dom-module of [x-a]
    in the same document, [x-a] stays without its dom-module and the
    promise of [metadataTree()] is rejected with the TypeError; with the
    second script alone [x-a] is bound to the first of its two
    dom-modules. *)
Theorem C8_binding_stops_at_an_undefined_entry
    (importParse : string → exn + Parsed) (jsParse : string → bool → exn + ParsedJs)
    (url_resolve : string → string → string) :
  (∀ parsedImport element pre d post,
      p_dom_module parsedImport = pre ++ d :: post →
      Forall (λ x, getAttribute x "id" ≠ Some (e_is element)) pre →
      getAttribute d "id" = Some (e_is element) →
      attachDomModule parsedImport element
      = {| e_is := e_is element; domModule := Some d |})
  ∧ (∀ parsedImport element,
      Forall (λ x, getAttribute x "id" ≠ Some (e_is element)) (p_dom_module parsedImport) →
      attachDomModule parsedImport element = element)
  ∧ (∀ r o rs parsedHtml s,
      objs s !! r = Some o →
      o_elements o = Some (VElement <$> rs) →
      Forall (λ x, x < length (elems s)) rs →
      ∃ s', call importParse jsParse url_resolve
              (cb_tree_html (VObj r)) (VParsed parsedHtml) s
            = (Ok (VObj r), s')
          ∧ objs s' = <[r := with_html parsedHtml o]> (objs s)
          ∧ (∀ x e, elems s !! x = Some e →
                    elems s' !! x = Some (if bool_decide (x ∈ rs)
                                          then attachDomModule parsedHtml e else e)))
  ∧ (∀ r o pre bad post parsedHtml s,
      objs s !! r = Some o →
      o_elements o = Some ((VElement <$> pre) ++ bad :: post) →
      Forall (λ x, x < length (elems s)) pre →
      (∀ x, bad ≠ VElement x) →
      p_dom_module parsedHtml ≠ [] →
      ∃ s', call importParse jsParse url_resolve
              (cb_tree_html (VObj r)) (VParsed parsedHtml) s
            = (Throw (JsTypeError "Cannot read property 'is' of undefined"), s')
          ∧ (∀ x e, elems s !! x = Some e →
                    elems s' !! x = Some (if bool_decide (x ∈ pre)
                                          then attachDomModule parsedHtml e else e)))
  ∧ (∀ htmlImport attachAST address loader s,
      tree_run importParse jsParse url_resolve
        (Monomers_new importParse jsParse url_resolve htmlImport attachAST address loader).2
        s →
      ∀ metadata r t o,
        JReact (RThen (Some (cb_tree_html metadata)) r t) o ∈ jobs s →
        ∃ m, aggregate_of s m metadata ∧ promises s !! htmlLoaded m = Some (Settled o))
  ∧ (∀ htmlImport address parsed s n s',
      js_in address (html (this s)) = false →
      importParse htmlImport = inr parsed →
      _parseHTML importParse jsParse url_resolve htmlImport address s = (Ok n, s') →
      ∃ m, n = Own m
         ∧ html (this s') !! address = Some m
         ∧ promises s' !! htmlLoaded m = Some (Settled (Fulfilled (VParsed parsed))))
  ∧ (let run := build_tree aborted_site aborted_scripts
                  (open_site aborted_site aborted_scripts "A") in
     jobs run.2 = []
     ∧ ∃ t m metadata o parsed,
         run.1 = Some t
         ∧ root (this run.2) = Own m
         ∧ promises run.2 !! metadataLoaded m = Some (Settled (Fulfilled (VObj metadata)))
         ∧ objs run.2 !! metadata = Some o
         ∧ o_elements o = Some [VUndefined; VElement 0]
         ∧ promises run.2 !! htmlLoaded m = Some (Settled (Fulfilled (VParsed parsed)))
         ∧ p_dom_module parsed = [dom_module "x-a" []]
         ∧ elems run.2 = [{| e_is := "x-a"; domModule := None |}]
         ∧ promises run.2 !! t
           = Some (Settled (Rejected
                     (JsTypeError "Cannot read property 'is' of undefined"))))
  ∧ (let run := build_tree bound_site element_scripts
                  (open_site bound_site element_scripts "A") in
     jobs run.2 = []
     ∧ ∃ t m metadata o,
         run.1 = Some t
         ∧ root (this run.2) = Own m
         ∧ promises run.2 !! metadataLoaded m = Some (Settled (Fulfilled (VObj metadata)))
         ∧ promises run.2 !! t = Some (Settled (Fulfilled (VObj metadata)))
         ∧ objs run.2 !! metadata = Some o
         ∧ o_elements o = Some [VElement 0]
         ∧ elems run.2 = [{| e_is := "x-a"; domModule := Some (dom_module "x-a" []) |}]).
Proof.
  split; [|split; [|split; [|split; [|split; [|split; [|split]]]]]].
  - intros parsedImport element.
    exact (proj1 (attachDomModule_scan parsedImport element)).
  - intros parsedImport element.
    exact (proj1 (proj2 (attachDomModule_scan parsedImport element))).
  - intros. by eapply tree_html_spec.
  - intros. by eapply tree_html_undefined_entry.
  - intros htmlImport attachAST address loader s Hrun metadata r t o Hj.
    pose proof (inv_tree_run _ _ _ _ _ Hrun
                  (inv_Monomers_new importParse jsParse url_resolve
                     htmlImport attachAST address loader)) as (_ & Hjobs & _).
    exact (Hjobs _ _ _ _ Hj).
  - intros htmlImport address parsed s n s' Hin Hp E.
    destruct (_parseHTML_fresh importParse jsParse url_resolve
                htmlImport address parsed s n s' Hin Hp E) as (m & -> & _ & Hm & Hh & _).
    by exists m.
  - intros run. split; [by vm_compute|]. eexists _, _, _, _, _. conj_compute.
  - intros run. split; [by vm_compute|]. eexists _, _, _, _. conj_compute.
Qed.

Lemma tree_run_aborted_site :
  tree_run (parser_of aborted_site) (λ t _, parser_of aborted_scripts t) absolute
    (Monomers_new (parser_of aborted_site) (λ t _, parser_of aborted_scripts t) absolute
       "A" false "A" true).2
    (drain (parser_of aborted_site) (λ t _, parser_of aborted_scripts t) absolute 5
       (metadataTree (open_site aborted_site aborted_scripts "A")).2).
Proof.
  etrans; [apply tree_run_open_site|].
  eapply rtc_l; [|apply tree_run_reaches, reaches_drain].
  apply (tt_tree _ _ _ _ _ 9). by vm_compute.
Qed.

Lemma aborted_site_html_job :
  JReact (RThen (Some (cb_tree_html (VObj 4))) None 13)
    (Fulfilled (VParsed {| p_script := Some [inline_script "m"; inline_script "a"];
                           p_import := [];
                           p_dom_module := [dom_module "x-a" []] |}))
  ∈ jobs (drain (parser_of aborted_site) (λ t _, parser_of aborted_scripts t) absolute 5
            (metadataTree (open_site aborted_site aborted_scripts "A")).2).
Proof. vm_compute. apply list_elem_of_here. Qed.

Lemma C8_binding_witness :
  let doc := {| p_script := Some [inline_script "m"; inline_script "a"]; p_import := [];
                p_dom_module := [dom_module "x-a" []] |} in
  let s := drain (parser_of aborted_site) (λ t _, parser_of aborted_scripts t) absolute 5
             (metadataTree (open_site aborted_site aborted_scripts "A")).2 in
  attachDomModule
    {| p_script := None; p_import := [];
       p_dom_module :=
         [dom_module "x-bar" []] ++
         dom_module "x-foo" [] ::
         [dom_module "x-foo" [{| attr_name := "assetpath"; attr_value := "/" |}]] |}
    {| e_is := "x-foo"; domModule := None |}
  = {| e_is := "x-foo"; domModule := Some (dom_module "x-foo" []) |}
  ∧ (∃ m, aggregate_of s m (VObj 4)
        ∧ promises s !! htmlLoaded m = Some (Settled (Fulfilled (VParsed doc))))
  ∧ (∃ s', call (parser_of aborted_site) (λ t _, parser_of aborted_scripts t) absolute
             (cb_tree_html (VObj 4)) (VParsed doc) s
           = (Throw (JsTypeError "Cannot read property 'is' of undefined"), s')
         ∧ (∀ x e, elems s !! x = Some e →
                   elems s' !! x = Some (if bool_decide (x ∈ [])
                                         then attachDomModule doc e else e))).
Proof.
  intros doc s.
  pose proof (C8_binding_stops_at_an_undefined_entry (parser_of aborted_site)
                (λ t _, parser_of aborted_scripts t) absolute)
    as (Hscan & _ & _ & Hbad & Hrun & _).
  split; [|split].
  - apply (Hscan {| p_script := None; p_import := [];
                    p_dom_module :=
                      [dom_module "x-bar" []] ++
                      dom_module "x-foo" [] ::
                      [dom_module "x-foo"
                         [{| attr_name := "assetpath"; attr_value := "/" |}]] |}
                 {| e_is := "x-foo"; domModule := None |}
                 [dom_module "x-bar" []] (dom_module "x-foo" [])
                 [dom_module "x-foo" [{| attr_name := "assetpath"; attr_value := "/" |}]]);
      [reflexivity| |reflexivity].
    constructor; [|constructor]. simpl. discriminate.
  - exact (Hrun "A" false "A" true s tree_run_aborted_site _ _ _ _ aborted_site_html_job).
  - apply (Hbad 4 {| o_elements := Some [VUndefined; VElement 0]; o_modules := Some [];
                     o_imports := Some []; o_href := Some "A"; o_html := None |}
             [] VUndefined [VElement 0] doc s);
      [by vm_compute|reflexivity|constructor|discriminate|discriminate].
Defined.

(** C10. A document without script nodes gets [EMPTY_METADATA] itself as
    its metadata: with no [script] property [metadataLoaded] is
    [Promise.resolve(EMPTY_METADATA)]; with an empty list of scripts it is
    the [then] on [Promise.all([])], whose queued job fulfils it with the
    initial value of [reduce], [EMPTY_METADATA] again. The tree builder
    works on the resolved aggregate itself: along every run of an
    instance, with any number of calls of [metadataTree()], each callback
    of the builder that is registered or queued belongs to a node of the
    table and carries as [metadata] what that node's [metadataLoaded] was
    fulfilled with; the callbacks write [imports], [href] and [html] onto
    that object in place and return it. So run for one document and then
    for another on [EMPTY_METADATA], they leave on it what was written for
    the second; and with two documents without scripts, [A] importing [B],
    the tree of [A] is [EMPTY_METADATA] itself, carrying the address and
    markup of [A], built last, and itself as its only import. *)
Theorem C10_scriptless_documents_share_EMPTY_METADATA
    (importParse : string → exn + Parsed) (jsParse : string → bool → exn + ParsedJs)
    (url_resolve : string → string → string) :
  (∀ htmlImport address parsed s,
      js_in address (html (this s)) = false →
      importParse htmlImport = inr parsed →
      p_script parsed = None →
      ∃ m s', _parseHTML importParse jsParse url_resolve htmlImport address s
              = (Ok (Own m), s')
            ∧ promises s' !! metadataLoaded m
              = Some (Settled (Fulfilled (VObj EMPTY_METADATA))))
  ∧ (∀ htmlImport address parsed s,
      js_in address (html (this s)) = false →
      importParse htmlImport = inr parsed →
      p_script parsed = Some [] →
      ∃ m s', _parseHTML importParse jsParse url_resolve htmlImport address s
              = (Ok (Own m), s')
            ∧ JReact (RThen (Some cb_reduce) None (metadataLoaded m))
                     (Fulfilled (VArray [])) ∈ jobs s'
            ∧ ∀ s'' rs,
                promises s'' !! metadataLoaded m = Some (Pending rs) →
                promises (run_job importParse jsParse url_resolve
                            (JReact (RThen (Some cb_reduce) None (metadataLoaded m))
                                    (Fulfilled (VArray []))) s'').2
                  !! metadataLoaded m
                = Some (Settled (Fulfilled (VObj EMPTY_METADATA))))
  ∧ (∀ htmlImport attachAST address loader s,
      tree_run importParse jsParse url_resolve
        (Monomers_new importParse jsParse url_resolve htmlImport attachAST address loader).2
        s →
      (∀ q rs f r t, promises s !! q = Some (Pending rs) → RThen (Some f) r t ∈ rs →
                     tree_reaction_ok s q f)
      ∧ (∀ f r t o, JReact (RThen (Some f) r t) o ∈ jobs s → tree_job_ok s f o))
  ∧ (∀ (m : HTMLMonomer) lh s,
      is_Some (promises s !! metadataLoaded m) →
      ∃ s', _metadataTree (Own m) lh s = (Ok (length (promises s)), s')
          ∧ registered s' (metadataLoaded m)
              (RThen (Some (cb_tree_metadata m lh)) None (length (promises s)))
          ∧ objs s' = objs s)
  ∧ (∀ (m : HTMLMonomer) lh metadata s,
      is_Some (promises s !! depsLoaded m) →
      ∃ s', call importParse jsParse url_resolve (cb_tree_metadata m lh) metadata s
            = (Ok (VPromise (length (promises s))), s')
          ∧ registered s' (depsLoaded m)
              (RThen (Some (cb_tree_deps m lh metadata)) None (length (promises s)))
          ∧ objs s' = objs s)
  ∧ (∀ (m : HTMLMonomer) r o importMetadata s,
      objs s !! r = Some o →
      is_Some (promises s !! htmlLoaded m) →
      ∃ t s',
        call importParse jsParse url_resolve
          (cb_tree_imports m (VObj r)) (VArray importMetadata) s
        = (Ok (VPromise t), s')
        ∧ objs s' = <[r := with_href (href m) (with_imports importMetadata o)]> (objs s)
        ∧ registered s' (htmlLoaded m) (RThen (Some (cb_tree_html (VObj r))) None t))
  ∧ (∀ r o rs parsedHtml s,
      objs s !! r = Some o →
      o_elements o = Some (VElement <$> rs) →
      Forall (λ x, x < length (elems s)) rs →
      ∃ s', call importParse jsParse url_resolve
              (cb_tree_html (VObj r)) (VParsed parsedHtml) s
            = (Ok (VObj r), s')
          ∧ objs s' = <[r := with_html parsedHtml o]> (objs s))
  ∧ (∀ (m1 m2 : HTMLMonomer) l1 l2 parsed1 parsed2 o s,
      objs s !! EMPTY_METADATA = Some o →
      o_elements o = Some [] →
      ∃ t1 s1 s2 t2 s3 s4,
        call importParse jsParse url_resolve (cb_tree_imports m1 (VObj EMPTY_METADATA))
          (VArray l1) s = (Ok (VPromise t1), s1)
        ∧ call importParse jsParse url_resolve (cb_tree_html (VObj EMPTY_METADATA))
            (VParsed parsed1) s1 = (Ok (VObj EMPTY_METADATA), s2)
        ∧ call importParse jsParse url_resolve (cb_tree_imports m2 (VObj EMPTY_METADATA))
            (VArray l2) s2 = (Ok (VPromise t2), s3)
        ∧ call importParse jsParse url_resolve (cb_tree_html (VObj EMPTY_METADATA))
            (VParsed parsed2) s3 = (Ok (VObj EMPTY_METADATA), s4)
        ∧ objs s2 !! EMPTY_METADATA
          = Some {| o_elements := Some []; o_modules := o_modules o;
                    o_imports := Some l1; o_href := Some (href m1);
                    o_html := Some parsed1 |}
        ∧ objs s4 !! EMPTY_METADATA
          = Some {| o_elements := Some []; o_modules := o_modules o;
                    o_imports := Some l2; o_href := Some (href m2);
                    o_html := Some parsed2 |})
  ∧ (let run := build_tree scriptless_site []
                  (answers scriptless_site [] [0] (open_site scriptless_site [] "A")) in
     jobs run.2 = []
     ∧ ∃ t mA mB,
         run.1 = Some t
         ∧ html (this run.2) !! "A" = Some mA
         ∧ html (this run.2) !! "B" = Some mB
         ∧ promises run.2 !! metadataLoaded mA
           = Some (Settled (Fulfilled (VObj EMPTY_METADATA)))
         ∧ promises run.2 !! metadataLoaded mB
           = Some (Settled (Fulfilled (VObj EMPTY_METADATA)))
         ∧ promises run.2 !! t = Some (Settled (Fulfilled (VObj EMPTY_METADATA)))
         ∧ objs run.2 = [ {| o_elements := Some []; o_modules := Some [];
                             o_imports := Some [VObj EMPTY_METADATA];
                             o_href := Some "A";
                             o_html := Some (page [] ["B"]) |} ]).
Proof.
  pose proof (scriptless_metadata_is_EMPTY_METADATA importParse jsParse url_resolve)
    as (H1 & H2 & H3).
  split; [exact H1|]. split; [exact H2|].
  split; [|split; [|split; [|split; [|split; [|split; [exact H3|]]]]]].
  - intros htmlImport attachAST address loader s Hrun.
    pose proof (inv_tree_run _ _ _ _ _ Hrun
                  (inv_Monomers_new importParse jsParse url_resolve
                     htmlImport attachAST address loader)) as (Hre & Hjobs & _).
    split; [exact Hre|exact Hjobs].
  - intros. by apply _metadataTree_spec.
  - intros. by apply tree_metadata_spec.
  - intros m r o l s Hr Hex.
    destruct (tree_imports_spec importParse jsParse url_resolve m r o l s Hr Hex)
      as (t & s' & E & Ho & Hreg & _).
    by exists t, s'.
  - intros r o rs parsedHtml s Hr He Hv.
    destruct (tree_html_spec importParse jsParse url_resolve r o rs parsedHtml s Hr He Hv)
      as (s' & E & Ho & _).
    by exists s'.
  - intros run. split; [by vm_compute|]. eexists _, _, _. conj_compute.
Qed.

Lemma tree_run_scriptless_site :
  tree_run (parser_of scriptless_site) (λ t _, parser_of [] t) absolute
    (Monomers_new (parser_of scriptless_site) (λ t _, parser_of [] t) absolute
       "A" false "A" true).2
    (drain (parser_of scriptless_site) (λ t _, parser_of [] t) absolute 8
       (metadataTree
          (answers scriptless_site [] [0] (open_site scriptless_site [] "A"))).2).
Proof.
  etrans; [apply tree_run_open_site|].
  transitivity (answers scriptless_site [] [0] (open_site scriptless_site [] "A"));
    [apply tree_run_reaches, reaches_answers|].
  eapply rtc_l; [|apply tree_run_reaches, reaches_drain].
  apply (tt_tree _ _ _ _ _ 16). by vm_compute.
Qed.

Lemma scriptless_site_imports_job :
  JReact (RThen (Some (cb_tree_imports
                         {| href := "B"; htmlLoaded := 10; metadataLoaded := 12;
                            depsLoaded := 15 |} (VObj EMPTY_METADATA))) None 25)
    (Fulfilled (VArray []))
  ∈ jobs (drain (parser_of scriptless_site) (λ t _, parser_of [] t) absolute 8
            (metadataTree
               (answers scriptless_site [] [0] (open_site scriptless_site [] "A"))).2).
Proof. vm_compute. apply list_elem_of_further, list_elem_of_here. Qed.

Lemma C10_scriptless_witness :
  let s := drain (parser_of scriptless_site) (λ t _, parser_of [] t) absolute 8
             (metadataTree
                (answers scriptless_site [] [0] (open_site scriptless_site [] "A"))).2 in
  (∃ m s', _parseHTML (parser_of scriptless_site) (λ t _, parser_of [] t) absolute
             "B" "B" (initial true false) = (Ok (Own m), s')
         ∧ JReact (RThen (Some cb_reduce) None (metadataLoaded m))
                  (Fulfilled (VArray [])) ∈ jobs s'
         ∧ ∀ s'' rs,
             promises s'' !! metadataLoaded m = Some (Pending rs) →
             promises (run_job (parser_of scriptless_site) (λ t _, parser_of [] t) absolute
                         (JReact (RThen (Some cb_reduce) None (metadataLoaded m))
                                 (Fulfilled (VArray []))) s'').2
               !! metadataLoaded m
             = Some (Settled (Fulfilled (VObj EMPTY_METADATA))))
  ∧ aggregate_of s {| href := "B"; htmlLoaded := 10; metadataLoaded := 12;
                      depsLoaded := 15 |} (VObj EMPTY_METADATA)
  ∧ (∃ t s',
       call (parser_of scriptless_site) (λ t _, parser_of [] t) absolute
         (cb_tree_imports {| href := "B"; htmlLoaded := 10; metadataLoaded := 12;
                             depsLoaded := 15 |} (VObj EMPTY_METADATA)) (VArray []) s
       = (Ok (VPromise t), s')
       ∧ objs s' = <[EMPTY_METADATA :=
                       with_href "B" (with_imports []
                         {| o_elements := Some []; o_modules := Some [];
                            o_imports := None; o_href := None; o_html := None |})]> (objs s)
       ∧ registered s' 10 (RThen (Some (cb_tree_html (VObj EMPTY_METADATA))) None t)).
Proof.
  intros s.
  pose proof (C10_scriptless_documents_share_EMPTY_METADATA (parser_of scriptless_site)
                (λ t _, parser_of [] t) absolute)
    as (_ & Hempty & Hrun & _ & _ & Himports & _).
  split; [|split].
  - apply (Hempty "B" "B" (page [] []) (initial true false)); reflexivity.
  - exact (proj2 (Hrun "A" false "A" true s tree_run_scriptless_site)
             _ _ _ _ scriptless_site_imports_job).
  - apply (Himports {| href := "B"; htmlLoaded := 10; metadataLoaded := 12;
                       depsLoaded := 15 |} EMPTY_METADATA _ [] s);
      [by vm_compute|vm_compute; by eexists].
Defined.
